(** * A shallow embedding of the reactivity core (effect.ts, computed, reactive.ts)

    The JavaScript heap is made explicit: effect functions, Set objects
    (subscriber sets) and plain objects live in tables indexed by their
    identity, the module-level variables of the three source files are the
    fields of [State], and user callbacks (effect computations, schedulers,
    debug hooks, computed getters and setters) are programs of a small
    command language [prog] run by a fuel-bounded interpreter [exec]. *)

From stdpp Require Import gmap strings list fin_maps.
From Stdlib Require Import ZArith.

Local Open Scope Z_scope.
Local Open Scope nat_scope.

(** ** Values, keys and operation kinds *)

(** JavaScript values as far as the reactivity core can tell them apart.
    [VObj r] is a reference to a heap object (identity [r]); [VEffect e] is
    a ReactiveEffect function object; [VTypeError] is the value thrown when
    a dangling reference is used. *)
Inductive value :=
| VUndefined
| VNum (n : Z)
| VBool (b : bool)
| VObj (r : nat)
| VEffect (e : nat)
| VTypeError.

#[global] Instance value_eq_dec : EqDecision value.
Proof. solve_decision. Defined.

(** Modelled from the spec: the enum [OperationTypes] of './operations',
    which is imported by effect.ts but not part of the sources; the spec
    names the read kinds GET, HAS, ITERATE and the write kinds SET, ADD,
    DELETE, CLEAR. *)
Inductive OperationTypes := SET | ADD | DELETE | CLEAR | GET | HAS | ITERATE.

#[global] Instance OperationTypes_eq_dec : EqDecision OperationTypes.
Proof. solve_decision. Defined.

(** [string | symbol]; [ITERATE_KEY] is the module's own [Symbol('iterate')],
    different from every other symbol. *)
Inductive PropKey :=
| KString (s : string)
| KSymbol (n : nat)
| ITERATE_KEY.

#[global] Instance PropKey_eq_dec : EqDecision PropKey.
Proof. solve_decision. Defined.

(** Modelled from the spec: the four handler objects of './baseHandlers'
    and './collectionHandlers', which are imported by reactive.ts but not
    part of the sources. The specification leaves the interception layer
    out as an external collaborator; only the identity of the handlers
    is used here. *)
Inductive Handlers :=
| mutableHandlers
| readonlyHandlers
| mutableCollectionHandlers
| readonlyCollectionHandlers.

(** What [createReactiveObject] and [trigger] can observe of a heap
    object. [typeString] is the result of [toTypeString] of '@vue/shared'
    on the object, a helper that is not part of the sources. *)
Record JsObject := {
  _isVue : bool;
  _isVNode : bool;
  typeString : string;              (* toTypeString(value) *)
  isArray : bool;                   (* Array.isArray(value) *)
  constructorIsCollection : bool;   (* collectionTypes.has(value.constructor) *)
  proxyOf : option (nat * Handlers) (* target and handlers of a Proxy *)
}.

Record DebuggerEvent := {
  ev_effect : nat;
  ev_target : nat;
  ev_type : OperationTypes;
  ev_key : option PropKey;
  ev_extra : option value           (* extend(event, extraInfo) *)
}.

(** ** User code *)

Section Syntax.
Variable P : Type.

(** [scheduler?: (run: Function) => void]: either a user function or the
    closure [() => { dirty = true }] that [computed] builds, which refers
    to the closure variables of the computed object [c]. *)
Inductive Scheduler :=
| SchedUser (f : nat -> P)
| SchedDirty (c : nat).

Record ReactiveEffectOptions := {
  lazy : bool;
  opt_computed : bool;
  opt_scheduler : option Scheduler;
  opt_onTrack : option (DebuggerEvent -> P);
  opt_onTrigger : option (DebuggerEvent -> P);
  opt_onStop : option P
}.

(** The [fn] argument of [effect]: a plain function, or a function whose
    [isEffect] is true. *)
Inductive FnArg :=
| FnPlain (f : list value -> P)
| FnOfEffect (e : nat).

(** The argument of [computed]: a function, or a get/set options object. *)
Inductive ComputedArg :=
| GetterOnly (getter : FnArg)
| GetSet (getter : FnArg) (setter : value -> P).

Inductive Op :=
| OpTrack (target : nat) (type : OperationTypes) (key : option PropKey)
| OpTrigger (target : nat) (type : OperationTypes) (key : option PropKey)
            (extraInfo : option value)
| OpEffect (fn : FnArg) (options : ReactiveEffectOptions)
| OpCall (e : nat) (args : list value)
| OpStop (e : nat)
| OpPauseTracking
| OpResumeTracking
| OpComputed (a : ComputedArg)
| OpGetValue (c : nat)
| OpSetValue (c : nat) (v : value)
| OpReactive (v : value)
| OpReadonly (v : value)
| OpMarkReadonly (v : value)
| OpMarkNonReactive (v : value)
| OpNewObject (o : JsObject)
| OpLoad (x : nat)
| OpStore (x : nat) (v : value).
End Syntax.

Arguments SchedUser {P} f.
Arguments SchedDirty {P} c.
Arguments Build_ReactiveEffectOptions {P}.
Arguments lazy {P}.
Arguments opt_computed {P}.
Arguments opt_scheduler {P}.
Arguments opt_onTrack {P}.
Arguments opt_onTrigger {P}.
Arguments opt_onStop {P}.
Arguments FnPlain {P} f.
Arguments FnOfEffect {P} e.
Arguments GetterOnly {P} getter.
Arguments GetSet {P} getter setter.
Arguments OpTrack {P}.
Arguments OpTrigger {P}.
Arguments OpEffect {P}.
Arguments OpCall {P}.
Arguments OpStop {P}.
Arguments OpPauseTracking {P}.
Arguments OpResumeTracking {P}.
Arguments OpComputed {P}.
Arguments OpGetValue {P}.
Arguments OpSetValue {P}.
Arguments OpReactive {P}.
Arguments OpReadonly {P}.
Arguments OpMarkReadonly {P}.
Arguments OpMarkNonReactive {P}.
Arguments OpNewObject {P}.
Arguments OpLoad {P}.
Arguments OpStore {P}.

(** A user function body: it returns, throws, or calls into the library (or
    reads and writes one of its own variables) and goes on with the result. *)
#[warnings="-register-all"]
Inductive prog :=
| Ret (v : value)
| Throw (v : value)
| Vis (op : Op prog) (k : value -> prog).

(** ** The heap and the module-level state *)

Record ReactiveEffect := {
  active : bool;
  raw : list value -> prog;
  deps : list nat;                  (* Array<Dep>, as references to Sets *)
  computed : bool;
  scheduler : option (Scheduler prog);
  onTrack : option (DebuggerEvent -> prog);
  onTrigger : option (DebuggerEvent -> prog);
  onStop : option prog
}.

(** The [setter] closed over by a computed object. *)
Inductive Setter :=
| ReadonlySetter                    (* () => { /* TODO warn ... */ } *)
| UserSetter (f : value -> prog).

(** The closure variables of one call of [computed]. *)
Record ComputedState := {
  dirty : bool;
  cvalue : value;
  runner : nat;
  setter : Setter
}.

Inductive ConsoleMessage :=
| CannotBeMadeReactive (v : value).

(** The WeakMaps and WeakSets of reactive.ts. *)
Record ProxyTables := {
  rawToReactive : gmap nat nat;
  reactiveToRaw : gmap nat nat;
  rawToReadonly : gmap nat nat;
  readonlyToRaw : gmap nat nat;
  readonlyValues : gset nat;
  nonReactiveValues : gset nat
}.

Record State := {
  effects : list ReactiveEffect;    (* effect function objects, by identity *)
  sets : list (list nat);           (* Set<ReactiveEffect> objects, in insertion order *)
  objects : list JsObject;          (* other heap objects *)
  computeds : gmap nat ComputedState;
  targetMap : gmap nat (list (option PropKey * nat));
  tables : ProxyTables;
  activeReactiveEffectStack : list nat;
  shouldTrack : bool;
  __DEV__ : bool;
  console : list ConsoleMessage;    (* what console.warn has printed *)
  fnCalls : list nat;               (* ghost: effects whose fn was called, oldest first *)
  memory : gmap nat value           (* variables of the user code *)
}.

Definition initial_state (dev : bool) : State :=
  {| effects := []; sets := []; objects := []; computeds := ∅; targetMap := ∅;
     tables := {| rawToReactive := ∅; reactiveToRaw := ∅; rawToReadonly := ∅;
                  readonlyToRaw := ∅; readonlyValues := ∅; nonReactiveValues := ∅ |};
     activeReactiveEffectStack := []; shouldTrack := true; __DEV__ := dev;
     console := []; fnCalls := []; memory := ∅ |}.

Definition set_effects (x : list ReactiveEffect) (st : State) : State :=
  {| effects := x; sets := sets st; objects := objects st; computeds := computeds st;
     targetMap := targetMap st; tables := tables st;
     activeReactiveEffectStack := activeReactiveEffectStack st;
     shouldTrack := shouldTrack st; __DEV__ := __DEV__ st; console := console st;
     fnCalls := fnCalls st; memory := memory st |}.

Definition set_sets (x : list (list nat)) (st : State) : State :=
  {| effects := effects st; sets := x; objects := objects st; computeds := computeds st;
     targetMap := targetMap st; tables := tables st;
     activeReactiveEffectStack := activeReactiveEffectStack st;
     shouldTrack := shouldTrack st; __DEV__ := __DEV__ st; console := console st;
     fnCalls := fnCalls st; memory := memory st |}.

Definition set_objects (x : list JsObject) (st : State) : State :=
  {| effects := effects st; sets := sets st; objects := x; computeds := computeds st;
     targetMap := targetMap st; tables := tables st;
     activeReactiveEffectStack := activeReactiveEffectStack st;
     shouldTrack := shouldTrack st; __DEV__ := __DEV__ st; console := console st;
     fnCalls := fnCalls st; memory := memory st |}.

Definition set_computeds (x : gmap nat ComputedState) (st : State) : State :=
  {| effects := effects st; sets := sets st; objects := objects st; computeds := x;
     targetMap := targetMap st; tables := tables st;
     activeReactiveEffectStack := activeReactiveEffectStack st;
     shouldTrack := shouldTrack st; __DEV__ := __DEV__ st; console := console st;
     fnCalls := fnCalls st; memory := memory st |}.

Definition set_targetMap (x : gmap nat (list (option PropKey * nat))) (st : State) : State :=
  {| effects := effects st; sets := sets st; objects := objects st; computeds := computeds st;
     targetMap := x; tables := tables st;
     activeReactiveEffectStack := activeReactiveEffectStack st;
     shouldTrack := shouldTrack st; __DEV__ := __DEV__ st; console := console st;
     fnCalls := fnCalls st; memory := memory st |}.

Definition set_tables (x : ProxyTables) (st : State) : State :=
  {| effects := effects st; sets := sets st; objects := objects st; computeds := computeds st;
     targetMap := targetMap st; tables := x;
     activeReactiveEffectStack := activeReactiveEffectStack st;
     shouldTrack := shouldTrack st; __DEV__ := __DEV__ st; console := console st;
     fnCalls := fnCalls st; memory := memory st |}.

Definition set_stack (x : list nat) (st : State) : State :=
  {| effects := effects st; sets := sets st; objects := objects st; computeds := computeds st;
     targetMap := targetMap st; tables := tables st;
     activeReactiveEffectStack := x;
     shouldTrack := shouldTrack st; __DEV__ := __DEV__ st; console := console st;
     fnCalls := fnCalls st; memory := memory st |}.

Definition set_shouldTrack (x : bool) (st : State) : State :=
  {| effects := effects st; sets := sets st; objects := objects st; computeds := computeds st;
     targetMap := targetMap st; tables := tables st;
     activeReactiveEffectStack := activeReactiveEffectStack st;
     shouldTrack := x; __DEV__ := __DEV__ st; console := console st;
     fnCalls := fnCalls st; memory := memory st |}.

Definition set_console (x : list ConsoleMessage) (st : State) : State :=
  {| effects := effects st; sets := sets st; objects := objects st; computeds := computeds st;
     targetMap := targetMap st; tables := tables st;
     activeReactiveEffectStack := activeReactiveEffectStack st;
     shouldTrack := shouldTrack st; __DEV__ := __DEV__ st; console := x;
     fnCalls := fnCalls st; memory := memory st |}.

Definition set_fnCalls (x : list nat) (st : State) : State :=
  {| effects := effects st; sets := sets st; objects := objects st; computeds := computeds st;
     targetMap := targetMap st; tables := tables st;
     activeReactiveEffectStack := activeReactiveEffectStack st;
     shouldTrack := shouldTrack st; __DEV__ := __DEV__ st; console := console st;
     fnCalls := x; memory := memory st |}.

Definition set_memory (x : gmap nat value) (st : State) : State :=
  {| effects := effects st; sets := sets st; objects := objects st; computeds := computeds st;
     targetMap := targetMap st; tables := tables st;
     activeReactiveEffectStack := activeReactiveEffectStack st;
     shouldTrack := shouldTrack st; __DEV__ := __DEV__ st; console := console st;
     fnCalls := fnCalls st; memory := x |}.

(** ** Outcomes and sequencing *)

Inductive Outcome :=
| Normal (v : value)
| Thrown (v : value)
| OutOfFuel.

(** A library function that may call back into user code. *)
Abbreviation M := (State -> Outcome * State).

(** How user code is run: the interpreter, passed to every library function
    that invokes a callback. *)
Abbreviation Exec := (prog -> State -> Outcome * State).

Definition ret (v : value) : M := fun st => (Normal v, st).

Definition bind (m : M) (k : value -> M) : M :=
  fun st =>
    match m st with
    | (Normal v, st1) => k v st1
    | (r, st1) => (r, st1)
    end.

Notation "'let!' x ':=' m 'in' k" := (bind m (fun x => k))
  (at level 10, x name, m at level 100, k at level 200).
Notation "m ';;' k" := (bind m (fun _ => k))
  (at level 100, k at level 200, right associativity).

(** A state update that cannot fail. *)
Definition modify (f : State -> State) : M := fun st => (Normal VUndefined, f st).

(** The result of a callback is dropped by the library. *)
Definition discard (m : M) : M := m ;; ret VUndefined.

(** [l.forEach(f)]: stops at the first callback that does not return. *)
Fixpoint forEach (f : nat -> M) (l : list nat) : M :=
  match l with
  | [] => ret VUndefined
  | x :: l' => f x ;; forEach f l'
  end.

(** ** Set<ReactiveEffect> and Map<key, Dep>

    Both iterate in insertion order, which [trigger] observes, so they are
    lists: a Set without duplicates, a Map as an association list keyed by
    [string | symbol | undefined]. *)

Definition set_has (e : nat) (s : list nat) : bool := bool_decide (e ∈ s).

Definition set_add (e : nat) (s : list nat) : list nat :=
  if set_has e s then s else s ++ [e].

Definition set_delete (e : nat) (s : list nat) : list nat :=
  filter (λ x, x ≠ e) s.

Fixpoint map_get (k : option PropKey) (m : list (option PropKey * nat)) : option nat :=
  match m with
  | [] => None
  | (k', d) :: m' => if decide (k' = k) then Some d else map_get k m'
  end.

Fixpoint map_set (k : option PropKey) (d : nat) (m : list (option PropKey * nat))
  : list (option PropKey * nat) :=
  match m with
  | [] => [(k, d)]
  | (k', d') :: m' =>
      if decide (k' = k) then (k', d) :: m' else (k', d') :: map_set k d m'
  end.

(** ** effect.ts *)

Definition set_deps (ds : list nat) (er : ReactiveEffect) : ReactiveEffect :=
  {| active := active er; raw := raw er; deps := ds; computed := computed er;
     scheduler := scheduler er; onTrack := onTrack er; onTrigger := onTrigger er;
     onStop := onStop er |}.

Definition set_active (b : bool) (er : ReactiveEffect) : ReactiveEffect :=
  {| active := b; raw := raw er; deps := deps er; computed := computed er;
     scheduler := scheduler er; onTrack := onTrack er; onTrigger := onTrigger er;
     onStop := onStop er |}.

Definition update_effect (e : nat) (f : ReactiveEffect -> ReactiveEffect) (st : State) : State :=
  set_effects (alter f e (effects st)) st.

(** [dep.has(effect)] for the Set with identity [dep]. *)
Definition dep_has (dep effect : nat) (st : State) : bool :=
  match sets st !! dep with
  | Some s => set_has effect s
  | None => false
  end.

(** [dep.add(effect); effect.deps.push(dep)], the two statements that
    [track] and [trackChildRun] share. *)
Definition subscribe (dep effect : nat) (st : State) : State :=
  update_effect effect (λ er, set_deps (deps er ++ [dep]) er)
    (set_sets (alter (set_add effect) dep (sets st)) st).

Definition cleanup (effect : nat) (st : State) : State :=
  match effects st !! effect with
  | None => st
  | Some er =>
      match deps er with
      | [] => st
      | ds =>
          update_effect effect (set_deps [])
            (set_sets (foldl (λ s d, alter (set_delete effect) d s) (sets st) ds) st)
      end
  end.

Definition run (ex : Exec) (effect : nat) (fn : list value -> prog) (args : list value) : M :=
  fun st =>
    match effects st !! effect with
    | None => (Thrown VTypeError, st)
    | Some er =>
        if negb (active er) then
          ex (fn args) (set_fnCalls (fnCalls st ++ [effect]) st)
        else if bool_decide (effect ∉ activeReactiveEffectStack st) then
          let st1 := cleanup effect st in
          let st2 := set_stack (activeReactiveEffectStack st1 ++ [effect]) st1 in
          let '(r, st3) := ex (fn args) (set_fnCalls (fnCalls st2 ++ [effect]) st2) in
          (r, set_stack (removelast (activeReactiveEffectStack st3)) st3)
        else (Normal VUndefined, st)
    end.

(** Calling the effect function itself: [effect(...args)], whose body is
    [return run(effect, fn, args)] with [fn] the function stored in [raw]. *)
Definition call_effect (ex : Exec) (effect : nat) (args : list value) : M :=
  fun st =>
    match effects st !! effect with
    | None => (Thrown VTypeError, st)
    | Some er => run ex effect (raw er) args st
    end.

Definition createReactiveEffect (fn : list value -> prog)
    (options : ReactiveEffectOptions prog) (st : State) : nat * State :=
  let effect := length (effects st) in
  (effect,
   set_effects (effects st ++
     [ {| active := true; raw := fn; deps := [];
          computed := opt_computed options; scheduler := opt_scheduler options;
          onTrack := opt_onTrack options; onTrigger := opt_onTrigger options;
          onStop := opt_onStop options |} ]) st).

Definition effect (ex : Exec) (fn : FnArg prog) (options : ReactiveEffectOptions prog) : M :=
  fun st =>
    let fn' := match fn with
               | FnPlain f => Some f
               | FnOfEffect e0 => raw <$> effects st !! e0
               end in
    match fn' with
    | None => (Thrown VTypeError, st)
    | Some f =>
        let '(e, st1) := createReactiveEffect f options st in
        if lazy options then (Normal (VEffect e), st1)
        else (call_effect ex e [] ;; ret (VEffect e)) st1
    end.

Definition stop (ex : Exec) (effect : nat) : M :=
  fun st =>
    match effects st !! effect with
    | None => (Thrown VTypeError, st)
    | Some er =>
        if active er then
          (match onStop er with
           | Some h => discard (ex h)
           | None => ret VUndefined
           end ;;
           modify (update_effect effect (set_active false))) (cleanup effect st)
        else (Normal VUndefined, st)
    end.

Definition pauseTracking : M := modify (set_shouldTrack false).

Definition resumeTracking : M := modify (set_shouldTrack true).

(** [targetMap.get(target)], created when absent. *)
Definition getDepsMap (target : nat) (st : State) : list (option PropKey * nat) * State :=
  match targetMap st !! target with
  | Some depsMap => (depsMap, st)
  | None => ([], set_targetMap (<[target := []]> (targetMap st)) st)
  end.

(** [depsMap.get(key)], a new empty Set when absent. *)
Definition getDep (target : nat) (key : option PropKey) (st : State) : nat * State :=
  let '(depsMap, st1) := getDepsMap target st in
  match map_get key depsMap with
  | Some dep => (dep, st1)
  | None =>
      let dep := length (sets st1) in
      (dep, set_targetMap (<[target := map_set key dep depsMap]> (targetMap st1))
              (set_sets (sets st1 ++ [[]]) st1))
  end.

Definition track (ex : Exec) (target : nat) (type : OperationTypes) (key : option PropKey) : M :=
  fun st =>
    if negb (shouldTrack st) then (Normal VUndefined, st)
    else
      match last (activeReactiveEffectStack st) with
      | None => (Normal VUndefined, st)
      | Some effect =>
          match effects st !! effect with
          | None => (Thrown VTypeError, st)
          | Some er =>
              let key := if decide (type = ITERATE) then Some ITERATE_KEY else key in
              let '(dep, st1) := getDep target key st in
              if negb (dep_has dep effect st1) then
                let st2 := subscribe dep effect st1 in
                match __DEV__ st2, onTrack er with
                | true, Some h =>
                    discard (ex (h {| ev_effect := effect; ev_target := target;
                                      ev_type := type; ev_key := key;
                                      ev_extra := None |})) st2
                | _, _ => (Normal VUndefined, st2)
                end
              else (Normal VUndefined, st1)
          end
      end.

Definition is_computed (st : State) (e : nat) : bool :=
  match effects st !! e with
  | Some er => computed er
  | None => false
  end.

(** The pair of local Sets [(effects, computedRunners)] of [trigger]. *)
Definition addRunners (st : State) (acc : list nat * list nat)
    (effectsToAdd : option (list nat)) : list nat * list nat :=
  match effectsToAdd with
  | None => acc
  | Some s =>
      foldl (λ '(effects, computedRunners) e,
               if is_computed st e then (effects, set_add e computedRunners)
               else (set_add e effects, computedRunners)) acc s
  end.

(** [depsMap.get(key)] as the Set it refers to. *)
Definition dep_get (st : State) (depsMap : list (option PropKey * nat))
    (key : option PropKey) : option (list nat) :=
  match map_get key depsMap with
  | Some d => sets st !! d
  | None => None
  end.

Definition is_array (st : State) (target : nat) : bool :=
  match objects st !! target with
  | Some o => isArray o
  | None => false
  end.

(** The part of [trigger] between the lookup of [depsMap] and the
    invocations: which effects are collected, in which of the two Sets. *)
Definition collectRunners (st : State) (depsMap : list (option PropKey * nat))
    (target : nat) (type : OperationTypes) (key : option PropKey) : list nat * list nat :=
  if decide (type = CLEAR) then
    foldl (λ acc kd, addRunners st acc (sets st !! kd.2)) ([], []) depsMap
  else
    let acc1 := match key with
                | Some k => addRunners st ([], []) (dep_get st depsMap (Some k))
                | None => ([], [])
                end in
    if bool_decide (type = ADD) || bool_decide (type = DELETE) then
      let iterationKey := if is_array st target then KString "length" else ITERATE_KEY in
      addRunners st acc1 (dep_get st depsMap (Some iterationKey))
    else acc1.

Definition mark_dirty (c : nat) (st : State) : State :=
  set_computeds (alter (λ cs, {| dirty := true; cvalue := cvalue cs;
                                  runner := runner cs; setter := setter cs |}) c
                       (computeds st)) st.

(** The fields of an effect other than [active] and [deps] are never
    assigned after its creation, so [scheduler] is read from the record
    fetched on entry. *)
Definition scheduleRun (ex : Exec) (effect target : nat) (type : OperationTypes)
    (key : option PropKey) (extraInfo : option value) : M :=
  fun st =>
    match effects st !! effect with
    | None => (Thrown VTypeError, st)
    | Some er =>
        (match __DEV__ st, onTrigger er with
         | true, Some h =>
             discard (ex (h {| ev_effect := effect; ev_target := target;
                               ev_type := type; ev_key := key;
                               ev_extra := extraInfo |}))
         | _, _ => ret VUndefined
         end ;;
         match scheduler er with
         | Some (SchedUser f) => discard (ex (f effect))
         | Some (SchedDirty c) => modify (mark_dirty c)
         | None => discard (call_effect ex effect [])
         end) st
    end.

Definition trigger (ex : Exec) (target : nat) (type : OperationTypes)
    (key : option PropKey) (extraInfo : option value) : M :=
  fun st =>
    match targetMap st !! target with
    | None => (Normal VUndefined, st)
    | Some depsMap =>
        let '(effects, computedRunners) := collectRunners st depsMap target type key in
        let run := λ effect, scheduleRun ex effect target type key extraInfo in
        (forEach run computedRunners ;; forEach run effects) st
    end.

(** ** computed *)

Module Computed.

(** The loop runs over [childRunner.deps] while pushing onto
    [parentRunner.deps]. When the two effects are the same one, every
    Set pushed during the loop already holds the parent when the index
    reaches it, so the loop over the list as it was on entry ends in the
    same state. *)
Definition trackChildRun (childRunner : nat) (st : State) : State :=
  match last (activeReactiveEffectStack st) with
  | None => st
  | Some parentRunner =>
      match effects st !! childRunner with
      | None => st
      | Some cr =>
          foldl (λ s dep, if negb (dep_has dep parentRunner s)
                          then subscribe dep parentRunner s else s)
                st (deps cr)
      end
  end.

(** The object literal that [computed] returns. *)
Definition plain_object : JsObject :=
  {| _isVue := false; _isVNode := false; typeString := "[object Object]";
     isArray := false; constructorIsCollection := false; proxyOf := None |}.

Definition computed (ex : Exec) (getterOrOptions : ComputedArg prog) : M :=
  fun st =>
    let getter := match getterOrOptions with
                  | GetterOnly g => g
                  | GetSet g _ => g
                  end in
    let setter := match getterOrOptions with
                  | GetterOnly _ => ReadonlySetter
                  | GetSet _ s => UserSetter s
                  end in
    let c := length (objects st) in
    match effect ex getter
            {| lazy := true; opt_computed := true;
               opt_scheduler := Some (SchedDirty c);
               opt_onTrack := None; opt_onTrigger := None; opt_onStop := None |} st with
    | (Normal (VEffect runner), st1) =>
        (Normal (VObj c),
         set_computeds (<[c := {| dirty := true; cvalue := VUndefined;
                                  runner := runner; setter := setter |}]>
                          (computeds st1))
           (set_objects (objects st1 ++ [plain_object]) st1))
    | (Normal _, st1) => (Thrown VTypeError, st1)
    | r => r
    end.

(** [value = v; dirty = false]. *)
Definition store_value (c : nat) (v : value) (st : State) : State :=
  set_computeds (alter (λ cs, {| dirty := false; cvalue := v;
                                  runner := runner cs; setter := setter cs |}) c
                       (computeds st)) st.

(** [get value()] of the computed object [c]. *)
Definition get_value (ex : Exec) (c : nat) : M :=
  fun st =>
    match computeds st !! c with
    | None => (Thrown VTypeError, st)
    | Some cs =>
        ((if dirty cs then
            let! v := call_effect ex (runner cs) [] in modify (store_value c v)
          else ret VUndefined) ;;
         modify (trackChildRun (runner cs)) ;;
         fun st' => (Normal (from_option cvalue VUndefined (computeds st' !! c)), st')) st
    end.

(** [set value(newValue)] of the computed object [c]. *)
Definition set_value (ex : Exec) (c : nat) (newValue : value) : M :=
  fun st =>
    match computeds st !! c with
    | None => (Thrown VTypeError, st)
    | Some cs =>
        match setter cs with
        | ReadonlySetter => (Normal VUndefined, st)
        | UserSetter f => discard (ex (f newValue)) st
        end
    end.

End Computed.

(** ** reactive.ts *)

Inductive WeakMapName := RawToReactive | ReactiveToRaw | RawToReadonly | ReadonlyToRaw.

Definition wm_get (w : WeakMapName) (t : ProxyTables) : gmap nat nat :=
  match w with
  | RawToReactive => rawToReactive t
  | ReactiveToRaw => reactiveToRaw t
  | RawToReadonly => rawToReadonly t
  | ReadonlyToRaw => readonlyToRaw t
  end.

Definition wm_set (w : WeakMapName) (k v : nat) (t : ProxyTables) : ProxyTables :=
  {| rawToReactive := if w is RawToReactive then <[k := v]> (rawToReactive t) else rawToReactive t;
     reactiveToRaw := if w is ReactiveToRaw then <[k := v]> (reactiveToRaw t) else reactiveToRaw t;
     rawToReadonly := if w is RawToReadonly then <[k := v]> (rawToReadonly t) else rawToReadonly t;
     readonlyToRaw := if w is ReadonlyToRaw then <[k := v]> (readonlyToRaw t) else readonlyToRaw t;
     readonlyValues := readonlyValues t;
     nonReactiveValues := nonReactiveValues t |}.

(** [weakMap.has(v)]; no effect function and no primitive is ever a key. *)
Definition wm_has (w : WeakMapName) (v : value) (t : ProxyTables) : bool :=
  match v with
  | VObj r => bool_decide (is_Some (wm_get w t !! r))
  | _ => false
  end.

Definition ws_has (s : gset nat) (v : value) : bool :=
  match v with
  | VObj r => bool_decide (r ∈ s)
  | _ => false
  end.

(** Modelled from the spec: [isObject] of '@vue/shared', which is imported
    by reactive.ts but not part of the sources. The specification speaks
    of tracked objects only; a value is an object when it is a reference
    to a heap object, and an effect function is not
    ([val !== null && typeof val === 'object']). *)
Definition isObject (v : value) : bool :=
  match v with
  | VObj _ => true
  | _ => false
  end.

(** [/^\[object (?:Object|Array|Map|Set|WeakMap|WeakSet)\]$/.test(s)]. *)
Definition observableValueRE_test (s : string) : bool :=
  bool_decide (s ∈ ["[object Object]"; "[object Array]"; "[object Map]";
                    "[object Set]"; "[object WeakMap]"; "[object WeakSet]"]).

Definition canObserve (st : State) (r : nat) : bool :=
  match objects st !! r with
  | None => false
  | Some o =>
      negb (_isVue o) && negb (_isVNode o) && observableValueRE_test (typeString o)
      && negb (bool_decide (r ∈ nonReactiveValues (tables st)))
  end.

(** [new Proxy(target, handlers)]: what the library reads of a proxy is
    read through to its target. *)
Definition proxy_object (o : JsObject) (target : nat) (handlers : Handlers) : JsObject :=
  {| _isVue := _isVue o; _isVNode := _isVNode o; typeString := typeString o;
     isArray := isArray o; constructorIsCollection := constructorIsCollection o;
     proxyOf := Some (target, handlers) |}.

Definition createReactiveObject (target : value) (toProxy toRaw : WeakMapName)
    (baseHandlers collectionHandlers : Handlers) (st : State) : value * State :=
  match target with
  | VObj t =>
      match wm_get toProxy (tables st) !! t with
      | Some observed => (VObj observed, st)
      | None =>
          if wm_has toRaw target (tables st) then (target, st)
          else if negb (canObserve st t) then (target, st)
          else
            match objects st !! t with
            | None => (target, st)
            | Some o =>
                let handlers := if constructorIsCollection o
                                then collectionHandlers else baseHandlers in
                let observed := length (objects st) in
                let st1 := set_objects (objects st ++ [proxy_object o t handlers]) st in
                let st2 := set_tables (wm_set toRaw observed t
                                         (wm_set toProxy t observed (tables st1))) st1 in
                let st3 := if bool_decide (is_Some (targetMap st2 !! t)) then st2
                           else set_targetMap (<[t := []]> (targetMap st2)) st2 in
                (VObj observed, st3)
            end
      end
  | _ =>
      (target,
       if __DEV__ st then set_console (console st ++ [CannotBeMadeReactive target]) st
       else st)
  end.

Definition readonly (target : value) (st : State) : value * State :=
  let target := match target with
                | VObj t => match reactiveToRaw (tables st) !! t with
                            | Some rawTarget => VObj rawTarget
                            | None => target
                            end
                | _ => target
                end in
  createReactiveObject target RawToReadonly ReadonlyToRaw
    readonlyHandlers readonlyCollectionHandlers st.

Definition reactive (target : value) (st : State) : value * State :=
  if wm_has ReadonlyToRaw target (tables st) then (target, st)
  else if ws_has (readonlyValues (tables st)) target then readonly target st
  else createReactiveObject target RawToReactive ReactiveToRaw
         mutableHandlers mutableCollectionHandlers st.

Definition isReactive (v : value) (st : State) : bool :=
  wm_has ReactiveToRaw v (tables st) || wm_has ReadonlyToRaw v (tables st).

Definition isReadonly (v : value) (st : State) : bool :=
  wm_has ReadonlyToRaw v (tables st).

Definition toRaw (observed : value) (st : State) : value :=
  match observed with
  | VObj r =>
      match reactiveToRaw (tables st) !! r with
      | Some t => VObj t
      | None => match readonlyToRaw (tables st) !! r with
                | Some t => VObj t
                | None => observed
                end
      end
  | _ => observed
  end.

(** [weakSet.add(v)] throws on a primitive. Effect functions are never
    tested for membership with a different result (a function is no
    object for [createReactiveObject]), so adding one is not recorded. *)
Definition ws_add (upd : nat -> ProxyTables -> ProxyTables) (v : value) : M :=
  fun st =>
    match v with
    | VObj r => (Normal v, set_tables (upd r (tables st)) st)
    | VEffect _ => (Normal v, st)
    | _ => (Thrown VTypeError, st)
    end.

Definition markReadonly (v : value) : M :=
  ws_add (λ r t, {| rawToReactive := rawToReactive t; reactiveToRaw := reactiveToRaw t;
                    rawToReadonly := rawToReadonly t; readonlyToRaw := readonlyToRaw t;
                    readonlyValues := {[r]} ∪ readonlyValues t;
                    nonReactiveValues := nonReactiveValues t |}) v.

Definition markNonReactive (v : value) : M :=
  ws_add (λ r t, {| rawToReactive := rawToReactive t; reactiveToRaw := reactiveToRaw t;
                    rawToReadonly := rawToReadonly t; readonlyToRaw := readonlyToRaw t;
                    readonlyValues := readonlyValues t;
                    nonReactiveValues := {[r]} ∪ nonReactiveValues t |}) v.

(** ** The interpreter of user code *)

Definition lift (f : State -> value * State) : M :=
  fun st => let '(v, st1) := f st in (Normal v, st1).

Definition do_op (ex : Exec) (op : Op prog) : M :=
  match op with
  | OpTrack target type key => track ex target type key
  | OpTrigger target type key extraInfo => trigger ex target type key extraInfo
  | OpEffect fn options => effect ex fn options
  | OpCall e args => call_effect ex e args
  | OpStop e => stop ex e
  | OpPauseTracking => pauseTracking
  | OpResumeTracking => resumeTracking
  | OpComputed a => Computed.computed ex a
  | OpGetValue c => Computed.get_value ex c
  | OpSetValue c v => Computed.set_value ex c v
  | OpReactive v => lift (reactive v)
  | OpReadonly v => lift (readonly v)
  | OpMarkReadonly v => markReadonly v
  | OpMarkNonReactive v => markNonReactive v
  | OpNewObject o =>
      fun st => (Normal (VObj (length (objects st))), set_objects (objects st ++ [o]) st)
  | OpLoad x => fun st => (Normal (default VUndefined (memory st !! x)), st)
  | OpStore x v => modify (λ st, set_memory (<[x := v]> (memory st)) st)
  end.

Fixpoint exec (fuel : nat) (p : prog) (st : State) {struct fuel} : Outcome * State :=
  match fuel with
  | 0 => (OutOfFuel, st)
  | S n =>
      match p with
      | Ret v => (Normal v, st)
      | Throw v => (Thrown v, st)
      | Vis op k => (let! v := do_op (exec n) op in exec n (k v)) st
      end
  end.

(** ** Predicates used in the statements *)

(** [m] keeps the property [I] of the state, whatever its outcome. *)
Definition preserves (I : State -> Prop) (m : M) : Prop :=
  ∀ st, I st → I (m st).2.

(** [st'] differs from [st] at most in the dependency graph: the effect
    table, the Sets and [targetMap]. *)
Definition same_outside_graph (st st' : State) : Prop :=
  objects st' = objects st ∧ computeds st' = computeds st ∧ tables st' = tables st ∧
  activeReactiveEffectStack st' = activeReactiveEffectStack st ∧
  shouldTrack st' = shouldTrack st ∧ __DEV__ st' = __DEV__ st ∧
  console st' = console st ∧ fnCalls st' = fnCalls st ∧ memory st' = memory st.

(** Effect [e] is a member of the Set with identity [d]. *)
Definition member (st : State) (e d : nat) : Prop :=
  ∃ s, sets st !! d = Some s ∧ e ∈ s.

(** The Set with identity [d] appears in the [deps] list of effect [e]. *)
Definition in_deps (st : State) (e d : nat) : Prop :=
  ∃ er, effects st !! e = Some er ∧ d ∈ deps er.

(** Invariant 2 of the data model. *)
Definition deps_agree (st : State) : Prop :=
  ∀ e d, member st e d ↔ in_deps st e d.

(** The references held by [targetMap] and by the stack are allocated. *)
Definition store_wf (st : State) : Prop :=
  (∀ t m k d, targetMap st !! t = Some m → (k, d) ∈ m → d < length (sets st)) ∧
  (∀ e, e ∈ activeReactiveEffectStack st → e < length (effects st)).

Definition consistent (st : State) : Prop := deps_agree st ∧ store_wf st.

(** The closure variables of the computed object [c] satisfy [Q]. *)
Definition computed_satisfies (c : nat) (Q : ComputedState -> Prop) (st : State) : Prop :=
  ∃ cs, computeds st !! c = Some cs ∧ Q cs.

(** The computed object [c] exists and its [dirty] is true. *)
Definition is_dirty (c : nat) (st : State) : Prop :=
  computed_satisfies c (λ cs, dirty cs = true) st.

(** How often the computation of effect [e] has been called. *)
Definition calls (e : nat) (st : State) : nat :=
  length (filter (λ x, x = e) (fnCalls st)).

(** Effect [e] is not running and is a member of no Set. *)
Definition quiet (e : nat) (st : State) : Prop :=
  (e ∉ activeReactiveEffectStack st) ∧ (∀ d, ¬ member st e d).

Definition inactive (e : nat) (st : State) : Prop :=
  (active <$> effects st !! e) = Some false.

(** Effect [e] is stopped and out of the graph. *)
Definition detached (e : nat) (st : State) : Prop :=
  inactive e st ∧ quiet e st.

(** What holds of effect [e] from the moment [stop] has cleaned it up:
    while the on-stop callback runs ([Some n], with [n] the number of
    calls of its computation so far), it stays out of the graph unless
    its computation is called again; once it is inactive ([None]), it
    stays out of the graph. *)
Definition stop_invariant (e : nat) (a : option nat) (st : State) : Prop :=
  match a with
  | Some n => n < calls e st ∨ (calls e st = n ∧ quiet e st ∧ e < length (effects st))
  | None => detached e st
  end.

(** [st'] has the stack and the call log of [st], no effect has
    disappeared and effect [e] has joined no Set. *)
Definition no_new_member (e : nat) (st st' : State) : Prop :=
  activeReactiveEffectStack st' = activeReactiveEffectStack st ∧
  fnCalls st' = fnCalls st ∧
  length (effects st) ≤ length (effects st') ∧
  ∀ d, member st' e d → member st e d.

(** Effect [e] is the runner of a derived value as [computed] builds it:
    its scheduler only sets the [dirty] of a computed object, and no
    on-trigger callback runs before it. *)
Definition derived_runner (st : State) (e : nat) : Prop :=
  ∃ er c, effects st !! e = Some er ∧ scheduler er = Some (SchedDirty c) ∧
          (__DEV__ st = false ∨ onTrigger er = None).

(** [st1] is [st] with some [dirty] flags set: no computation has run, the
    graph is the same, and no cached value has changed. *)
Definition invalidated (st st1 : State) : Prop :=
  effects st1 = effects st ∧ sets st1 = sets st ∧ targetMap st1 = targetMap st ∧
  activeReactiveEffectStack st1 = activeReactiveEffectStack st ∧
  fnCalls st1 = fnCalls st ∧ __DEV__ st1 = __DEV__ st ∧ memory st1 = memory st ∧
  ∀ c cs, computeds st !! c = Some cs →
    ∃ cs', computeds st1 !! c = Some cs' ∧ cvalue cs' = cvalue cs ∧
           runner cs' = runner cs ∧ (dirty cs = true → dirty cs' = true).

(** All resolved subscribers of a [trigger], the two local Sets together. *)
Definition resolved (rs : list nat * list nat) (e : nat) : Prop :=
  e ∈ rs.1 ∨ e ∈ rs.2.

(** The subscribers affected by a change, in the words of the
    specification: every registered Set for "clear"; otherwise the Set of
    the exact key when a key was supplied and, for "add" and "delete"
    only, the Set of 'length' on an array and of the iteration key on any
    other target. *)
Definition affected (st : State) (depsMap : list (option PropKey * nat))
    (target : nat) (type : OperationTypes) (key : option PropKey) (e : nat) : Prop :=
  if decide (type = CLEAR) then
    ∃ k d s, (k, d) ∈ depsMap ∧ sets st !! d = Some s ∧ e ∈ s
  else
    (∃ k s, key = Some k ∧ dep_get st depsMap (Some k) = Some s ∧ e ∈ s) ∨
    ((type = ADD ∨ type = DELETE) ∧
     ∃ s, dep_get st depsMap
            (Some (if is_array st target then KString "length" else ITERATE_KEY)) = Some s
          ∧ e ∈ s).

(** ** Small programs used as concrete inputs *)

Definition plain_options : ReactiveEffectOptions prog :=
  {| lazy := false; opt_computed := false; opt_scheduler := None;
     opt_onTrack := None; opt_onTrigger := None; opt_onStop := None |}.

Definition lazy_options : ReactiveEffectOptions prog :=
  {| lazy := true; opt_computed := false; opt_scheduler := None;
     opt_onTrack := None; opt_onTrigger := None; opt_onStop := None |}.

(** [() => 42] *)
Definition answer_fn : list value -> prog := λ _, Ret (VNum 42).

(** The state in which the computation of effect 0 starts on its first
    run: the effect is the only entry of the stack. *)
Definition running_state : State :=
  set_stack [0] (createReactiveEffect answer_fn lazy_options (initial_state true)).2.

(** [() => { throw 7 }] *)
Definition throwing_fn : list value -> prog := λ _, Throw (VNum 7).

(** One lazily created effect whose computation throws; nothing runs. *)
Definition idle_state : State :=
  (createReactiveEffect throwing_fn lazy_options (initial_state true)).2.

(** What every reachable state satisfies about the proxy tables: their
    keys are allocated objects, and no reactive proxy is itself the raw
    object of another reactive proxy. *)
Definition tables_wf (st : State) : Prop :=
  (∀ w k v, wm_get w (tables st) !! k = Some v → k < length (objects st)) ∧
  (∀ p, is_Some (reactiveToRaw (tables st) !! p) → rawToReactive (tables st) !! p = None).

(** One plain object (identity 0), its reactive proxy (identity 1), and
    the proxy passed to [markReadonly]. *)
Definition proxy_state : State :=
  (reactive (VObj 0) (set_objects [Computed.plain_object] (initial_state true))).2.

Definition marked_proxy_state : State := (markReadonly (VObj 1) proxy_state).2.

(** [() => { track(0, GET, 'count') }] *)
Definition reading_fn : list value -> prog :=
  λ _, Vis (OpTrack 0 GET (Some (KString "count"))) (λ _, Ret VUndefined).

(** The state after [computed(() => 42)] in the initial state: the
    computed object is 0, its runner is effect 0. *)
Definition computed_state : State :=
  (Computed.computed (exec 0) (GetterOnly (FnPlain answer_fn)) (initial_state true)).2.

(** [() => { track(0, GET, 'count'); stop(effect0); track(0, GET, 'count') }]:
    the computation of effect 0 stops the effect in the middle of its run. *)
Definition stopping_fn : list value -> prog :=
  λ _, Vis (OpTrack 0 GET (Some (KString "count"))) (λ _,
       Vis (OpStop 0) (λ _,
       Vis (OpTrack 0 GET (Some (KString "count"))) (λ _, Ret VUndefined))).

(** The state after [effect(stopping_fn)] in the initial state. *)
Definition stopped_inside_state : State :=
  (effect (exec 9) (FnPlain stopping_fn) plain_options (initial_state false)).2.

(** The state after [effect(reading_fn)] in the initial state: effect 0
    is subscribed to the key 'count' of object 0. *)
Definition subscribed_state : State :=
  (effect (exec 9) (FnPlain reading_fn) plain_options (initial_state false)).2.

(** [() => { track(state, GET, 'count'); return 2 * count }], with the
    number [count] held in variable 0 of the user code and [state] the
    object 0. *)
Definition double_fn : list value -> prog :=
  λ _, Vis (OpTrack 0 GET (Some (KString "count"))) (λ _,
       Vis (OpLoad 0) (λ v,
         match v with
         | VNum n => Ret (VNum (2 * n))
         | _ => Ret VUndefined
         end)).

(** [() => { seen = d.value; return seen }], with [seen] the variable 1
    of the user code and [d] the computed object [c]. *)
Definition watch_fn (c : nat) : list value -> prog :=
  λ _, Vis (OpGetValue c) (λ v, Vis (OpStore 1 v) (λ _, Ret v)).

(** [state = {count: 1}; d = computed(double_fn); effect(watch_fn(d));
    count = 5]: the effect has run once and seen 2; the write to
    [count] has not been notified yet. *)
Definition derived_setup : prog :=
  Vis (OpNewObject Computed.plain_object) (λ _,
  Vis (OpStore 0 (VNum 1)) (λ _,
  Vis (OpComputed (GetterOnly (FnPlain double_fn))) (λ d,
    match d with
    | VObj c =>
        Vis (OpEffect (FnPlain (watch_fn c)) plain_options) (λ _,
        Vis (OpStore 0 (VNum 5)) (λ _, Ret VUndefined))
    | _ => Throw VTypeError
    end))).

Definition derived_state : State := (exec 30 derived_setup (initial_state true)).2.

(** [() => { pauseTracking(); track(0, GET, 'count'); resumeTracking() }] *)
Definition paused_reading_fn : list value -> prog :=
  λ _, Vis OpPauseTracking (λ _,
       Vis (OpTrack 0 GET (Some (KString "count"))) (λ _,
       Vis OpResumeTracking (λ _, Ret VUndefined))).

(** The state after [effect(paused_reading_fn)] in the initial state. *)
Definition paused_read_state : State :=
  (effect (exec 9) (FnPlain paused_reading_fn) plain_options (initial_state true)).2.

(** ** Reads of a derived value with other operations in between *)

(** The computed object [c] is allocated, its [dirty] is false and its
    cached value is [v]. *)
Definition cached (c : nat) (v : value) (st : State) : Prop :=
  c < length (objects st) ∧
  computed_satisfies c (λ cs, dirty cs = false ∧ cvalue cs = v) st.

(** Scheduling effect [e] does not set the [dirty] of the computed object
    [c]: [e] exists and its scheduler is not the closure
    [() => { dirty = true }] that [computed] made for [c]. *)
Definition leaves_clean (c : nat) (st : State) (e : nat) : bool :=
  match effects st !! e with
  | Some er =>
      match scheduler er with
      | Some (SchedDirty c') => bool_decide (c' ≠ c)
      | _ => true
      end
  | None => false
  end.

(** The operation is a [trigger] of a dependency of the derived value
    [c]: among the subscribers it resolves there is one whose scheduler
    sets the [dirty] of [c] (the runner of [c], or an effect that was
    given [runner.scheduler]). A subscriber that does not exist, which no
    state has in which the deps lists agree with the Sets, counts as
    one. *)
Definition invalidates (c : nat) (op : Op prog) (st : State) : bool :=
  match op with
  | OpTrigger target type key _ =>
      match targetMap st !! target with
      | Some depsMap =>
          let rs := collectRunners st depsMap target type key in
          negb (forallb (leaves_clean c st) (rs.2 ++ rs.1))
      | None => false
      end
  | _ => false
  end.

(** [exec], stopped (as when out of fuel) in front of the first
    operation, at any depth of callbacks, that is a trigger of a
    dependency of [c]. *)
Fixpoint exec_undisturbed (c : nat) (fuel : nat) (p : prog) (st : State) {struct fuel}
  : Outcome * State :=
  match fuel with
  | 0 => (OutOfFuel, st)
  | S n =>
      match p with
      | Ret v => (Normal v, st)
      | Throw v => (Thrown v, st)
      | Vis op k =>
          if invalidates c op st then (OutOfFuel, st)
          else (let! v := do_op (exec_undisturbed c n) op in exec_undisturbed c n (k v)) st
      end
  end.

(** Running [p] from [st] meets no trigger of a dependency of [c]: the
    run is the same with and without the stop. *)
Definition undisturbed (c : nat) (fuel : nat) (p : prog) (st : State) : Prop :=
  exec_undisturbed c fuel p st = exec fuel p st.

(** [cached], and scheduling any effect of the list [l] leaves it so. *)
Definition cached_beside (c : nat) (v : value) (l : list nat) (st : State) : Prop :=
  cached c v st ∧ ∀ e, e ∈ l → leaves_clean c st e = true.

(** [st'] has the computed objects of [st], no fewer objects, and every
    effect of [st] with the scheduler it had. *)
Definition same_computeds (st st' : State) : Prop :=
  computeds st' = computeds st ∧ length (objects st) ≤ length (objects st') ∧
  ∀ e er, effects st !! e = Some er →
          ∃ er', effects st' !! e = Some er' ∧ scheduler er' = scheduler er.

(** [() => { track(state, GET, 'other'); return 7 }] *)
Definition other_fn : list value -> prog :=
  λ _, Vis (OpTrack 0 GET (Some (KString "other"))) (λ _, Ret (VNum 7)).

(** [state = {count: 1, other: 0}; d1 = computed(double_fn);
    d2 = computed(other_fn); effect(other_fn); d2.value]: [state] is the
    object 0, [d1] the object 1 with runner 0, [d2] the object 2 with
    runner 1; the runner of [d2] and the effect 2 are subscribed to
    'other'; [d1] has not been read. *)
Definition two_derived_setup : prog :=
  Vis (OpNewObject Computed.plain_object) (λ _,
  Vis (OpStore 0 (VNum 1)) (λ _,
  Vis (OpComputed (GetterOnly (FnPlain double_fn))) (λ _,
  Vis (OpComputed (GetterOnly (FnPlain other_fn))) (λ _,
  Vis (OpEffect (FnPlain other_fn) plain_options) (λ _,
  Vis (OpGetValue 2) (λ _, Ret VUndefined)))))).

Definition two_derived_state : State := (exec 30 two_derived_setup (initial_state true)).2.

(** [state.other = 1; d2.value]: a write to a key the derived value [d1]
    does not depend on, and a read of the other derived value. *)
Definition other_write : prog :=
  Vis (OpTrigger 0 SET (Some (KString "other")) None) (λ _,
  Vis (OpGetValue 2) (λ _, Ret VUndefined)).

(** [state.count = 5]: a write to the key the derived value [d1] depends
    on. *)
Definition count_write : prog :=
  Vis (OpStore 0 (VNum 5)) (λ _,
  Vis (OpTrigger 0 SET (Some (KString "count")) None) (λ _, Ret VUndefined)).

(** One plain object (identity 0), its reactive proxy (identity 1) passed
    to [markReadonly], and the object passed to [markNonReactive]. *)
Definition marked_unobservable_state : State :=
  (markNonReactive (VObj 0) marked_proxy_state).2.

(** ** Further predicates and inputs *)

(** What every reachable state satisfies about the four WeakMaps: their
    keys and values are allocated objects, each raw-to-proxy map is the
    inverse of its proxy-to-raw map, and a proxy is a key of one
    proxy-to-raw map only and of no raw-to-proxy map. *)
Definition proxies_wf (st : State) : Prop :=
  (∀ w k v, wm_get w (tables st) !! k = Some v →
            k < length (objects st) ∧ v < length (objects st)) ∧
  (∀ r p, rawToReactive (tables st) !! r = Some p ↔ reactiveToRaw (tables st) !! p = Some r) ∧
  (∀ r p, rawToReadonly (tables st) !! r = Some p ↔ readonlyToRaw (tables st) !! p = Some r) ∧
  (∀ p, is_Some (reactiveToRaw (tables st) !! p) →
        rawToReactive (tables st) !! p = None ∧ rawToReadonly (tables st) !! p = None ∧
        readonlyToRaw (tables st) !! p = None) ∧
  (∀ p, is_Some (readonlyToRaw (tables st) !! p) →
        rawToReactive (tables st) !! p = None ∧ rawToReadonly (tables st) !! p = None).

(** One plain object, identity 0, and nothing else. *)
Definition one_object_state : State :=
  set_objects [Computed.plain_object] (initial_state true).

(** [console.warn] of [createReactiveObject], in development builds only. *)
Definition warned (v : value) (st : State) : State :=
  if __DEV__ st then set_console (console st ++ [CannotBeMadeReactive v]) st else st.

(** A Vue component instance: an object whose [_isVue] is true. *)
Definition vue_instance : JsObject :=
  {| _isVue := true; _isVNode := false; typeString := "[object Object]";
     isArray := false; constructorIsCollection := false; proxyOf := None |}.

Definition vue_instance_state : State := set_objects [vue_instance] (initial_state true).

(** The key under which [track] files a read: the iteration key for an
    ITERATE read, the key given otherwise. *)
Definition tracked_key (type : OperationTypes) (key : option PropKey) : option PropKey :=
  if decide (type = ITERATE) then Some ITERATE_KEY else key.

(** The state in which the computation of the lazily created effect 0
    (a computation that reads 'count' of object 0) is running in a
    production build: the effect is on the stack and has read nothing. *)
Definition reading_state : State :=
  set_stack [0] (createReactiveEffect reading_fn lazy_options (initial_state false)).2.

(** Two lazily created effects in a production build, effect 1 running
    inside effect 0. *)
Definition nested_state : State :=
  set_stack [0; 1]
    (createReactiveEffect reading_fn lazy_options
       (createReactiveEffect reading_fn lazy_options (initial_state false)).2).2.

(** [() => { track(0, GET, 'count'); track(0, ITERATE) }]: reads a key
    and iterates the same object. *)
Definition iterating_fn : list value -> prog :=
  λ _, Vis (OpTrack 0 GET (Some (KString "count"))) (λ _,
       Vis (OpTrack 0 ITERATE None) (λ _, Ret VUndefined)).

(** The state after [effect(iterating_fn)] in the initial state. *)
Definition iterating_state : State :=
  (effect (exec 9) (FnPlain iterating_fn) plain_options (initial_state false)).2.

(** The function an effect is built around: [fn] itself, or [fn.raw]
    when [fn] is an effect. *)
Definition fn_of (fn : FnArg prog) (st : State) : option (list value -> prog) :=
  match fn with
  | FnPlain f => Some f
  | FnOfEffect e0 => raw <$> effects st !! e0
  end.

(** The state in which effect 1 (lazily created, running) is about to
    read the computed object of [subscribed_runner_state]: effect 0 is
    subscribed to 'count' of object 0, effect 1 is on the stack. *)
Definition forwarding_state : State :=
  set_stack [1] (createReactiveEffect answer_fn lazy_options subscribed_state).2.

(** Object 0 is a plain object that effect 0 has tracked ('count') before
    any proxy of it was made. *)
Definition tracked_raw_state : State :=
  set_objects [Computed.plain_object] subscribed_state.

(** * Properties *)

(** ** Sequencing *)

Lemma forEach_app (f : nat -> M) (l1 l2 : list nat) (st : State) :
  forEach f (l1 ++ l2) st = (forEach f l1 ;; forEach f l2) st.
Proof.
  revert st. induction l1 as [|x l1 IH]; intros st; simpl.
  - reflexivity.
  - unfold bind in *. destruct (f x st) as [[v| |] st1]; try reflexivity.
    apply IH.
Qed.

(** ** run *)

(** C1, as the code has it: when an active effect is already on the
    Tracking Context stack (anywhere on it), [run] does not clean up, does
    not call the computation and returns undefined, leaving the whole
    state as it was. *)
Theorem run_on_stack_skips_computation (ex : Exec) (effect : nat) (er : ReactiveEffect)
    (fn : list value -> prog) (args : list value) (st : State) :
  effects st !! effect = Some er →
  active er = true →
  effect ∈ activeReactiveEffectStack st →
  run ex effect fn args st = (Normal VUndefined, st).
Proof.
  intros Her Hact Hin. unfold run. rewrite Her, Hact. simpl.
  rewrite bool_decide_false; [reflexivity|]. intros Hnot. exact (Hnot Hin).
Qed.

Lemma run_on_stack_skips_computation_witness :
  run (exec 3) 0 answer_fn [] running_state = (Normal VUndefined, running_state).
Proof.
  eapply run_on_stack_skips_computation.
  - reflexivity.
  - reflexivity.
  - vm_compute. apply list_elem_of_here.
Defined.

(** C1, as the claim states it, fails: the computation of effect 0 returns
    42, and [run] on the effect while it is on the stack returns undefined. *)
Lemma run_on_stack_counterexample :
  ¬ (∀ (fuel : nat) (effect : nat) (er : ReactiveEffect) (args : list value) (st : State),
       effects st !! effect = Some er →
       active er = true →
       effect ∈ activeReactiveEffectStack st →
       (run (exec fuel) effect (raw er) args st).1 = (exec fuel (raw er args) st).1).
Proof.
  intros H.
  specialize (H 3 0 _ [] running_state eq_refl eq_refl).
  assert (Hin : 0 ∈ activeReactiveEffectStack running_state)
    by (vm_compute; apply list_elem_of_here).
  specialize (H Hin). vm_compute in H. discriminate H.
Qed.

(** ** The subscribers resolved by trigger *)

Lemma elem_of_set_add (x e : nat) (s : list nat) :
  x ∈ set_add e s ↔ x = e ∨ x ∈ s.
Proof.
  unfold set_add, set_has. case_bool_decide as He.
  - split; [auto|]. intros [->|]; assumption.
  - rewrite elem_of_app, list_elem_of_singleton. tauto.
Qed.

Lemma addRunners_resolved (st : State) (s : list nat) (acc : list nat * list nat) (e : nat) :
  resolved (addRunners st acc (Some s)) e ↔ resolved acc e ∨ e ∈ s.
Proof.
  simpl. revert acc. induction s as [|x s IH]; intros acc; simpl.
  - rewrite elem_of_nil. tauto.
  - rewrite IH, elem_of_cons. destruct acc as [effs comp]. unfold resolved.
    destruct (is_computed st x); simpl; rewrite elem_of_set_add; tauto.
Qed.

Lemma addRunners_resolved_opt (st : State) (o : option (list nat))
    (acc : list nat * list nat) (e : nat) :
  resolved (addRunners st acc o) e ↔ resolved acc e ∨ ∃ s, o = Some s ∧ e ∈ s.
Proof.
  destruct o as [s|].
  - rewrite addRunners_resolved. split.
    + intros [?|?]; [left; assumption|right; eauto].
    + intros [?|(s' & [= <-] & ?)]; [left|right]; assumption.
  - simpl. split; [auto|]. intros [?|(s & [=] & _)]. assumption.
Qed.

Lemma resolved_nil (e : nat) : ¬ resolved ([], []) e.
Proof. intros [H|H]; simpl in H; apply elem_of_nil in H; exact H. Qed.

Lemma collect_clear_resolved (st : State) (depsMap : list (option PropKey * nat))
    (acc : list nat * list nat) (e : nat) :
  resolved (foldl (λ a kd, addRunners st a (sets st !! kd.2)) acc depsMap) e ↔
  resolved acc e ∨ ∃ k d s, (k, d) ∈ depsMap ∧ sets st !! d = Some s ∧ e ∈ s.
Proof.
  revert acc. induction depsMap as [|[k d] m IH]; intros acc; simpl.
  - split; [auto|]. intros [?|(k & d & s & Hin & _)]; [assumption|].
    apply elem_of_nil in Hin. destruct Hin.
  - rewrite IH, addRunners_resolved_opt. split.
    + intros [[?|(s & Hs & He)]|(k' & d' & s & Hin & Hs & He)].
      * left. assumption.
      * right. exists k, d, s. split; [apply list_elem_of_here|auto].
      * right. exists k', d', s. split; [apply list_elem_of_further, Hin|auto].
    + intros [?|(k' & d' & s & Hin & Hs & He)]; [left; left; assumption|].
      apply elem_of_cons in Hin as [[= -> ->]|Hin].
      * left. right. eauto.
      * right. eauto 6.
Qed.

Lemma trigger_unfold (ex : Exec) (target : nat) (type : OperationTypes)
    (key : option PropKey) (extraInfo : option value) (st : State)
    (depsMap : list (option PropKey * nat)) :
  targetMap st !! target = Some depsMap →
  trigger ex target type key extraInfo st =
  forEach (λ e, scheduleRun ex e target type key extraInfo)
    ((collectRunners st depsMap target type key).2 ++
     (collectRunners st depsMap target type key).1) st.
Proof.
  intros Hm. unfold trigger. rewrite Hm.
  destruct (collectRunners st depsMap target type key) as [effs comp]. simpl.
  symmetry. apply forEach_app.
Qed.

Lemma collectRunners_affected (st : State) (depsMap : list (option PropKey * nat))
    (target : nat) (type : OperationTypes) (key : option PropKey) (e : nat) :
  resolved (collectRunners st depsMap target type key) e ↔
  affected st depsMap target type key e.
Proof.
  unfold collectRunners, affected.
  destruct (decide (type = CLEAR)) as [->|Hclear].
  - rewrite collect_clear_resolved. split; [|auto].
    intros [H|H]; [destruct (resolved_nil _ H)|exact H].
  - set (acc1 := match key with
                 | Some k => addRunners st ([], []) (dep_get st depsMap (Some k))
                 | None => ([], [])
                 end).
    assert (Hacc1 : resolved acc1 e ↔
              ∃ k s, key = Some k ∧ dep_get st depsMap (Some k) = Some s ∧ e ∈ s).
    { subst acc1. destruct key as [k|].
      - rewrite addRunners_resolved_opt. split.
        + intros [H|(s & Hs & He)]; [destruct (resolved_nil _ H)|eauto].
        + intros (k' & s & [= <-] & Hs & He). right. eauto.
      - split; [intros H; destruct (resolved_nil _ H)|].
        intros (k & s & [=] & _). }
    destruct (bool_decide (type = ADD) || bool_decide (type = DELETE)) eqn:Hty.
    + rewrite addRunners_resolved_opt, Hacc1.
      apply orb_true_iff in Hty.
      rewrite !bool_decide_eq_true in Hty. tauto.
    + apply orb_false_iff in Hty as [H1 H2].
      apply bool_decide_eq_false in H1, H2. rewrite Hacc1. tauto.
Qed.

(** C3: [trigger] on a target without a key-to-Set map does nothing; with
    one, the effects it collects are exactly those the specification
    names (all registered Sets for "clear"; otherwise the Set of the exact
    key if one was given, plus for "add" and "delete" the Set of 'length'
    on an array and of the iteration key elsewhere), and these are the
    effects it schedules. *)
Theorem trigger_resolves_affected (ex : Exec) (target : nat) (type : OperationTypes)
    (key : option PropKey) (extraInfo : option value) (st : State) :
  match targetMap st !! target with
  | None => trigger ex target type key extraInfo st = (Normal VUndefined, st)
  | Some depsMap =>
      let rs := collectRunners st depsMap target type key in
      (∀ e, resolved rs e ↔ affected st depsMap target type key e) ∧
      trigger ex target type key extraInfo st =
      forEach (λ e, scheduleRun ex e target type key extraInfo) (rs.2 ++ rs.1) st
  end.
Proof.
  destruct (targetMap st !! target) as [depsMap|] eqn:Hm.
  - split; [|apply trigger_unfold, Hm]. intros e. apply collectRunners_affected.
  - unfold trigger. rewrite Hm. reflexivity.
Qed.

(** ** State properties kept by every execution

    A property kept by every library operation, provided the callbacks it
    runs keep it, is kept by the interpreter at every fuel. The property
    may depend on a parameter [a] (the expected stack, say). *)

Section Preservation.
Context {A : Type} (I : A → State → Prop).

Lemma preserves_ret (a : A) (v : value) : preserves (I a) (ret v).
Proof. intros st H. exact H. Qed.

Lemma preserves_modify (a : A) (f : State → State) :
  (∀ st, I a st → I a (f st)) → preserves (I a) (modify f).
Proof. intros Hf st H. apply Hf, H. Qed.

Lemma preserves_bind (a : A) (m : M) (k : value → M) :
  preserves (I a) m → (∀ v, preserves (I a) (k v)) → preserves (I a) (bind m k).
Proof.
  intros Hm Hk st H. unfold bind. specialize (Hm st H).
  destruct (m st) as [[v| |] st1]; simpl in *; try exact Hm.
  apply Hk, Hm.
Qed.

Lemma preserves_discard (a : A) (m : M) :
  preserves (I a) m → preserves (I a) (discard m).
Proof.
  intros Hm. apply preserves_bind; [exact Hm|]. intros _. apply preserves_ret.
Qed.

Lemma preserves_forEach (a : A) (f : nat → M) (l : list nat) :
  (∀ x, preserves (I a) (f x)) → preserves (I a) (forEach f l).
Proof.
  intros Hf. induction l as [|x l IH]; simpl.
  - apply preserves_ret.
  - apply preserves_bind; [apply Hf|]. intros _. exact IH.
Qed.

Lemma preserves_lift (a : A) (f : State → value * State) :
  (∀ st, I a st → I a (f st).2) → preserves (I a) (lift f).
Proof.
  intros Hf st H. unfold lift. specialize (Hf st H).
  destruct (f st) as [v st1]. exact Hf.
Qed.

Lemma exec_preserves :
  (∀ ex : Exec, (∀ a p, preserves (I a) (ex p)) →
                ∀ a op, preserves (I a) (do_op ex op)) →
  ∀ fuel a p, preserves (I a) (exec fuel p).
Proof.
  intros Hop fuel. induction fuel as [|n IH]; intros a p st H; simpl.
  - exact H.
  - destruct p as [v|v|op k]; simpl; try exact H.
    apply preserves_bind; [apply Hop, IH| |exact H].
    intros v. apply IH.
Qed.

End Preservation.

(** The control flow of every operation, once and for all: a property
    kept by the elementary state updates below is kept by every
    operation. Entering and leaving a run may change the parameter (the
    stack grows by one entry in between). *)

Section Operations.
Context {A : Type} (I : A → State → Prop).
Context (readable : nat → Prop).
Context (ex : Exec).
Hypothesis Hex : ∀ a p, preserves (I a) (ex p).

Hypothesis H_call_inactive : ∀ a e er st,
  I a st → effects st !! e = Some er → active er = false →
  I a (set_fnCalls (fnCalls st ++ [e]) st).
Hypothesis H_cleanup : ∀ a e st, I a st → I a (cleanup e st).
Hypothesis H_enter : ∀ a e er st,
  I a st → effects st !! e = Some er → active er = true →
  e ∉ activeReactiveEffectStack st →
  ∃ a', I a' (set_fnCalls (fnCalls (cleanup e st) ++ [e])
                (set_stack (activeReactiveEffectStack (cleanup e st) ++ [e]) (cleanup e st))) ∧
        ∀ st3, I a' st3 → I a (set_stack (removelast (activeReactiveEffectStack st3)) st3).
Hypothesis H_track : ∀ a target key effect er st,
  I a st → last (activeReactiveEffectStack st) = Some effect →
  effects st !! effect = Some er →
  I a (getDep target key st).2 ∧
  (dep_has (getDep target key st).1 effect (getDep target key st).2 = false →
   I a (subscribe (getDep target key st).1 effect (getDep target key st).2)).
Hypothesis H_deactivate : ∀ a e st, I a st → I a (update_effect e (set_active false) st).
Hypothesis H_create : ∀ a fn options st, I a st → I a (createReactiveEffect fn options st).2.
Hypothesis H_mark_dirty : ∀ a c st, I a st → I a (mark_dirty c st).
Hypothesis H_store_value : ∀ a c v st,
  readable c → I a st → I a (Computed.store_value c v st).
Hypothesis H_trackChildRun : ∀ a child st, I a st → I a (Computed.trackChildRun child st).
Hypothesis H_computed_alloc : ∀ a c r s st,
  I a st →
  I a (set_computeds (<[c := {| dirty := true; cvalue := VUndefined;
                                runner := r; setter := s |}]> (computeds st))
         (set_objects (objects st ++ [Computed.plain_object]) st)).
Hypothesis H_reactive : ∀ a v st, I a st → I a (reactive v st).2.
Hypothesis H_readonly : ∀ a v st, I a st → I a (readonly v st).2.
Hypothesis H_markReadonly : ∀ a v, preserves (I a) (markReadonly v).
Hypothesis H_markNonReactive : ∀ a v, preserves (I a) (markNonReactive v).
Hypothesis H_newObject : ∀ a o st, I a st → I a (set_objects (objects st ++ [o]) st).
Hypothesis H_memory : ∀ a m st, I a st → I a (set_memory m st).
Hypothesis H_shouldTrack : ∀ a b st, I a st → I a (set_shouldTrack b st).

Lemma run_preserves (a : A) (e : nat) (fn : list value → prog) (args : list value) :
  preserves (I a) (run ex e fn args).
Proof.
  intros st H. unfold run.
  destruct (effects st !! e) as [er|] eqn:Her; [|exact H].
  destruct (active er) eqn:Hact; simpl.
  - case_bool_decide as Hin; [|exact H].
    destruct (H_enter a e er st H Her Hact Hin) as (a' & Hpush & Hpop).
    pose proof (Hex a' (fn args) _ Hpush) as Hrun.
    destruct (ex (fn args) _) as [r st3]. simpl in *. apply Hpop, Hrun.
  - apply Hex. eapply H_call_inactive; eassumption.
Qed.

Lemma call_effect_preserves (a : A) (e : nat) (args : list value) :
  preserves (I a) (call_effect ex e args).
Proof.
  intros st H. unfold call_effect.
  destruct (effects st !! e) as [er|]; [|exact H].
  apply run_preserves, H.
Qed.

Lemma track_preserves (a : A) (target : nat) (type : OperationTypes) (key : option PropKey) :
  preserves (I a) (track ex target type key).
Proof.
  intros st H. unfold track.
  destruct (shouldTrack st); simpl; [|exact H].
  destruct (last (activeReactiveEffectStack st)) as [e|] eqn:Hlast; [|exact H].
  destruct (effects st !! e) as [er|] eqn:Her; [|exact H].
  set (key' := if decide (type = ITERATE) then Some ITERATE_KEY else key).
  destruct (H_track a target key' e er st H Hlast Her) as [H1 H2].
  destruct (getDep target key' st) as [dep st1]. simpl in *.
  destruct (dep_has dep e st1); simpl; [exact H1|].
  specialize (H2 eq_refl).
  destruct (__DEV__ _); [|exact H2].
  destruct (onTrack er) as [h|]; [|exact H2].
  apply preserves_discard; [apply Hex|exact H2].
Qed.

Lemma scheduleRun_preserves (a : A) (e target : nat) (type : OperationTypes)
    (key : option PropKey) (extraInfo : option value) :
  preserves (I a) (scheduleRun ex e target type key extraInfo).
Proof.
  intros st H. unfold scheduleRun.
  destruct (effects st !! e) as [er|]; [|exact H].
  apply preserves_bind; [| |exact H].
  - destruct (__DEV__ st); [|apply preserves_ret].
    destruct (onTrigger er); [|apply preserves_ret].
    apply preserves_discard, Hex.
  - intros _. destruct (scheduler er) as [[f|c]|].
    + apply preserves_discard, Hex.
    + apply preserves_modify, H_mark_dirty.
    + apply preserves_discard, call_effect_preserves.
Qed.

Lemma trigger_preserves (a : A) (target : nat) (type : OperationTypes)
    (key : option PropKey) (extraInfo : option value) :
  preserves (I a) (trigger ex target type key extraInfo).
Proof.
  intros st H. unfold trigger.
  destruct (targetMap st !! target) as [depsMap|]; [|exact H].
  destruct (collectRunners st depsMap target type key) as [effs comp].
  apply preserves_bind; [| |exact H].
  - apply preserves_forEach. intros e. apply scheduleRun_preserves.
  - intros _. apply preserves_forEach. intros e. apply scheduleRun_preserves.
Qed.

Lemma effect_preserves (a : A) (fn : FnArg prog) (options : ReactiveEffectOptions prog) :
  preserves (I a) (effect ex fn options).
Proof.
  intros st H. unfold effect.
  destruct (match fn with FnPlain f => Some f | FnOfEffect e0 => raw <$> effects st !! e0 end)
    as [f|]; [|exact H].
  pose proof (H_create a f options st H) as Hc.
  destruct (createReactiveEffect f options st) as [e st1]. simpl in Hc.
  destruct (lazy options); [exact Hc|].
  apply preserves_bind; [apply call_effect_preserves| |exact Hc].
  intros _. apply preserves_ret.
Qed.

Lemma stop_preserves (a : A) (e : nat) : preserves (I a) (stop ex e).
Proof.
  intros st H. unfold stop.
  destruct (effects st !! e) as [er|]; [|exact H].
  destruct (active er); [|exact H].
  apply preserves_bind; [| |apply H_cleanup, H].
  - destruct (onStop er); [|apply preserves_ret]. apply preserves_discard, Hex.
  - intros _. apply preserves_modify, H_deactivate.
Qed.

Lemma computed_preserves (a : A) (arg : ComputedArg prog) :
  preserves (I a) (Computed.computed ex arg).
Proof.
  intros st H. unfold Computed.computed.
  match goal with |- context [effect ex ?g ?o st] =>
    pose proof (effect_preserves a g o st H) as He;
    destruct (effect ex g o st) as [[v| |] st1]
  end; simpl in *; try exact He.
  destruct v; try exact He. simpl. apply H_computed_alloc, He.
Qed.

Lemma get_value_tail_preserves (a : A) (c r : nat) :
  preserves (I a)
    (modify (Computed.trackChildRun r) ;;
     fun st' => (Normal (from_option cvalue VUndefined (computeds st' !! c)), st')).
Proof.
  apply preserves_bind; [apply preserves_modify, H_trackChildRun|].
  intros _ st H. exact H.
Qed.

Lemma get_value_preserves (a : A) (c : nat) :
  readable c → preserves (I a) (Computed.get_value ex c).
Proof.
  intros Hc st H. unfold Computed.get_value.
  destruct (computeds st !! c) as [cs|]; [|exact H].
  apply preserves_bind; [| |exact H].
  - destruct (dirty cs); [|apply preserves_ret].
    apply preserves_bind; [apply call_effect_preserves|].
    intros v. apply preserves_modify. intros st'. apply H_store_value, Hc.
  - intros _. apply get_value_tail_preserves.
Qed.

Lemma set_value_preserves (a : A) (c : nat) (v : value) :
  preserves (I a) (Computed.set_value ex c v).
Proof.
  intros st H. unfold Computed.set_value.
  destruct (computeds st !! c) as [cs|]; [|exact H].
  destruct (setter cs); [exact H|].
  apply preserves_discard; [apply Hex|exact H].
Qed.

Lemma do_op_preserves (a : A) (op : Op prog) :
  (∀ c, op = OpGetValue c → readable c) → preserves (I a) (do_op ex op).
Proof.
  intros Hread. destruct op; simpl.
  - apply track_preserves.
  - apply trigger_preserves.
  - apply effect_preserves.
  - apply call_effect_preserves.
  - apply stop_preserves.
  - apply preserves_modify, H_shouldTrack.
  - apply preserves_modify, H_shouldTrack.
  - apply computed_preserves.
  - apply get_value_preserves, Hread. reflexivity.
  - apply set_value_preserves.
  - apply preserves_lift, H_reactive.
  - apply preserves_lift, H_readonly.
  - apply H_markReadonly.
  - apply H_markNonReactive.
  - intros st H. apply H_newObject, H.
  - intros st H. exact H.
  - apply preserves_modify. intros st H. apply H_memory, H.
Qed.

End Operations.

(** ** The Tracking Context stack *)

Lemma stack_cleanup (e : nat) (st : State) :
  activeReactiveEffectStack (cleanup e st) = activeReactiveEffectStack st.
Proof.
  unfold cleanup. destruct (effects st !! e) as [er|]; [|reflexivity].
  destruct (deps er); reflexivity.
Qed.

Lemma stack_getDep (target : nat) (key : option PropKey) (st : State) :
  activeReactiveEffectStack (getDep target key st).2 = activeReactiveEffectStack st.
Proof.
  unfold getDep, getDepsMap. destruct (targetMap st !! target) as [m|].
  - destruct (map_get key m); reflexivity.
  - simpl. reflexivity.
Qed.

Lemma stack_subscribe (dep e : nat) (st : State) :
  activeReactiveEffectStack (subscribe dep e st) = activeReactiveEffectStack st.
Proof. reflexivity. Qed.

Lemma stack_trackChildRun (child : nat) (st : State) :
  activeReactiveEffectStack (Computed.trackChildRun child st) = activeReactiveEffectStack st.
Proof.
  unfold Computed.trackChildRun.
  destruct (last (activeReactiveEffectStack st)) as [parent|]; [|reflexivity].
  destruct (effects st !! child) as [cr|]; [|reflexivity].
  generalize (deps cr). intros ds. revert st.
  induction ds as [|d ds IH]; intros st; simpl; [reflexivity|].
  rewrite IH. destruct (dep_has d parent st); reflexivity.
Qed.

Lemma stack_createReactiveObject (v : value) (toProxy toRaw : WeakMapName)
    (h1 h2 : Handlers) (st : State) :
  activeReactiveEffectStack (createReactiveObject v toProxy toRaw h1 h2 st).2 =
  activeReactiveEffectStack st.
Proof.
  unfold createReactiveObject.
  destruct v; simpl; try (destruct (__DEV__ st); reflexivity).
  destruct (wm_get toProxy (tables st) !! r); [reflexivity|].
  destruct (bool_decide _); [reflexivity|].
  destruct (canObserve st r); [|reflexivity]. simpl.
  destruct (objects st !! r); [|reflexivity]. simpl.
  destruct (bool_decide _); reflexivity.
Qed.

Lemma stack_readonly (v : value) (st : State) :
  activeReactiveEffectStack (readonly v st).2 = activeReactiveEffectStack st.
Proof. unfold readonly. apply stack_createReactiveObject. Qed.

Lemma stack_reactive (v : value) (st : State) :
  activeReactiveEffectStack (reactive v st).2 = activeReactiveEffectStack st.
Proof.
  unfold reactive. destruct (wm_has _ _ _); [reflexivity|].
  destruct (ws_has _ _); [apply stack_readonly|apply stack_createReactiveObject].
Qed.

Lemma stack_ws_add (upd : nat → ProxyTables → ProxyTables) (v : value) (st : State) :
  activeReactiveEffectStack (ws_add upd v st).2 = activeReactiveEffectStack st.
Proof. destruct v; reflexivity. Qed.

(** Whatever a computation does and however it ends, it leaves the stack
    as it found it. *)
Lemma exec_stack (fuel : nat) (p : prog) (st : State) :
  activeReactiveEffectStack (exec fuel p st).2 = activeReactiveEffectStack st.
Proof.
  apply (exec_preserves (λ l s, activeReactiveEffectStack s = l)); [|reflexivity].
  clear. intros ex Hex l op.
  apply (do_op_preserves (λ l s, activeReactiveEffectStack s = l) (λ _, True) ex Hex);
    [clear..|intros; exact Logic.I].
  - intros l e er st H _ _. exact H.
  - intros l e st H. rewrite stack_cleanup. exact H.
  - intros l e er st H _ _ _. exists (l ++ [e]). split.
    + simpl. rewrite stack_cleanup, H. reflexivity.
    + intros st3 H3. simpl. rewrite H3. apply removelast_last.
  - intros l target key e er st H _ _. split.
    + rewrite stack_getDep. exact H.
    + intros _. rewrite stack_subscribe, stack_getDep. exact H.
  - intros l e st H. exact H.
  - intros l fn options st H. exact H.
  - intros l c st H. exact H.
  - intros l c v st _ H. exact H.
  - intros l child st H. rewrite stack_trackChildRun. exact H.
  - intros l c r s st H. exact H.
  - intros l v st H. rewrite stack_reactive. exact H.
  - intros l v st H. rewrite stack_readonly. exact H.
  - intros l v st H. unfold markReadonly. rewrite stack_ws_add. exact H.
  - intros l v st H. unfold markNonReactive. rewrite stack_ws_add. exact H.
  - intros l o st H. exact H.
  - intros l m st H. exact H.
  - intros l b st H. exact H.
Qed.

(** C8: a run of an active effect that is not on the stack pushes the
    effect before the computation starts and pops it however the
    computation ends; the stack after the run is the stack before it, and
    what the computation throws is what [run] throws. *)
Theorem run_balances_stack (fuel : nat) (effect : nat) (er : ReactiveEffect)
    (fn : list value → prog) (args : list value) (st : State) :
  effects st !! effect = Some er →
  active er = true →
  effect ∉ activeReactiveEffectStack st →
  let st1 := cleanup effect st in
  let st2 := set_stack (activeReactiveEffectStack st1 ++ [effect]) st1 in
  let entered := set_fnCalls (fnCalls st2 ++ [effect]) st2 in
  let result := exec fuel (fn args) entered in
  activeReactiveEffectStack entered = activeReactiveEffectStack st ++ [effect] ∧
  activeReactiveEffectStack result.2 = activeReactiveEffectStack st ++ [effect] ∧
  run (exec fuel) effect fn args st =
    (result.1, set_stack (activeReactiveEffectStack st) result.2) ∧
  activeReactiveEffectStack (run (exec fuel) effect fn args st).2 =
    activeReactiveEffectStack st ∧
  ∀ x, result.1 = Thrown x → (run (exec fuel) effect fn args st).1 = Thrown x.
Proof.
  intros Her Hact Hin st1 st2 entered result.
  assert (Hentered : activeReactiveEffectStack entered = activeReactiveEffectStack st ++ [effect]).
  { subst entered st2 st1. simpl. rewrite stack_cleanup. reflexivity. }
  assert (Hresult : activeReactiveEffectStack result.2 = activeReactiveEffectStack st ++ [effect]).
  { subst result. rewrite exec_stack. exact Hentered. }
  assert (Hrun : run (exec fuel) effect fn args st =
                 (result.1, set_stack (activeReactiveEffectStack st) result.2)).
  { unfold run. rewrite Her, Hact. cbn [negb].
    rewrite bool_decide_true by exact Hin.
    change (exec fuel (fn args) _) with result.
    transitivity (result.1, set_stack (removelast (activeReactiveEffectStack result.2)) result.2).
    - destruct result as [r st3]. reflexivity.
    - rewrite Hresult, removelast_last. reflexivity. }
  repeat split; try assumption.
  - rewrite Hrun. reflexivity.
  - intros x Hx. rewrite Hrun. exact Hx.
Qed.

Lemma run_balances_stack_witness :
  activeReactiveEffectStack (run (exec 3) 0 throwing_fn [] idle_state).2 =
    activeReactiveEffectStack idle_state ∧
  (run (exec 3) 0 throwing_fn [] idle_state).1 = Thrown (VNum 7).
Proof.
  assert (Hnot : 0 ∉ activeReactiveEffectStack idle_state) by apply not_elem_of_nil.
  destruct (run_balances_stack 3 0 _ throwing_fn [] idle_state eq_refl eq_refl Hnot)
    as (_ & _ & _ & Hstack & Hthrow).
  split; [exact Hstack|]. apply Hthrow. reflexivity.
Defined.

(** ** Paused tracking *)

(** C9: while [shouldTrack] is false, [track] returns at once, whatever
    the stack holds: the state is unchanged, so after [resumeTracking]
    the Dependency Store and all [deps] lists are those from before the
    read, and a later [trigger] collects exactly the effects it would
    have collected had the read not happened. *)
Theorem track_paused_is_noop (ex : Exec) (target : nat) (type : OperationTypes)
    (key : option PropKey) (st : State) :
  shouldTrack st = false →
  track ex target type key st = (Normal VUndefined, st) ∧
  (track ex target type key ;; resumeTracking) st =
    (Normal VUndefined, set_shouldTrack true st) ∧
  let st' := ((track ex target type key ;; resumeTracking) st).2 in
  targetMap st' = targetMap st ∧ sets st' = sets st ∧ effects st' = effects st ∧
  ∀ depsMap target' type' key',
    collectRunners st' depsMap target' type' key' =
    collectRunners st depsMap target' type' key'.
Proof.
  intros Hpaused.
  assert (Htrack : track ex target type key st = (Normal VUndefined, st)).
  { unfold track. rewrite Hpaused. reflexivity. }
  assert (Hseq : (track ex target type key ;; resumeTracking) st =
                 (Normal VUndefined, set_shouldTrack true st)).
  { unfold bind. rewrite Htrack. reflexivity. }
  split; [exact Htrack|]. split; [exact Hseq|].
  rewrite Hseq. simpl. repeat split; reflexivity.
Qed.

Lemma track_paused_is_noop_witness :
  track (exec 3) 0 GET (Some (KString "count")) (pauseTracking running_state).2 =
    (Normal VUndefined, (pauseTracking running_state).2) ∧
  fnCalls paused_read_state = [0] ∧
  fnCalls (trigger (exec 9) 0 SET (Some (KString "count")) None paused_read_state).2 = [0].
Proof.
  split; [|split; reflexivity].
  apply (track_paused_is_noop (exec 3) 0 GET (Some (KString "count"))
           (pauseTracking running_state).2).
  reflexivity.
Defined.

(** ** Writing a read-only computed value *)

Lemma computed_getter_only_setter (ex : Exec) (g : FnArg prog) (st st1 : State) (c : nat) :
  Computed.computed ex (GetterOnly g) st = (Normal (VObj c), st1) →
  ∃ cs, computeds st1 !! c = Some cs ∧ setter cs = ReadonlySetter ∧
        dirty cs = true ∧ cvalue cs = VUndefined.
Proof.
  unfold Computed.computed. intros H.
  destruct (effect ex g _ st) as [[v| |] st0]; try discriminate H.
  destruct v; try discriminate H. injection H as <- <-. simpl.
  rewrite lookup_insert_eq. eexists. repeat split.
Qed.

(** C6, what the code does: a write to a computed value built from a
    getter alone returns normally and leaves the whole state as it was,
    the console included: no warning is printed, in a development build
    or otherwise. *)
Theorem readonly_computed_write_is_silent (ex : Exec) (g : FnArg prog)
    (st st1 : State) (c : nat) (newValue : value) :
  Computed.computed ex (GetterOnly g) st = (Normal (VObj c), st1) →
  Computed.set_value ex c newValue st1 = (Normal VUndefined, st1) ∧
  console (Computed.set_value ex c newValue st1).2 = console st1.
Proof.
  intros H. destruct (computed_getter_only_setter ex g st st1 c H) as (cs & Hcs & Hset & _).
  assert (Hw : Computed.set_value ex c newValue st1 = (Normal VUndefined, st1)).
  { unfold Computed.set_value. rewrite Hcs, Hset. reflexivity. }
  split; [exact Hw|]. rewrite Hw. reflexivity.
Qed.

Lemma readonly_computed_write_is_silent_witness :
  let st1 := (Computed.computed (exec 3) (GetterOnly (FnPlain answer_fn)) (initial_state true)).2 in
  (__DEV__ st1 = true ∧ console st1 = []) ∧
  Computed.set_value (exec 3) 0 (VNum 5) st1 = (Normal VUndefined, st1) ∧
  console (Computed.set_value (exec 3) 0 (VNum 5) st1).2 = console st1.
Proof.
  split; [split; reflexivity|].
  apply (readonly_computed_write_is_silent (exec 3) (FnPlain answer_fn)
           (initial_state true) _ 0 (VNum 5)).
  reflexivity.
Defined.

(** ** reactive *)

Lemma wm_get_set_eq (w : WeakMapName) (k v : nat) (t : ProxyTables) :
  wm_get w (wm_set w k v t) = <[k := v]> (wm_get w t).
Proof. destruct w; reflexivity. Qed.

Lemma wm_get_set_ne (w w' : WeakMapName) (k v : nat) (t : ProxyTables) :
  w ≠ w' → wm_get w (wm_set w' k v t) = wm_get w t.
Proof. destruct w, w'; intros H; try reflexivity; destruct H; reflexivity. Qed.

Lemma wm_get_set_lookup (w w' : WeakMapName) (k v : nat) (t : ProxyTables) (k' x : nat) :
  wm_get w (wm_set w' k v t) !! k' = Some x → k' = k ∨ wm_get w t !! k' = Some x.
Proof.
  destruct w, w'; simpl; auto; rewrite lookup_insert; case_decide; auto.
Qed.

(** The branches of [createReactiveObject] on an object. *)
Lemma createReactiveObject_cases (t : nat) (toProxy toRaw : WeakMapName)
    (h1 h2 : Handlers) (st : State) :
  (∃ observed, wm_get toProxy (tables st) !! t = Some observed ∧
     createReactiveObject (VObj t) toProxy toRaw h1 h2 st = (VObj observed, st)) ∨
  (wm_get toProxy (tables st) !! t = None ∧
   createReactiveObject (VObj t) toProxy toRaw h1 h2 st = (VObj t, st)) ∨
  (∃ o st',
     wm_get toProxy (tables st) !! t = None ∧
     wm_get toRaw (tables st) !! t = None ∧
     objects st !! t = Some o ∧
     createReactiveObject (VObj t) toProxy toRaw h1 h2 st = (VObj (length (objects st)), st') ∧
     objects st' = objects st ++
       [proxy_object o t (if constructorIsCollection o then h2 else h1)] ∧
     tables st' = wm_set toRaw (length (objects st)) t
                    (wm_set toProxy t (length (objects st)) (tables st))).
Proof.
  unfold createReactiveObject.
  destruct (wm_get toProxy (tables st) !! t) as [observed|] eqn:Hp; [left; eauto|].
  right. simpl. case_bool_decide as Hraw; [left; auto|].
  destruct (canObserve st t) eqn:Hobs; [|left; auto]. simpl.
  unfold canObserve in Hobs.
  destruct (objects st !! t) as [o|] eqn:Ho; [|discriminate Hobs].
  right. exists o. eexists. split; [reflexivity|]. split.
  { destruct (wm_get toRaw (tables st) !! t) eqn:E; [|reflexivity].
    destruct Hraw. eauto. }
  split; [reflexivity|]. split; [reflexivity|].
  simpl. destruct (bool_decide (is_Some (targetMap st !! t))); split; reflexivity.
Qed.

(** After [createReactiveObject] on an object, the same call finds what
    the first one returned and changes nothing. *)
Lemma createReactiveObject_again (t : nat) (toProxy toRaw : WeakMapName)
    (h1 h2 : Handlers) (st : State) :
  toProxy ≠ toRaw →
  let r1 := createReactiveObject (VObj t) toProxy toRaw h1 h2 st in
  createReactiveObject (VObj t) toProxy toRaw h1 h2 r1.2 = r1.
Proof.
  intros Hne r1. subst r1.
  destruct (createReactiveObject_cases t toProxy toRaw h1 h2 st)
    as [(obs & Hp & E)|[(Hp & E)|(o & st' & Hp & Hr & Ho & E & Hobj & Htab)]];
    rewrite E; simpl.
  - exact E.
  - exact E.
  - unfold createReactiveObject. rewrite Htab, wm_get_set_ne, wm_get_set_eq by exact Hne.
    rewrite lookup_insert_eq. reflexivity.
Qed.

Lemma reactive_again (r : nat) (st : State) :
  reactive (VObj r) (reactive (VObj r) st).2 = reactive (VObj r) st.
Proof.
  unfold reactive at 2 3.
  destruct (wm_has ReadonlyToRaw (VObj r) (tables st)) eqn:Hro.
  { simpl. unfold reactive. rewrite Hro. reflexivity. }
  destruct (ws_has (readonlyValues (tables st)) (VObj r)) eqn:Hmark.
  - unfold readonly.
    set (t := match reactiveToRaw (tables st) !! r with
              | Some rawTarget => VObj rawTarget
              | None => VObj r
              end).
    assert (∃ t', t = VObj t') as [t' Ht'].
    { subst t. destruct (reactiveToRaw (tables st) !! r); eauto. }
    rewrite Ht'.
    destruct (createReactiveObject_cases t' RawToReadonly ReadonlyToRaw
                readonlyHandlers readonlyCollectionHandlers st)
      as [(obs & Hp & E)|[(Hp & E)|(o & st' & Hp & Hr & Ho & E & Hobj & Htab)]]; rewrite E; simpl.
    + unfold reactive, readonly. rewrite Hro, Hmark. fold t. rewrite Ht'. exact E.
    + unfold reactive, readonly. rewrite Hro, Hmark. fold t. rewrite Ht'. exact E.
    + pose proof (createReactiveObject_again t' RawToReadonly ReadonlyToRaw
                    readonlyHandlers readonlyCollectionHandlers st
                    ltac:(discriminate)) as Hagain.
      cbv zeta in Hagain. rewrite E in Hagain. simpl in Hagain.
      assert (G2 : ws_has (readonlyValues (tables st')) (VObj r) = true)
        by (rewrite Htab; exact Hmark).
      assert (G3 : reactiveToRaw (tables st') !! r = reactiveToRaw (tables st) !! r)
        by (rewrite Htab; reflexivity).
      unfold reactive.
      destruct (wm_has ReadonlyToRaw (VObj r) (tables st')) eqn:G1.
      * destruct (decide (r = length (objects st))) as [->|Hne]; [reflexivity|].
        simpl in G1, Hro. rewrite Htab in G1. simpl in G1.
        rewrite lookup_insert_ne in G1 by (intros <-; apply Hne; reflexivity).
        rewrite Hro in G1. discriminate G1.
      * rewrite G2. unfold readonly. rewrite G3. fold t. rewrite Ht'. exact Hagain.
  - destruct (createReactiveObject_cases r RawToReactive ReactiveToRaw
                mutableHandlers mutableCollectionHandlers st)
      as [(obs & Hp & E)|[(Hp & E)|(o & st' & Hp & Hr & Ho & E & Hobj & Htab)]]; rewrite E; simpl.
    + unfold reactive. rewrite Hro, Hmark. exact E.
    + unfold reactive. rewrite Hro, Hmark. exact E.
    + pose proof (createReactiveObject_again r RawToReactive ReactiveToRaw
                    mutableHandlers mutableCollectionHandlers st
                    ltac:(discriminate)) as Hagain.
      cbv zeta in Hagain. rewrite E in Hagain. simpl in Hagain.
      assert (G1 : wm_has ReadonlyToRaw (VObj r) (tables st') = false)
        by (rewrite Htab; exact Hro).
      assert (G2 : ws_has (readonlyValues (tables st')) (VObj r) = false)
        by (rewrite Htab; exact Hmark).
      unfold reactive. rewrite G1, G2. exact Hagain.
Qed.

Lemma reactive_result_non_object (v : value) (st : State) :
  isObject v = false → (reactive v st).1 = v.
Proof.
  intros Hv. unfold reactive, readonly, createReactiveObject.
  destruct v; try discriminate Hv; reflexivity.
Qed.

Lemma reactive_on_proxy (target : value) (st : State) :
  tables_wf st →
  isReactive target st = true →
  ws_has (readonlyValues (tables st)) target = false ∨ isReadonly target st = true →
  reactive target st = (target, st).
Proof.
  intros [_ Hdisj] Hreact Hmark. unfold reactive, isReactive, isReadonly in *.
  destruct (wm_has ReadonlyToRaw target (tables st)) eqn:Hro; [reflexivity|].
  destruct Hmark as [Hmark|Hmark]; [|discriminate Hmark]. rewrite Hmark.
  rewrite orb_false_r in Hreact.
  destruct target as [| | |p| |]; try discriminate Hreact. simpl in Hreact.
  apply bool_decide_eq_true in Hreact.
  unfold createReactiveObject. simpl. rewrite (Hdisj p Hreact).
  rewrite bool_decide_true by exact Hreact. reflexivity.
Qed.

(** ** What the graph operations leave alone *)

Lemma same_outside_graph_refl (st : State) : same_outside_graph st st.
Proof. repeat split. Qed.

Lemma same_outside_graph_trans (st1 st2 st3 : State) :
  same_outside_graph st1 st2 → same_outside_graph st2 st3 → same_outside_graph st1 st3.
Proof.
  unfold same_outside_graph. intros H1 H2.
  destruct H1 as (?&?&?&?&?&?&?&?&?), H2 as (?&?&?&?&?&?&?&?&?).
  repeat split; congruence.
Qed.

Lemma cleanup_outside (e : nat) (st : State) : same_outside_graph st (cleanup e st).
Proof.
  unfold cleanup. destruct (effects st !! e) as [er|]; [|apply same_outside_graph_refl].
  destruct (deps er); repeat split.
Qed.

Lemma subscribe_outside (dep e : nat) (st : State) :
  same_outside_graph st (subscribe dep e st).
Proof. repeat split. Qed.

Lemma getDep_outside (target : nat) (key : option PropKey) (st : State) :
  same_outside_graph st (getDep target key st).2.
Proof.
  unfold getDep, getDepsMap. destruct (targetMap st !! target) as [m|].
  - destruct (map_get key m); repeat split.
  - simpl. repeat split.
Qed.

Lemma trackChildRun_outside (child : nat) (st : State) :
  same_outside_graph st (Computed.trackChildRun child st).
Proof.
  unfold Computed.trackChildRun.
  destruct (last (activeReactiveEffectStack st)) as [parent|];
    [|apply same_outside_graph_refl].
  destruct (effects st !! child) as [cr|]; [|apply same_outside_graph_refl].
  generalize (deps cr). intros ds. revert st.
  induction ds as [|d ds IH]; intros st; simpl; [apply same_outside_graph_refl|].
  eapply same_outside_graph_trans; [|apply IH].
  destruct (dep_has d parent st); repeat split.
Qed.

(** ** The proxy tables are well formed in every reachable state *)

Lemma tables_wf_frame (st st' : State) :
  objects st' = objects st → tables st' = tables st → tables_wf st → tables_wf st'.
Proof. unfold tables_wf. intros -> ->. auto. Qed.

Lemma tables_wf_outside (st st' : State) :
  same_outside_graph st st' → tables_wf st → tables_wf st'.
Proof. intros (Ho & _ & Ht & _). apply tables_wf_frame; assumption. Qed.

Lemma tables_wf_initial (dev : bool) : tables_wf (initial_state dev).
Proof.
  split.
  - intros w k v H. destruct w; simpl in H; rewrite lookup_empty in H; discriminate H.
  - intros p [v H]. simpl in H. rewrite lookup_empty in H. discriminate H.
Qed.

Lemma tables_wf_alloc (l : list JsObject) (st st' : State) :
  objects st' = objects st ++ l → tables st' = tables st → tables_wf st → tables_wf st'.
Proof.
  unfold tables_wf. intros -> -> [Hb Hd]. split; [|exact Hd].
  intros w k v H. rewrite length_app. specialize (Hb w k v H). lia.
Qed.

Lemma tables_wf_createReactiveObject (v : value) (toProxy toRaw : WeakMapName)
    (h1 h2 : Handlers) (st : State) :
  (toProxy = RawToReactive ∧ toRaw = ReactiveToRaw) ∨
  (toProxy = RawToReadonly ∧ toRaw = ReadonlyToRaw) →
  tables_wf st → tables_wf (createReactiveObject v toProxy toRaw h1 h2 st).2.
Proof.
  intros Hpair Hwf.
  destruct (isObject v) eqn:Hv.
  - destruct v as [| | |t| |]; try discriminate Hv.
    destruct (createReactiveObject_cases t toProxy toRaw h1 h2 st)
      as [(obs & Hp & E)|[(Hp & E)|(o & st' & Hp & Hr & Ho & E & Hobj & Htab)]];
      rewrite E; simpl; try exact Hwf.
    destruct Hwf as [Hb Hd]. apply lookup_lt_Some in Ho.
    assert (Hfresh : ∀ w, wm_get w (tables st) !! length (objects st) = None).
    { intros w. destruct (wm_get w (tables st) !! length (objects st)) eqn:Hl; [|reflexivity].
      apply Hb in Hl. lia. }
    split.
    + intros w k x. rewrite Hobj, Htab, length_app. simpl. intros H.
      apply wm_get_set_lookup in H as [->|H]; [lia|].
      apply wm_get_set_lookup in H as [->|H]; [lia|].
      apply Hb in H. lia.
    + intros p. rewrite Htab.
      destruct Hpair as [[-> ->]|[-> ->]]; simpl; [|apply Hd].
      destruct (decide (p = length (objects st))) as [->|Hpo].
      * intros _. rewrite lookup_insert_ne by lia. apply (Hfresh RawToReactive).
      * rewrite lookup_insert_ne by congruence. intros Hp'.
        destruct (decide (p = t)) as [->|Hpt].
        -- simpl in Hr. rewrite Hr in Hp'. destruct Hp' as [? [=]].
        -- rewrite lookup_insert_ne by congruence. apply Hd, Hp'.
  - assert (E : createReactiveObject v toProxy toRaw h1 h2 st =
                (v, if __DEV__ st then set_console (console st ++ [CannotBeMadeReactive v]) st
                    else st))
      by (destruct v; try discriminate Hv; reflexivity).
    rewrite E. simpl. destruct (__DEV__ st); [|exact Hwf].
    revert Hwf. apply tables_wf_frame; reflexivity.
Qed.

Lemma tables_wf_readonly (v : value) (st : State) :
  tables_wf st → tables_wf (readonly v st).2.
Proof. unfold readonly. apply tables_wf_createReactiveObject. right. auto. Qed.

Lemma tables_wf_reactive (v : value) (st : State) :
  tables_wf st → tables_wf (reactive v st).2.
Proof.
  intros Hwf. unfold reactive. destruct (wm_has _ _ _); [exact Hwf|].
  destruct (ws_has _ _); [apply tables_wf_readonly, Hwf|].
  apply tables_wf_createReactiveObject; [left; auto|exact Hwf].
Qed.

Lemma tables_wf_markReadonly (v : value) (st : State) :
  tables_wf st → tables_wf (markReadonly v st).2.
Proof. destruct v; intros H; exact H. Qed.

Lemma tables_wf_markNonReactive (v : value) (st : State) :
  tables_wf st → tables_wf (markNonReactive v st).2.
Proof. destruct v; intros H; exact H. Qed.

Lemma exec_tables_wf (fuel : nat) (p : prog) (st : State) :
  tables_wf st → tables_wf (exec fuel p st).2.
Proof.
  apply (exec_preserves (λ (_ : unit) s, tables_wf s) (A := unit)); [|exact tt].
  clear. intros ex Hex a op.
  apply (do_op_preserves (λ (_ : unit) s, tables_wf s) (λ _, True) ex Hex);
    [clear..|exact a|intros; exact Logic.I].
  - intros _ e er st H _ _. exact H.
  - intros _ e st. apply tables_wf_outside, cleanup_outside.
  - intros a e er st H _ _ _. exists a. split.
    + apply (tables_wf_frame (cleanup e st)); [reflexivity|reflexivity|].
      revert H. apply tables_wf_outside, cleanup_outside.
    + intros st3. apply tables_wf_frame; reflexivity.
  - intros _ target key e er st H _ _.
    assert (H1 : tables_wf (getDep target key st).2)
      by (revert H; apply tables_wf_outside, getDep_outside).
    split; [exact H1|]. intros _. revert H1. apply tables_wf_frame; reflexivity.
  - intros _ e st H. exact H.
  - intros _ fn options st H. exact H.
  - intros _ c st H. exact H.
  - intros _ c v st _ H. exact H.
  - intros _ child st. apply tables_wf_outside, trackChildRun_outside.
  - intros _ c r s st. apply (tables_wf_alloc [Computed.plain_object]); reflexivity.
  - intros _ v st. apply tables_wf_reactive.
  - intros _ v st. apply tables_wf_readonly.
  - intros _ v st. apply tables_wf_markReadonly.
  - intros _ v st. apply tables_wf_markNonReactive.
  - intros _ o st. apply (tables_wf_alloc [o]); reflexivity.
  - intros _ m st H. exact H.
  - intros _ b st H. exact H.
Qed.

(** [reactive] of a mutable proxy that was passed to [markReadonly] is
    [readonly] of it, that is [createReactiveObject] of its raw object
    with the read-only tables. *)
Lemma reactive_marked_proxy (p t : nat) (st : State) :
  reactiveToRaw (tables st) !! p = Some t →
  readonlyToRaw (tables st) !! p = None →
  p ∈ readonlyValues (tables st) →
  reactive (VObj p) st = readonly (VObj p) st ∧
  readonly (VObj p) st =
    createReactiveObject (VObj t) RawToReadonly ReadonlyToRaw
      readonlyHandlers readonlyCollectionHandlers st.
Proof.
  intros Hre Hro Hmark. split.
  - unfold reactive, wm_has, ws_has. cbn [wm_get]. rewrite Hro.
    rewrite bool_decide_false by (intros [? [=]]).
    rewrite bool_decide_true by exact Hmark. reflexivity.
  - unfold readonly. rewrite Hre. reflexivity.
Qed.

(** C10, as the code has it: a second [reactive(t)] returns what the
    first returned, and for an object leaves the state as the first call
    left it; [reactive(p)] on a proxy returns [p] and changes nothing,
    unless [p] is a mutable proxy that was passed to [markReadonly]. Then
    [reactive(p)] is [readonly(p)]: it returns the read-only proxy of the
    raw object of [p], the cached one or, when the raw object can be
    observed, a new one; and it returns the raw object itself when that
    has no read-only proxy and cannot be observed (it was passed to
    [markNonReactive], say). *)
Theorem reactive_is_cached (target : value) (st : State) :
  tables_wf st →
  (reactive target (reactive target st).2).1 = (reactive target st).1 ∧
  (isObject target = true →
   reactive target (reactive target st).2 = reactive target st) ∧
  (isReactive target st = true →
   ws_has (readonlyValues (tables st)) target = false ∨ isReadonly target st = true →
   reactive target st = (target, st)) ∧
  (∀ p t, target = VObj p →
     reactiveToRaw (tables st) !! p = Some t →
     readonlyToRaw (tables st) !! p = None →
     p ∈ readonlyValues (tables st) →
     reactive target st = readonly target st ∧
     (∀ q, rawToReadonly (tables st) !! t = Some q → reactive target st = (VObj q, st)) ∧
     (rawToReadonly (tables st) !! t = None →
      is_Some (readonlyToRaw (tables st) !! t) ∨ canObserve st t = false →
      reactive target st = (VObj t, st)) ∧
     (rawToReadonly (tables st) !! t = None →
      readonlyToRaw (tables st) !! t = None →
      canObserve st t = true →
      (reactive target st).1 = VObj (length (objects st)) ∧
      rawToReadonly (tables (reactive target st).2) !! t = Some (length (objects st)) ∧
      readonlyToRaw (tables (reactive target st).2) !! length (objects st) = Some t)).
Proof.
  intros Hwf. split; [|split; [|split]].
  - destruct (isObject target) eqn:Hobj.
    + destruct target; try discriminate Hobj. rewrite reactive_again. reflexivity.
    + rewrite !reactive_result_non_object by exact Hobj. reflexivity.
  - intros Hobj. destruct target; try discriminate Hobj. apply reactive_again.
  - apply reactive_on_proxy, Hwf.
  - intros p t -> Hre Hro Hmark.
    destruct (reactive_marked_proxy p t st Hre Hro Hmark) as [E1 E2].
    split; [exact E1|]. rewrite E1, E2. unfold createReactiveObject. cbn [wm_get].
    split; [|split].
    + intros q Hq. rewrite Hq. reflexivity.
    + intros Hq Hor. rewrite Hq. unfold wm_has. cbn [wm_get].
      destruct Hor as [Hraw|Hobs].
      * rewrite bool_decide_true by exact Hraw. reflexivity.
      * rewrite Hobs. destruct (bool_decide _); reflexivity.
    + intros Hq Hraw Hobs. rewrite Hq. unfold wm_has. cbn [wm_get]. rewrite Hraw.
      rewrite bool_decide_false by (intros [? [=]]). rewrite Hobs. simpl.
      unfold canObserve in Hobs.
      destruct (objects st !! t) as [o|]; [|discriminate Hobs].
      destruct (bool_decide (is_Some (targetMap _ !! t))); simpl;
        (split; [reflexivity|]); split; apply lookup_insert_eq.
Qed.

Lemma proxy_state_wf : tables_wf proxy_state.
Proof.
  apply tables_wf_reactive.
  apply (tables_wf_alloc [Computed.plain_object] (initial_state true)); try reflexivity.
  apply tables_wf_initial.
Qed.

Lemma reactive_is_cached_witness :
  (reactive (VObj 1) proxy_state).1 = VObj 1 ∧
  reactive (VObj 0) proxy_state = (VObj 1, proxy_state) ∧
  (reactive (VObj 1) marked_proxy_state).1 = VObj 2 ∧
  reactive (VObj 1) marked_unobservable_state = (VObj 0, marked_unobservable_state).
Proof.
  destruct (reactive_is_cached (VObj 1) proxy_state proxy_state_wf) as (_ & _ & Hproxy & _).
  destruct (reactive_is_cached (VObj 0)
              (set_objects [Computed.plain_object] (initial_state true)))
    as (_ & Hagain & _).
  { apply (tables_wf_alloc [Computed.plain_object] (initial_state true)); try reflexivity.
    apply tables_wf_initial. }
  assert (Hwf1 : tables_wf marked_proxy_state)
    by (apply tables_wf_markReadonly, proxy_state_wf).
  assert (Hwf2 : tables_wf marked_unobservable_state)
    by (apply tables_wf_markNonReactive, Hwf1).
  assert (Hmark1 : 1 ∈ readonlyValues (tables marked_proxy_state))
    by (simpl; set_solver).
  assert (Hmark2 : 1 ∈ readonlyValues (tables marked_unobservable_state))
    by (simpl; set_solver).
  destruct (reactive_is_cached (VObj 1) marked_proxy_state Hwf1) as (_ & _ & _ & Hnew).
  destruct (Hnew 1 0 eq_refl eq_refl eq_refl Hmark1) as (_ & _ & _ & Hnew').
  destruct (reactive_is_cached (VObj 1) marked_unobservable_state Hwf2)
    as (_ & _ & _ & Hraw).
  destruct (Hraw 1 0 eq_refl eq_refl eq_refl Hmark2) as (_ & _ & Hraw' & _).
  split; [|split; [|split]].
  - rewrite Hproxy; [reflexivity|reflexivity|left; reflexivity].
  - exact (Hagain eq_refl).
  - apply Hnew'; reflexivity.
  - apply Hraw'; [reflexivity|right; reflexivity].
Defined.

(** C10, as the claim states it, fails: a reactive proxy that was passed
    to [markReadonly] is not returned by [reactive]; the read-only proxy
    of its raw object is. *)
Lemma reactive_marked_proxy_counterexample :
  ¬ (∀ (p : value) (st : State),
       tables_wf st → wm_has ReactiveToRaw p (tables st) = true →
       reactive p st = (p, st)).
Proof.
  intros H.
  assert (Hwf : tables_wf marked_proxy_state)
    by (apply tables_wf_markReadonly, proxy_state_wf).
  specialize (H (VObj 1) marked_proxy_state Hwf eq_refl).
  apply (f_equal fst) in H. vm_compute in H. discriminate H.
Qed.

(** ** The deps lists agree with the subscriber Sets *)

Lemma elem_of_set_delete (x e : nat) (s : list nat) :
  x ∈ set_delete e s ↔ x ∈ s ∧ x ≠ e.
Proof. unfold set_delete. rewrite list_elem_of_filter. tauto. Qed.

Lemma map_get_elem_of (k : option PropKey) (m : list (option PropKey * nat)) (d : nat) :
  map_get k m = Some d → (k, d) ∈ m.
Proof.
  induction m as [|[k' d'] m IH]; simpl; [discriminate|].
  case_decide as Hk.
  - intros [= ->]. subst. apply list_elem_of_here.
  - intros H. apply list_elem_of_further, IH, H.
Qed.

Lemma elem_of_map_set (k k' : option PropKey) (d d' : nat) (m : list (option PropKey * nat)) :
  (k', d') ∈ map_set k d m → (k', d') = (k, d) ∨ (k', d') ∈ m.
Proof.
  induction m as [|[k0 d0] m IH]; simpl.
  - intros H. apply list_elem_of_singleton in H. auto.
  - case_decide as Hk.
    + intros H. apply elem_of_cons in H as [H|H].
      * left. congruence.
      * right. apply list_elem_of_further, H.
    + intros H. apply elem_of_cons in H as [H|H].
      * right. rewrite H. apply list_elem_of_here.
      * destruct (IH H) as [?|?]; [auto|]. right. apply list_elem_of_further. assumption.
Qed.

Lemma consistent_initial (dev : bool) : consistent (initial_state dev).
Proof.
  split; [|split].
  - intros e d. split.
    + intros (s & H & _). simpl in H. rewrite lookup_nil in H. discriminate H.
    + intros (er & H & _). simpl in H. rewrite lookup_nil in H. discriminate H.
  - intros t m k d H. simpl in H. rewrite lookup_empty in H. discriminate H.
  - intros e H. simpl in H. apply elem_of_nil in H. destruct H.
Qed.

(** Frame: the invariant only looks at the graph and the stack. *)
Lemma consistent_frame (st st' : State) :
  effects st' = effects st → sets st' = sets st → targetMap st' = targetMap st →
  activeReactiveEffectStack st' = activeReactiveEffectStack st →
  consistent st → consistent st'.
Proof.
  unfold consistent, deps_agree, store_wf, member, in_deps.
  intros -> -> -> ->. auto.
Qed.

Lemma cleanup_sets_member (e : nat) (ds : list nat) (ss : list (list nat)) (x d : nat) :
  (∃ s, foldl (λ s d, alter (set_delete e) d s) ss ds !! d = Some s ∧ x ∈ s) ↔
  (∃ s, ss !! d = Some s ∧ x ∈ s ∧ (d ∈ ds → x ≠ e)).
Proof.
  revert ss. induction ds as [|d0 ds IH]; intros ss; simpl.
  - split; intros (s & H1 & H2); exists s.
    + split; [exact H1|]. split; [tauto|]. intros H. apply elem_of_nil in H. destruct H.
    + tauto.
  - rewrite IH. split.
    + intros (s & H1 & H2 & H3).
      destruct (decide (d0 = d)) as [->|Hne].
      * rewrite list_lookup_alter_eq in H1.
        destruct (ss !! d) as [s0|] eqn:Hs0; [|discriminate H1].
        injection H1 as <-. apply elem_of_set_delete in H2 as [H2 H2'].
        exists s0. split; [reflexivity|]. split; [exact H2|]. intros _. exact H2'.
      * rewrite list_lookup_alter_ne in H1 by exact Hne.
        exists s. split; [exact H1|]. split; [exact H2|].
        intros H. apply elem_of_cons in H as [H|H]; [congruence|auto].
    + intros (s & H1 & H2 & H3).
      destruct (decide (d0 = d)) as [->|Hne].
      * exists (set_delete e s). rewrite list_lookup_alter_eq, H1. split; [reflexivity|].
        rewrite elem_of_set_delete. split.
        -- split; [exact H2|]. apply H3, list_elem_of_here.
        -- intros _. apply H3, list_elem_of_here.
      * exists s. rewrite list_lookup_alter_ne by exact Hne.
        split; [exact H1|]. split; [exact H2|].
        intros H. apply H3, list_elem_of_further, H.
Qed.

Lemma cleanup_sets_length (e : nat) (ds : list nat) (ss : list (list nat)) :
  length (foldl (λ s d, alter (set_delete e) d s) ss ds) = length ss.
Proof.
  revert ss. induction ds as [|d ds IH]; intros ss; simpl; [reflexivity|].
  rewrite IH. apply length_alter.
Qed.

Lemma consistent_cleanup (e : nat) (st : State) :
  consistent st → consistent (cleanup e st).
Proof.
  intros Hc. unfold cleanup.
  destruct (effects st !! e) as [er|] eqn:Her; [|exact Hc].
  destruct (deps er) as [|d0 ds] eqn:Hds; [exact Hc|]. rewrite <- Hds.
  destruct Hc as [Hagree [Hmap Hstack]]. split; [|split].
  - intros x d. unfold member, in_deps, update_effect. simpl.
    rewrite cleanup_sets_member. split.
    + intros (s & H1 & H2 & H3).
      destruct (proj1 (Hagree x d)) as (xr & Hxr & Hd); [exists s; auto|].
      destruct (decide (x = e)) as [->|Hne].
      * rewrite Her in Hxr. injection Hxr as <-. destruct (H3 Hd). reflexivity.
      * exists xr. rewrite list_lookup_alter_ne by congruence. auto.
    + intros (xr & Hxr & Hd).
      destruct (decide (e = x)) as [->|Hne].
      * rewrite list_lookup_alter_eq, Her in Hxr. injection Hxr as <-.
        simpl in Hd. apply elem_of_nil in Hd. destruct Hd.
      * rewrite list_lookup_alter_ne in Hxr by exact Hne.
        destruct (proj2 (Hagree x d)) as (s & H1 & H2); [exists xr; auto|].
        exists s. split; [exact H1|]. split; [exact H2|]. intros _. congruence.
  - intros t m k d. simpl. rewrite cleanup_sets_length. apply Hmap.
  - intros x. simpl. rewrite length_alter. apply Hstack.
Qed.

Lemma consistent_new_set (st st' : State) :
  effects st' = effects st →
  sets st' = sets st ++ [[]] →
  activeReactiveEffectStack st' = activeReactiveEffectStack st →
  (∀ t m k d, targetMap st' !! t = Some m → (k, d) ∈ m →
     d = length (sets st) ∨ ∃ m0, targetMap st !! t = Some m0 ∧ (k, d) ∈ m0) →
  consistent st → consistent st'.
Proof.
  intros He Hs Hst Hm [Hagree [Hmap Hstack]]. split; [|split].
  - intros x d. unfold member, in_deps. rewrite He, Hs. rewrite <- (Hagree x d).
    unfold member. split; intros (s & H1 & H2).
    + destruct (decide (d < length (sets st))) as [Hlt|Hge].
      * rewrite lookup_app_l in H1 by exact Hlt. eauto.
      * rewrite lookup_app_r in H1 by lia.
        destruct (d - length (sets st)) as [|n]; simpl in H1.
        -- injection H1 as <-. apply elem_of_nil in H2. destruct H2.
        -- rewrite lookup_nil in H1. discriminate H1.
    + exists s. split; [|exact H2]. apply lookup_app_l_Some, H1.
  - intros t m k d Ht Hin. rewrite Hs, length_app. simpl.
    destruct (Hm t m k d Ht Hin) as [->|(m0 & Hm0 & Hin0)]; [lia|].
    specialize (Hmap t m0 k d Hm0 Hin0). lia.
  - intros x. rewrite Hst, He. apply Hstack.
Qed.

Lemma getDep_consistent (target : nat) (key : option PropKey) (st : State) :
  consistent st →
  consistent (getDep target key st).2 ∧
  (getDep target key st).1 < length (sets (getDep target key st).2) ∧
  effects (getDep target key st).2 = effects st ∧
  activeReactiveEffectStack (getDep target key st).2 = activeReactiveEffectStack st.
Proof.
  intros Hc. unfold getDep, getDepsMap.
  destruct (targetMap st !! target) as [m|] eqn:Hm.
  - destruct (map_get key m) as [dep|] eqn:Hk; simpl.
    + split; [exact Hc|]. split; [|split; reflexivity].
      destruct Hc as [_ [Hmap _]]. eapply Hmap; [exact Hm|]. apply map_get_elem_of, Hk.
    + split; [|split; [|split; reflexivity]].
      * revert Hc. apply consistent_new_set; try reflexivity.
        intros t m' k d. simpl. rewrite lookup_insert. case_decide as Ht.
        -- intros [= <-] Hin. apply elem_of_map_set in Hin as [[= -> ->]|Hin]; [left; reflexivity|].
           right. subst. eauto.
        -- intros Ht' Hin. right. eauto.
      * rewrite length_app. simpl. lia.
  - simpl. split; [|split; [|split; reflexivity]].
    + revert Hc. apply consistent_new_set; try reflexivity.
      intros t m' k d. simpl. rewrite !lookup_insert. case_decide as Ht.
      * intros [= <-] Hin. apply list_elem_of_singleton in Hin as [= -> ->]. left. reflexivity.
      * intros Ht' Hin. right. eauto.
    + rewrite length_app. simpl. lia.
Qed.

Lemma consistent_subscribe (dep e : nat) (st : State) :
  consistent st → dep < length (sets st) → e < length (effects st) →
  consistent (subscribe dep e st).
Proof.
  intros [Hagree [Hmap Hstack]] Hdep He.
  apply lookup_lt_is_Some in Hdep as [s0 Hs0]. apply lookup_lt_is_Some in He as [er0 Her0].
  split; [|split].
  - intros x d. unfold member, in_deps, subscribe, update_effect. simpl.
    specialize (Hagree x d). unfold member, in_deps in Hagree.
    destruct (decide (dep = d)) as [->|Hd]; destruct (decide (e = x)) as [->|Hx].
    + rewrite !list_lookup_alter_eq, Hs0, Her0. simpl. split.
      * intros _. eexists. split; [reflexivity|]. simpl.
        apply elem_of_app. right. apply list_elem_of_here.
      * intros _. eexists. split; [reflexivity|]. apply elem_of_set_add. auto.
    + rewrite list_lookup_alter_eq, Hs0, list_lookup_alter_ne by exact Hx. simpl.
      rewrite <- Hagree. split.
      * intros (s & [= <-] & H). apply elem_of_set_add in H as [->|H]; [congruence|eauto].
      * intros (s & Hs & H). rewrite Hs0 in Hs. injection Hs as <-.
        eexists. split; [reflexivity|]. apply elem_of_set_add. auto.
    + rewrite list_lookup_alter_ne by exact Hd. rewrite list_lookup_alter_eq, Her0. simpl.
      rewrite Hagree. split.
      * intros (er & Her & H). rewrite Her0 in Her. injection Her as <-.
        eexists. split; [reflexivity|]. simpl. apply elem_of_app. auto.
      * intros (er & [= <-] & H). simpl in H. apply elem_of_app in H as [H|H].
        -- eauto.
        -- apply list_elem_of_singleton in H. congruence.
    + rewrite !list_lookup_alter_ne by assumption. exact Hagree.
  - intros t m k d. simpl. rewrite length_alter. apply Hmap.
  - intros x. simpl. rewrite length_alter. apply Hstack.
Qed.

Lemma forward_consistent (parent : nat) (ds : list nat) (st : State) :
  consistent st → parent < length (effects st) →
  (∀ d, d ∈ ds → d < length (sets st)) →
  consistent (foldl (λ s dep, if negb (dep_has dep parent s)
                              then subscribe dep parent s else s) st ds).
Proof.
  revert st. induction ds as [|d ds IH]; intros st Hc Hp Hds; simpl; [exact Hc|].
  apply IH.
  - destruct (dep_has d parent st); simpl; [exact Hc|].
    apply consistent_subscribe; [exact Hc| |exact Hp]. apply Hds, list_elem_of_here.
  - destruct (dep_has d parent st); simpl; [exact Hp|]. rewrite length_alter. exact Hp.
  - intros d' Hd'. destruct (dep_has d parent st); simpl; rewrite ?length_alter;
      apply Hds, list_elem_of_further, Hd'.
Qed.

Lemma consistent_trackChildRun (child : nat) (st : State) :
  consistent st → consistent (Computed.trackChildRun child st).
Proof.
  intros Hc. unfold Computed.trackChildRun.
  destruct (last (activeReactiveEffectStack st)) as [parent|] eqn:Hlast; [|exact Hc].
  destruct (effects st !! child) as [cr|] eqn:Hcr; [|exact Hc].
  apply forward_consistent; [exact Hc| |].
  - destruct Hc as [_ [_ Hstack]]. apply Hstack.
    apply last_Some in Hlast as [l' ->]. apply elem_of_app. right. apply list_elem_of_here.
  - intros d Hd. destruct Hc as [Hagree _].
    destruct (proj2 (Hagree child d)) as (s & Hs & _); [exists cr; auto|].
    apply lookup_lt_Some in Hs. exact Hs.
Qed.

Lemma consistent_createReactiveEffect (fn : list value → prog)
    (options : ReactiveEffectOptions prog) (st : State) :
  consistent st → consistent (createReactiveEffect fn options st).2.
Proof.
  intros [Hagree [Hmap Hstack]]. split; [|split].
  - intros x d.
    change (member st x d ↔ in_deps (createReactiveEffect fn options st).2 x d).
    rewrite (Hagree x d). unfold in_deps. simpl. split.
    + intros (er & Her & Hd).
      exists er. split; [apply lookup_app_l_Some, Her|exact Hd].
    + intros (er & Her & Hd).
      destruct (decide (x < length (effects st))) as [Hlt|Hge].
      * rewrite lookup_app_l in Her by exact Hlt. exists er. auto.
      * rewrite lookup_app_r in Her by lia.
        destruct (x - length (effects st)) as [|n]; simpl in Her.
        -- injection Her as <-. simpl in Hd. apply elem_of_nil in Hd. destruct Hd.
        -- rewrite lookup_nil in Her. discriminate Her.
  - exact Hmap.
  - intros x Hx. simpl. rewrite length_app. specialize (Hstack x Hx). lia.
Qed.

Lemma consistent_deactivate (e : nat) (st : State) :
  consistent st → consistent (update_effect e (set_active false) st).
Proof.
  intros [Hagree [Hmap Hstack]]. split; [|split].
  - intros x d.
    change (member st x d ↔ in_deps (update_effect e (set_active false) st) x d).
    rewrite (Hagree x d). unfold in_deps, update_effect. simpl.
    destruct (decide (e = x)) as [->|Hne].
    + rewrite list_lookup_alter_eq. destruct (effects st !! x) as [er|]; simpl.
      * split; intros (er' & [= <-] & H); eexists; split; try reflexivity; exact H.
      * split; intros (er' & [=] & _).
    + rewrite list_lookup_alter_ne by exact Hne. reflexivity.
  - exact Hmap.
  - intros x. simpl. rewrite length_alter. apply Hstack.
Qed.

Lemma createReactiveObject_graph (v : value) (toProxy toRaw : WeakMapName)
    (h1 h2 : Handlers) (st : State) :
  let st' := (createReactiveObject v toProxy toRaw h1 h2 st).2 in
  effects st' = effects st ∧ sets st' = sets st ∧
  activeReactiveEffectStack st' = activeReactiveEffectStack st ∧
  computeds st' = computeds st ∧ fnCalls st' = fnCalls st ∧
  (targetMap st' = targetMap st ∨ ∃ t, targetMap st' = <[t := []]> (targetMap st)).
Proof.
  unfold createReactiveObject.
  destruct v; simpl; try (destruct (__DEV__ st); repeat split; left; reflexivity).
  destruct (wm_get toProxy (tables st) !! r); [repeat split; left; reflexivity|].
  destruct (bool_decide (is_Some (wm_get toRaw (tables st) !! r)));
    [repeat split; left; reflexivity|].
  destruct (canObserve st r); [|repeat split; left; reflexivity]. simpl.
  destruct (objects st !! r); [|repeat split; left; reflexivity]. simpl.
  destruct (bool_decide (is_Some (targetMap st !! r)));
    repeat split; [left; reflexivity|right; eexists; reflexivity].
Qed.

Lemma consistent_createReactiveObject (v : value) (toProxy toRaw : WeakMapName)
    (h1 h2 : Handlers) (st : State) :
  consistent st → consistent (createReactiveObject v toProxy toRaw h1 h2 st).2.
Proof.
  intros Hc.
  destruct (createReactiveObject_graph v toProxy toRaw h1 h2 st)
    as (He & Hs & Hst & _ & _ & [Hm|[t Hm]]).
  - revert Hc. apply consistent_frame; assumption.
  - destruct Hc as [Hagree [Hmap Hstack]]. split; [|split].
    + intros x d. unfold member, in_deps. rewrite He, Hs. apply Hagree.
    + intros t' m k d. rewrite Hm, Hs, lookup_insert. case_decide.
      * intros [= <-] Hin. apply elem_of_nil in Hin. destruct Hin.
      * apply Hmap.
    + intros x. rewrite Hst, He. apply Hstack.
Qed.

Lemma consistent_readonly (v : value) (st : State) :
  consistent st → consistent (readonly v st).2.
Proof. unfold readonly. apply consistent_createReactiveObject. Qed.

Lemma consistent_reactive (v : value) (st : State) :
  consistent st → consistent (reactive v st).2.
Proof.
  intros Hc. unfold reactive. destruct (wm_has _ _ _); [exact Hc|].
  destruct (ws_has _ _); [apply consistent_readonly, Hc|].
  apply consistent_createReactiveObject, Hc.
Qed.

Lemma do_op_consistent (ex : Exec) :
  (∀ p, preserves consistent (ex p)) → ∀ op, preserves consistent (do_op ex op).
Proof.
  intros Hex op.
  apply (do_op_preserves (λ (_ : unit) s, consistent s) (λ _, True) ex (λ _, Hex));
    [clear..|exact tt|intros; exact Logic.I].
  - intros _ e er st H _ _. exact H.
  - intros _ e st. apply consistent_cleanup.
  - intros a e er st H Her _ _. exists a. split.
    + apply consistent_cleanup with (e := e) in H.
      destruct H as [Hagree [Hmap Hstack]]. split; [exact Hagree|]. split; [exact Hmap|].
      intros x Hx. simpl in Hx |- *. apply elem_of_app in Hx as [Hx|Hx]; [apply Hstack, Hx|].
      apply list_elem_of_singleton in Hx as ->.
      apply lookup_lt_Some in Her. unfold cleanup.
      destruct (effects st !! e) as [er'|]; [|exact Her].
      destruct (deps er'); [exact Her|]. simpl. rewrite length_alter. exact Her.
    + intros st3 [Hagree [Hmap Hstack]]. split; [exact Hagree|]. split; [exact Hmap|].
      intros x Hx. simpl in Hx |- *. apply Hstack.
      destruct (activeReactiveEffectStack st3) as [|y l] using rev_ind;
        [exact Hx|]. rewrite removelast_last in Hx. apply elem_of_app. auto.
  - intros _ target key e er st H Hlast Her.
    destruct (getDep_consistent target key st H) as (H1 & Hdep & Heff & _).
    split; [exact H1|]. intros _.
    apply consistent_subscribe; [exact H1|exact Hdep|].
    rewrite Heff. apply lookup_lt_Some in Her. exact Her.
  - intros _ e st. apply consistent_deactivate.
  - intros _ fn options st. apply consistent_createReactiveEffect.
  - intros _ c st H. exact H.
  - intros _ c v st _ H. exact H.
  - intros _ child st. apply consistent_trackChildRun.
  - intros _ c r s st H. exact H.
  - intros _ v st. apply consistent_reactive.
  - intros _ v st. apply consistent_readonly.
  - intros _ v st H. destruct v; exact H.
  - intros _ v st H. destruct v; exact H.
  - intros _ o st H. exact H.
  - intros _ m st H. exact H.
  - intros _ b st H. exact H.
Qed.

Lemma exec_consistent (fuel : nat) (p : prog) : preserves consistent (exec fuel p).
Proof.
  apply (exec_preserves (λ (_ : unit) s, consistent s) (A := unit)); [|exact tt].
  intros ex Hex _ op. apply do_op_consistent. intros p'. apply (Hex tt).
Qed.

(** Every state reached from the initial one satisfies the invariant. *)
Lemma reachable_consistent (dev : bool) (fuel : nat) (p : prog) :
  consistent (exec fuel p (initial_state dev)).2.
Proof. apply exec_consistent, consistent_initial. Qed.

Lemma set_add_member (e : nat) (s : list nat) : e ∈ s → set_add e s = s.
Proof. intros H. unfold set_add, set_has. rewrite bool_decide_true by exact H. reflexivity. Qed.

(** C4: in the initial state, and after every operation run from a state
    where it holds ([OpTrack], [OpTrigger], [OpCall] (an effect run),
    [OpStop], [OpGetValue] (a derived-value read) and all others, with
    whatever user code they call back), an effect is a member of a Set
    exactly when the Set is in its [deps]; and adding an effect to a Set
    that holds it changes neither the Set nor the state. *)
Theorem deps_agree_with_sets (fuel : nat) (op : Op prog) (st : State) :
  consistent st →
  (∀ e d, member (do_op (exec fuel) op st).2 e d ↔ in_deps (do_op (exec fuel) op st).2 e d) ∧
  consistent (do_op (exec fuel) op st).2 ∧
  (∀ p e d, member (exec fuel p st).2 e d ↔ in_deps (exec fuel p st).2 e d) ∧
  (∀ e d s, sets st !! d = Some s → e ∈ s →
     set_add e s = s ∧ alter (set_add e) d (sets st) = sets st).
Proof.
  intros Hc.
  assert (H1 : consistent (do_op (exec fuel) op st).2).
  { apply do_op_consistent; [|exact Hc]. intros p. apply exec_consistent. }
  split; [apply H1|]. split; [exact H1|]. split.
  - intros p. apply (exec_consistent fuel p st Hc).
  - intros e d s Hs He. split; [apply set_add_member, He|].
    apply list_eq. intros i. destruct (decide (d = i)) as [->|Hne].
    + rewrite list_lookup_alter_eq, Hs. simpl. rewrite set_add_member by exact He. reflexivity.
    + apply list_lookup_alter_ne, Hne.
Qed.

Lemma deps_agree_with_sets_witness :
  let st := (do_op (exec 5) (OpEffect (FnPlain reading_fn) plain_options) (initial_state true)).2 in
  (member st 0 0 ∧ in_deps st 0 0) ∧
  (∀ e d, member st e d ↔ in_deps st e d).
Proof.
  split.
  - split.
    + exists [0]. split; [reflexivity|apply list_elem_of_here].
    + eexists. split; [reflexivity|]. apply list_elem_of_here.
  - apply (deps_agree_with_sets 5 (OpEffect (FnPlain reading_fn) plain_options)
             (initial_state true) (consistent_initial true)).
Defined.

(** ** The closure variables of a computed object *)

Section ComputedVariables.
Context (c : nat) (Q : ComputedState → Prop) (readable : nat → Prop).
Hypothesis Q_mark : ∀ cs,
  Q cs → Q {| dirty := true; cvalue := cvalue cs; runner := runner cs; setter := setter cs |}.
Hypothesis Q_new : ∀ r s,
  Q {| dirty := true; cvalue := VUndefined; runner := r; setter := s |}.
Hypothesis Q_store : ∀ v cs,
  readable c → Q cs →
  Q {| dirty := false; cvalue := v; runner := runner cs; setter := setter cs |}.

Lemma computed_satisfies_frame (st st' : State) :
  computeds st' = computeds st → computed_satisfies c Q st → computed_satisfies c Q st'.
Proof. unfold computed_satisfies. intros ->. auto. Qed.

Lemma computed_satisfies_outside (st st' : State) :
  same_outside_graph st st' → computed_satisfies c Q st → computed_satisfies c Q st'.
Proof. intros (_ & Hc & _). apply computed_satisfies_frame, Hc. Qed.

Lemma do_op_computed_satisfies (ex : Exec) (op : Op prog) :
  (∀ p, preserves (computed_satisfies c Q) (ex p)) →
  (∀ c', op = OpGetValue c' → c' = c → readable c) →
  preserves (computed_satisfies c Q) (do_op ex op).
Proof.
  intros Hex Hread.
  apply (do_op_preserves (λ (_ : unit) s, computed_satisfies c Q s)
           (λ c', c' = c → readable c) ex (λ _, Hex));
    [clear Hread op..|exact tt|exact Hread].
  - intros _ e er st H _ _. exact H.
  - intros _ e st. apply computed_satisfies_outside, cleanup_outside.
  - intros a e er st H _ _ _. exists a. split.
    + apply (computed_satisfies_frame (cleanup e st)); [reflexivity|].
      revert H. apply computed_satisfies_outside, cleanup_outside.
    + intros st3. apply computed_satisfies_frame. reflexivity.
  - intros _ target key e er st H _ _.
    assert (H1 : computed_satisfies c Q (getDep target key st).2)
      by (revert H; apply computed_satisfies_outside, getDep_outside).
    split; [exact H1|]. intros _. exact H1.
  - intros _ e st H. exact H.
  - intros _ fn options st H. exact H.
  - intros _ c' st (cs & Hcs & HQ). unfold computed_satisfies, mark_dirty. simpl.
    destruct (decide (c' = c)) as [->|Hne].
    + rewrite lookup_alter_eq, Hcs. simpl. eexists. split; [reflexivity|]. apply Q_mark, HQ.
    + rewrite lookup_alter_ne by exact Hne. eauto.
  - intros _ c' v st Hc' (cs & Hcs & HQ). unfold computed_satisfies, Computed.store_value.
    simpl. destruct (decide (c' = c)) as [->|Hne].
    + rewrite lookup_alter_eq, Hcs. simpl. eexists. split; [reflexivity|].
      apply Q_store; [apply Hc'; reflexivity|exact HQ].
    + rewrite lookup_alter_ne by exact Hne. eauto.
  - intros _ child st. apply computed_satisfies_outside, trackChildRun_outside.
  - intros _ c' r s st (cs & Hcs & HQ). unfold computed_satisfies. simpl.
    destruct (decide (c' = c)) as [->|Hne].
    + rewrite lookup_insert_eq. eexists. split; [reflexivity|]. apply Q_new.
    + rewrite lookup_insert_ne by exact Hne. eauto.
  - intros _ v st. apply computed_satisfies_frame. unfold reactive.
    destruct (wm_has _ _ _); [reflexivity|].
    destruct (ws_has _ _); [unfold readonly|]; apply createReactiveObject_graph.
  - intros _ v st. apply computed_satisfies_frame. unfold readonly.
    apply createReactiveObject_graph.
  - intros _ v st H. destruct v; exact H.
  - intros _ v st H. destruct v; exact H.
  - intros _ o st H. exact H.
  - intros _ m st H. exact H.
  - intros _ b st H. exact H.
Qed.

End ComputedVariables.

(** A computed object, once created, exists in every later state. *)
Lemma exec_keeps_computed (c : nat) (fuel : nat) (p : prog) :
  preserves (computed_satisfies c (λ _, True)) (exec fuel p).
Proof.
  apply (exec_preserves (λ (_ : unit) s, computed_satisfies c (λ _, True) s) (A := unit));
    [|exact tt].
  intros ex Hex _ op.
  apply (do_op_computed_satisfies c (λ _, True) (λ _, True)); auto.
  intros p'. apply (Hex tt).
Qed.

Lemma call_effect_keeps_computed (c : nat) (fuel : nat) (e : nat) (args : list value) :
  preserves (computed_satisfies c (λ _, True)) (call_effect (exec fuel) e args).
Proof.
  change (preserves (computed_satisfies c (λ _, True)) (do_op (exec fuel) (OpCall e args))).
  apply (do_op_computed_satisfies c (λ _, True) (λ _, True)); auto.
  intros p. apply exec_keeps_computed.
Qed.

Lemma get_value_clean (ex : Exec) (c : nat) (cs : ComputedState) (st : State) :
  computeds st !! c = Some cs → dirty cs = false →
  Computed.get_value ex c st = (Normal (cvalue cs), Computed.trackChildRun (runner cs) st).
Proof.
  intros Hcs Hd. unfold Computed.get_value. rewrite Hcs, Hd.
  unfold bind, ret, modify. simpl.
  destruct (trackChildRun_outside (runner cs) st) as (_ & -> & _).
  rewrite Hcs. reflexivity.
Qed.

(** ** A cached value and the operations that leave it alone *)

Lemma same_computeds_refl (st : State) : same_computeds st st.
Proof. split; [reflexivity|]. split; [lia|]. eauto. Qed.

Lemma same_computeds_trans (st1 st2 st3 : State) :
  same_computeds st1 st2 → same_computeds st2 st3 → same_computeds st1 st3.
Proof.
  intros (H1 & H2 & H3) (H4 & H5 & H6). split; [congruence|]. split; [lia|].
  intros e er He. destruct (H3 e er He) as (er2 & He2 & Hs2).
  destruct (H6 e er2 He2) as (er3 & He3 & Hs3). exists er3. split; [exact He3|congruence].
Qed.

Lemma same_computeds_frame (st st' : State) :
  computeds st' = computeds st → objects st' = objects st → effects st' = effects st →
  same_computeds st st'.
Proof. intros H1 H2 H3. split; [exact H1|]. rewrite H2, H3. split; [lia|eauto]. Qed.

Lemma same_computeds_alter (e : nat) (f : ReactiveEffect → ReactiveEffect) (st st' : State) :
  (∀ er, scheduler (f er) = scheduler er) →
  computeds st' = computeds st → objects st' = objects st →
  effects st' = alter f e (effects st) →
  same_computeds st st'.
Proof.
  intros Hf H1 H2 H3. split; [exact H1|]. rewrite H2, H3. split; [lia|].
  intros x er Hx. destruct (decide (e = x)) as [->|Hne].
  - rewrite list_lookup_alter_eq, Hx. simpl. eauto.
  - rewrite list_lookup_alter_ne by exact Hne. eauto.
Qed.

Lemma same_computeds_cleanup (e : nat) (st : State) : same_computeds st (cleanup e st).
Proof.
  unfold cleanup. destruct (effects st !! e) as [er|]; [|apply same_computeds_refl].
  destruct (deps er); [apply same_computeds_refl|].
  apply (same_computeds_alter e (set_deps [])); reflexivity.
Qed.

Lemma same_computeds_subscribe (dep e : nat) (st : State) :
  same_computeds st (subscribe dep e st).
Proof.
  apply (same_computeds_alter e (λ er, set_deps (deps er ++ [dep]) er)); reflexivity.
Qed.

Lemma same_computeds_getDep (target : nat) (key : option PropKey) (st : State) :
  same_computeds st (getDep target key st).2.
Proof.
  destruct (getDep_outside target key st) as (Ho & Hc & _).
  apply same_computeds_frame; [exact Hc|exact Ho|].
  unfold getDep, getDepsMap. destruct (targetMap st !! target) as [m|].
  - destruct (map_get key m); reflexivity.
  - reflexivity.
Qed.

Lemma same_computeds_trackChildRun (child : nat) (st : State) :
  same_computeds st (Computed.trackChildRun child st).
Proof.
  unfold Computed.trackChildRun.
  destruct (last (activeReactiveEffectStack st)) as [parent|];
    [|apply same_computeds_refl].
  destruct (effects st !! child) as [cr|]; [|apply same_computeds_refl].
  generalize (deps cr). intros ds. revert st.
  induction ds as [|d ds IH]; intros st; simpl; [apply same_computeds_refl|].
  eapply same_computeds_trans; [|apply IH].
  destruct (dep_has d parent st); simpl;
    [apply same_computeds_refl|apply same_computeds_subscribe].
Qed.

Lemma same_computeds_createReactiveEffect (fn : list value → prog)
    (options : ReactiveEffectOptions prog) (st : State) :
  same_computeds st (createReactiveEffect fn options st).2.
Proof.
  split; [reflexivity|]. split; [reflexivity|].
  intros e er He. exists er. split; [|reflexivity].
  simpl. apply lookup_app_l_Some, He.
Qed.

Lemma objects_createReactiveObject (v : value) (toProxy toRaw : WeakMapName)
    (h1 h2 : Handlers) (st : State) :
  length (objects st) ≤ length (objects (createReactiveObject v toProxy toRaw h1 h2 st).2).
Proof.
  unfold createReactiveObject.
  destruct v; simpl; try (destruct (__DEV__ st); simpl; lia).
  destruct (wm_get toProxy (tables st) !! r); [simpl; lia|].
  destruct (bool_decide _); [simpl; lia|].
  destruct (canObserve st r); [|simpl; lia]. simpl.
  destruct (objects st !! r); [|simpl; lia]. simpl.
  destruct (bool_decide _); simpl; rewrite length_app; simpl; lia.
Qed.

Lemma same_computeds_createReactiveObject (v : value) (toProxy toRaw : WeakMapName)
    (h1 h2 : Handlers) (st : State) :
  same_computeds st (createReactiveObject v toProxy toRaw h1 h2 st).2.
Proof.
  destruct (createReactiveObject_graph v toProxy toRaw h1 h2 st) as (He & _ & _ & Hc & _).
  split; [exact Hc|]. split; [apply objects_createReactiveObject|].
  rewrite He. eauto.
Qed.

Lemma same_computeds_readonly (v : value) (st : State) :
  same_computeds st (readonly v st).2.
Proof. unfold readonly. apply same_computeds_createReactiveObject. Qed.

Lemma same_computeds_reactive (v : value) (st : State) :
  same_computeds st (reactive v st).2.
Proof.
  unfold reactive. destruct (wm_has _ _ _); [apply same_computeds_refl|].
  destruct (ws_has _ _);
    [apply same_computeds_readonly|apply same_computeds_createReactiveObject].
Qed.

Lemma same_computeds_ws_add (upd : nat → ProxyTables → ProxyTables) (v : value)
    (st : State) :
  same_computeds st (ws_add upd v st).2.
Proof. destruct v; apply same_computeds_frame; reflexivity. Qed.

Lemma leaves_clean_same (c : nat) (st st' : State) (e : nat) :
  same_computeds st st' → leaves_clean c st e = true → leaves_clean c st' e = true.
Proof.
  intros (_ & _ & Hs). unfold leaves_clean.
  destruct (effects st !! e) as [er|] eqn:He; [|discriminate].
  destruct (Hs e er He) as (er' & -> & ->). auto.
Qed.

Section CachedValue.
Context (c : nat) (v : value).

Lemma cached_beside_same (l : list nat) (st st' : State) :
  same_computeds st st' → cached_beside c v l st → cached_beside c v l st'.
Proof.
  intros Hs [[Hlt (cs & Hcs & Hq)] Hl]. split; [split|].
  - destruct Hs as (_ & Hle & _). lia.
  - exists cs. destruct Hs as (-> & _). auto.
  - intros e He. apply (leaves_clean_same c st); auto.
Qed.

Lemma cached_beside_other (l : list nat) (c' : nat)
    (f : ComputedState → ComputedState) (st : State) :
  c' ≠ c → cached_beside c v l st →
  cached_beside c v l (set_computeds (alter f c' (computeds st)) st).
Proof.
  intros Hne [[Hlt (cs & Hcs & Hq)] Hl]. split; [split|].
  - exact Hlt.
  - exists cs. simpl. rewrite lookup_alter_ne by exact Hne. auto.
  - exact Hl.
Qed.

Lemma cached_beside_weaken (l l' : list nat) (st : State) :
  (∀ e, e ∈ l → e ∈ l') → cached_beside c v l' st → cached_beside c v l st.
Proof. intros Hsub [Hc Hl]. split; auto. Qed.

Context (ex : Exec).
Hypothesis Hex : ∀ l p, preserves (cached_beside c v l) (ex p).

Lemma cached_call_inactive (l : list nat) (e : nat) (er : ReactiveEffect) (st : State) :
  cached_beside c v l st → effects st !! e = Some er → active er = false →
  cached_beside c v l (set_fnCalls (fnCalls st ++ [e]) st).
Proof.
  intros H _ _. revert H. apply cached_beside_same, same_computeds_frame; reflexivity.
Qed.

Lemma cached_enter (l : list nat) (e : nat) (er : ReactiveEffect) (st : State) :
  cached_beside c v l st → effects st !! e = Some er → active er = true →
  e ∉ activeReactiveEffectStack st →
  ∃ l', cached_beside c v l'
          (set_fnCalls (fnCalls (cleanup e st) ++ [e])
             (set_stack (activeReactiveEffectStack (cleanup e st) ++ [e]) (cleanup e st))) ∧
        ∀ st3, cached_beside c v l' st3 →
               cached_beside c v l (set_stack (removelast (activeReactiveEffectStack st3)) st3).
Proof.
  intros H _ _ _. exists l. split.
  - apply (cached_beside_same l (cleanup e st));
      [apply same_computeds_frame; reflexivity|].
    revert H. apply cached_beside_same, same_computeds_cleanup.
  - intros st3. apply cached_beside_same, same_computeds_frame; reflexivity.
Qed.

Lemma call_effect_cached (l : list nat) (e : nat) (args : list value) :
  preserves (cached_beside c v l) (call_effect ex e args).
Proof.
  apply (call_effect_preserves (cached_beside c v) ex Hex cached_call_inactive cached_enter).
Qed.

Lemma track_cached (l : list nat) (target : nat) (type : OperationTypes)
    (key : option PropKey) :
  preserves (cached_beside c v l) (track ex target type key).
Proof.
  apply (track_preserves (cached_beside c v) ex Hex).
  intros a t k e er st H _ _.
  assert (H1 : cached_beside c v a (getDep t k st).2)
    by (revert H; apply cached_beside_same, same_computeds_getDep).
  split; [exact H1|]. intros _. revert H1.
  apply cached_beside_same, same_computeds_subscribe.
Qed.

Lemma effect_cached (l : list nat) (fn : FnArg prog) (options : ReactiveEffectOptions prog) :
  preserves (cached_beside c v l) (effect ex fn options).
Proof.
  apply (effect_preserves (cached_beside c v) ex Hex cached_call_inactive cached_enter).
  intros a f o st. apply cached_beside_same, same_computeds_createReactiveEffect.
Qed.

Lemma stop_cached (l : list nat) (e : nat) : preserves (cached_beside c v l) (stop ex e).
Proof.
  apply (stop_preserves (cached_beside c v) ex Hex).
  - intros a x st. apply cached_beside_same, same_computeds_cleanup.
  - intros a x st. apply cached_beside_same.
    apply (same_computeds_alter x (set_active false)); reflexivity.
Qed.

(** [scheduleRun] of an effect whose scheduler is not the one of [c]. *)
Lemma scheduleRun_cached (l : list nat) (e target : nat) (type : OperationTypes)
    (key : option PropKey) (extraInfo : option value) (st : State) :
  e ∈ l → cached_beside c v l st →
  cached_beside c v l (scheduleRun ex e target type key extraInfo st).2.
Proof.
  intros He H. pose proof (proj2 H e He) as Hclean.
  unfold leaves_clean in Hclean. unfold scheduleRun.
  destruct (effects st !! e) as [er|]; [|exact H].
  apply (preserves_bind (cached_beside c v)); [| |exact H].
  - destruct (__DEV__ st); [|apply (preserves_ret (cached_beside c v))].
    destruct (onTrigger er); [|apply (preserves_ret (cached_beside c v))].
    apply (preserves_discard (cached_beside c v)), Hex.
  - intros _. destruct (scheduler er) as [[f|c']|].
    + apply (preserves_discard (cached_beside c v)), Hex.
    + apply bool_decide_eq_true in Hclean.
      apply (preserves_modify (cached_beside c v)). intros st'.
      apply cached_beside_other, Hclean.
    + apply (preserves_discard (cached_beside c v)), call_effect_cached.
Qed.

Lemma forEach_scheduleRun_cached (l rs : list nat) (target : nat) (type : OperationTypes)
    (key : option PropKey) (extraInfo : option value) :
  (∀ e, e ∈ rs → e ∈ l) →
  preserves (cached_beside c v l)
    (forEach (λ e, scheduleRun ex e target type key extraInfo) rs).
Proof.
  induction rs as [|e rs IH]; intros Hsub; simpl.
  - apply (preserves_ret (cached_beside c v)).
  - apply (preserves_bind (cached_beside c v)).
    + intros st. apply scheduleRun_cached, Hsub, list_elem_of_here.
    + intros _. apply IH. intros x Hx. apply Hsub, list_elem_of_further, Hx.
Qed.

(** A [trigger] that is no trigger of a dependency of [c]. *)
Lemma trigger_cached (l : list nat) (target : nat) (type : OperationTypes)
    (key : option PropKey) (extraInfo : option value) (st : State) :
  invalidates c (OpTrigger target type key extraInfo) st = false →
  cached_beside c v l st →
  cached_beside c v l (trigger ex target type key extraInfo st).2.
Proof.
  intros Hguard H. unfold invalidates in Hguard. unfold trigger.
  destruct (targetMap st !! target) as [depsMap|]; [|exact H].
  apply negb_false_iff in Hguard.
  destruct (collectRunners st depsMap target type key) as [effs comps].
  simpl in Hguard.
  assert (Hall : ∀ e, e ∈ comps ++ effs → leaves_clean c st e = true).
  { intros e He. rewrite forallb_forall in Hguard. apply Hguard.
    apply list_elem_of_In, He. }
  apply (cached_beside_weaken l (l ++ comps ++ effs));
    [intros e He; apply elem_of_app; auto|].
  apply (preserves_bind (cached_beside c v)).
  - apply forEach_scheduleRun_cached. intros e He.
    apply elem_of_app. right. apply elem_of_app. auto.
  - intros _. apply forEach_scheduleRun_cached. intros e He.
    apply elem_of_app. right. apply elem_of_app. auto.
  - destruct H as [Hc Hl]. split; [exact Hc|].
    intros e He. apply elem_of_app in He as [He|He]; auto.
Qed.

(** [computed] makes a new object and leaves the others alone. *)
Lemma computed_cached (l : list nat) (arg : ComputedArg prog) :
  preserves (cached_beside c v l) (Computed.computed ex arg).
Proof.
  intros st H. unfold Computed.computed.
  assert (Hlt : c < length (objects st)) by apply H.
  match goal with |- context [effect ex ?g ?o st] =>
    pose proof (effect_cached l g o st H) as He;
    destruct (effect ex g o st) as [[r| |] st1]
  end; simpl in *; try exact He.
  destruct r; try exact He. simpl.
  destruct He as [[Hlt1 (cs & Hcs & Hq)] Hl]. split; [split|].
  - simpl. rewrite length_app. lia.
  - exists cs. simpl. rewrite lookup_insert_ne by lia. auto.
  - exact Hl.
Qed.

(** A read of [c] itself finds the cached value; a read of another
    computed object stores into that one. *)
Lemma get_value_cached (l : list nat) (c' : nat) :
  preserves (cached_beside c v l) (Computed.get_value ex c').
Proof.
  destruct (decide (c' = c)) as [->|Hne].
  - intros st H. destruct H as [[Hlt (cs & Hcs & Hd & Hv)] Hl].
    rewrite (get_value_clean ex c cs st Hcs Hd). simpl.
    apply (cached_beside_same l st); [apply same_computeds_trackChildRun|].
    split; [split; [exact Hlt|exists cs; auto]|exact Hl].
  - apply (get_value_preserves (cached_beside c v) (λ x, x ≠ c) ex Hex
             cached_call_inactive cached_enter); [| |exact Hne].
    + intros a x w st Hx. apply cached_beside_other, Hx.
    + intros a child st. apply cached_beside_same, same_computeds_trackChildRun.
Qed.

Lemma do_op_cached (l : list nat) (op : Op prog) (st : State) :
  invalidates c op st = false →
  cached_beside c v l st → cached_beside c v l (do_op ex op st).2.
Proof.
  intros Hguard H. destruct op; simpl.
  - apply track_cached, H.
  - apply trigger_cached; assumption.
  - apply effect_cached, H.
  - apply call_effect_cached, H.
  - apply stop_cached, H.
  - revert H. apply cached_beside_same, same_computeds_frame; reflexivity.
  - revert H. apply cached_beside_same, same_computeds_frame; reflexivity.
  - apply computed_cached, H.
  - apply get_value_cached, H.
  - apply (set_value_preserves (cached_beside c v) ex Hex), H.
  - revert H. unfold lift. destruct (reactive v0 st) as [r st1] eqn:E.
    change st1 with (r, st1).2. rewrite <- E.
    apply cached_beside_same, same_computeds_reactive.
  - revert H. unfold lift. destruct (readonly v0 st) as [r st1] eqn:E.
    change st1 with (r, st1).2. rewrite <- E.
    apply cached_beside_same, same_computeds_readonly.
  - revert H. apply cached_beside_same, same_computeds_ws_add.
  - revert H. apply cached_beside_same, same_computeds_ws_add.
  - revert H. apply cached_beside_same. split; [reflexivity|].
    split; [simpl; rewrite length_app; lia|eauto].
  - exact H.
  - revert H. apply cached_beside_same, same_computeds_frame; reflexivity.
Qed.

End CachedValue.

(** A run that meets no trigger of a dependency of [c] keeps the cached
    value of [c], whatever else it does and however it ends. *)
Lemma exec_undisturbed_cached (c : nat) (v : value) (fuel : nat) :
  ∀ l p, preserves (cached_beside c v l) (exec_undisturbed c fuel p).
Proof.
  induction fuel as [|n IH]; intros l p st H; simpl; [exact H|].
  destruct p as [w|w|op k]; try exact H.
  destruct (invalidates c op st) eqn:Hguard; [exact H|].
  pose proof (do_op_cached c v (exec_undisturbed c n) IH l op st Hguard H) as Hop.
  unfold bind. destruct (do_op (exec_undisturbed c n) op st) as [[w| |] st1];
    simpl in *; try exact Hop.
  apply IH, Hop.
Qed.

Lemma get_value_returns_cached (fuel : nat) (c : nat) (st st1 : State) (v : value) :
  Computed.get_value (exec fuel) c st = (Normal v, st1) →
  ∃ cs1, computeds st1 !! c = Some cs1 ∧ dirty cs1 = false ∧ cvalue cs1 = v.
Proof.
  intros Hread. unfold Computed.get_value in Hread.
  destruct (computeds st !! c) as [cs|] eqn:Hcs; [|discriminate Hread].
  unfold bind, ret, modify in Hread. destruct (dirty cs) eqn:Hd.
  - pose proof (call_effect_keeps_computed c fuel (runner cs) [] st) as Hkeep.
    destruct (call_effect (exec fuel) (runner cs) [] st) as [[v0| |] sta];
      try discriminate Hread.
    destruct Hkeep as (csa & Hcsa & _); [exists cs; auto|]. simpl in Hcsa, Hread.
    destruct (trackChildRun_outside (runner cs) (Computed.store_value c v0 sta))
      as (_ & Hcomp & _).
    rewrite Hcomp in Hread. simpl in Hread.
    rewrite lookup_alter_eq, Hcsa in Hread. simpl in Hread.
    injection Hread as <- <-. rewrite Hcomp. simpl.
    rewrite lookup_alter_eq, Hcsa. simpl. eexists. repeat split.
  - simpl in Hread.
    destruct (trackChildRun_outside (runner cs) st) as (_ & Hcomp & _).
    rewrite Hcomp, Hcs in Hread. simpl in Hread. injection Hread as <- <-.
    rewrite Hcomp. exists cs. auto.
Qed.

(** A read that finds [dirty] false calls no user code. *)
Lemma cached_read (c : nat) (cs : ComputedState) (st : State) (v : value) (ex : Exec) :
  computeds st !! c = Some cs → dirty cs = false → cvalue cs = v →
  Computed.get_value ex c st = (Normal v, Computed.trackChildRun (runner cs) st) ∧
  fnCalls (Computed.get_value ex c st).2 = fnCalls st ∧
  computeds (Computed.get_value ex c st).2 = computeds st.
Proof.
  intros Hcs Hd Hv.
  repeat split; rewrite (get_value_clean ex c cs st Hcs Hd), ?Hv; try reflexivity; simpl;
    apply trackChildRun_outside.
Qed.



(** A write to the key the derived value depends on is no such run: the
    run is stopped in front of the trigger, and without the stop the
    value is dirty afterwards. *)
Lemma count_write_disturbs :
  let st2 := (Computed.get_value (exec 9) 1 two_derived_state).2 in
  ¬ undisturbed 1 9 count_write st2 ∧ is_dirty 1 (exec 9 count_write st2).2.
Proof.
  split.
  - unfold undisturbed. intros H. vm_compute in H. discriminate H.
  - eexists. split; [vm_compute; reflexivity|reflexivity].
Qed.

(** ** Stopped effects *)

(** C7: the code breaks the claim when an effect is stopped from inside
    its own run. Effect 0 stops itself in the middle of its run and reads
    the key again before the run ends: [stop] has cleaned it up and made
    it inactive, but [track], which does not look at [active], subscribes
    it again. After the run the effect is inactive and still a member of
    the Set of the key, and a [trigger] on the key calls its computation
    once more. *)
Lemma stop_inside_run_is_triggered_again :
  let st := stopped_inside_state in
  inactive 0 st ∧ activeReactiveEffectStack st = [] ∧ fnCalls st = [0] ∧
  member st 0 0 ∧
  (∃ depsMap, targetMap st !! 0 = Some depsMap ∧
     resolved (collectRunners st depsMap 0 SET (Some (KString "count"))) 0) ∧
  fnCalls (trigger (exec 9) 0 SET (Some (KString "count")) None st).2 = [0; 0].
Proof.
  repeat split.
  - exists [0]. split; [reflexivity|apply list_elem_of_here].
  - eexists. split; [reflexivity|]. left. vm_compute. apply list_elem_of_here.
Qed.

Lemma no_new_member_refl (e : nat) (st : State) : no_new_member e st st.
Proof. repeat split; auto. Qed.

Lemma no_new_member_trans (e : nat) (st1 st2 st3 : State) :
  no_new_member e st1 st2 → no_new_member e st2 st3 → no_new_member e st1 st3.
Proof.
  intros (H1 & H2 & H3 & H4) (H5 & H6 & H7 & H8).
  repeat split; try congruence; [lia|auto].
Qed.

Lemma no_new_member_frame (e : nat) (st st' : State) :
  activeReactiveEffectStack st' = activeReactiveEffectStack st →
  fnCalls st' = fnCalls st → sets st' = sets st →
  length (effects st) ≤ length (effects st') →
  no_new_member e st st'.
Proof.
  intros H1 H2 H3 H4. repeat split; try assumption. unfold member. rewrite H3. auto.
Qed.

Lemma effects_length_cleanup (e : nat) (st : State) :
  length (effects (cleanup e st)) = length (effects st).
Proof.
  unfold cleanup. destruct (effects st !! e) as [er|]; [|reflexivity].
  destruct (deps er); [reflexivity|]. simpl. apply length_alter.
Qed.

Lemma no_new_member_cleanup (e e' : nat) (st : State) : no_new_member e st (cleanup e' st).
Proof.
  destruct (cleanup_outside e' st) as (_ & _ & _ & Hs & _ & _ & _ & Hf & _).
  split; [exact Hs|]. split; [exact Hf|].
  split; [rewrite effects_length_cleanup; reflexivity|].
  intros d. unfold cleanup.
  destruct (effects st !! e') as [er|]; [|auto]. destruct (deps er) eqn:Hd; [auto|].
  rewrite <- Hd. unfold member. simpl. rewrite cleanup_sets_member.
  intros (s & H1 & H2 & _). eauto.
Qed.

Lemma effects_getDep (target : nat) (key : option PropKey) (st : State) :
  effects (getDep target key st).2 = effects st.
Proof.
  unfold getDep, getDepsMap.
  destruct (targetMap st !! target) as [m|]; [destruct (map_get key m)|]; reflexivity.
Qed.

Lemma no_new_member_getDep (e target : nat) (key : option PropKey) (st : State) :
  no_new_member e st (getDep target key st).2.
Proof.
  destruct (getDep_outside target key st) as (_ & _ & _ & Hs & _ & _ & _ & Hf & _).
  split; [exact Hs|]. split; [exact Hf|].
  split; [rewrite effects_getDep; reflexivity|].
  intros d. unfold getDep, getDepsMap, member.
  destruct (targetMap st !! target) as [m|]; [destruct (map_get key m)|]; simpl; auto;
    intros (s & H1 & H2);
    (destruct (decide (d < length (sets st))) as [Hlt|Hge];
     [rewrite lookup_app_l in H1 by exact Hlt; eauto|
      rewrite lookup_app_r in H1 by lia;
      destruct (d - length (sets st)) as [|n]; simpl in H1;
      [injection H1 as <-; apply elem_of_nil in H2; destruct H2|
       rewrite lookup_nil in H1; discriminate H1]]).
Qed.

Lemma no_new_member_subscribe (e e' dep : nat) (st : State) :
  e' ≠ e → no_new_member e st (subscribe dep e' st).
Proof.
  intros Hne. split; [reflexivity|]. split; [reflexivity|].
  split; [simpl; rewrite length_alter; reflexivity|].
  intros d. unfold member, subscribe. simpl.
  destruct (decide (dep = d)) as [->|Hd].
  - rewrite list_lookup_alter_eq. destruct (sets st !! d) as [s0|]; simpl.
    + intros (s & [= <-] & H). apply elem_of_set_add in H as [->|H]; [congruence|eauto].
    + intros (s & [=] & _).
  - rewrite list_lookup_alter_ne by exact Hd. auto.
Qed.

Lemma no_new_member_trackChildRun (e child : nat) (st : State) :
  e ∉ activeReactiveEffectStack st → no_new_member e st (Computed.trackChildRun child st).
Proof.
  intros Hnot. unfold Computed.trackChildRun.
  destruct (last (activeReactiveEffectStack st)) as [parent|] eqn:Hlast;
    [|apply no_new_member_refl].
  assert (Hne : parent ≠ e).
  { intros ->. apply Hnot. apply last_Some in Hlast as [l' ->].
    apply elem_of_app. right. apply list_elem_of_here. }
  destruct (effects st !! child) as [cr|]; [|apply no_new_member_refl].
  generalize (deps cr). clear Hnot Hlast. intros ds. revert st.
  induction ds as [|d ds IH]; intros st; simpl; [apply no_new_member_refl|].
  eapply no_new_member_trans; [|apply IH].
  destruct (dep_has d parent st); simpl;
    [apply no_new_member_refl|apply no_new_member_subscribe, Hne].
Qed.

Lemma quiet_no_new_member (e : nat) (st st' : State) :
  no_new_member e st st' → quiet e st → quiet e st'.
Proof.
  intros (Hs & _ & _ & Hm) [Hq1 Hq2]. split; [rewrite Hs; exact Hq1|].
  intros d H. apply (Hq2 d), Hm, H.
Qed.

Lemma calls_no_new_member (e : nat) (st st' : State) :
  no_new_member e st st' → calls e st' = calls e st.
Proof. intros (_ & Hf & _). unfold calls. rewrite Hf. reflexivity. Qed.

(** Nothing but a creation touches [active], and only to set it false. *)
Lemma inactive_alter (e e' : nat) (f : ReactiveEffect → ReactiveEffect) (st st' : State) :
  effects st' = alter f e' (effects st) →
  (∀ er, active (f er) = active er ∨ active (f er) = false) →
  inactive e st → inactive e st'.
Proof.
  unfold inactive. intros -> Hf H. destruct (decide (e' = e)) as [->|Hne].
  - rewrite list_lookup_alter_eq. destruct (effects st !! e) as [er|]; [|discriminate H].
    simpl in *. injection H as H. destruct (Hf er) as [->| ->]; [rewrite H|]; reflexivity.
  - rewrite list_lookup_alter_ne by exact Hne. exact H.
Qed.

Lemma inactive_frame (e : nat) (st st' : State) :
  effects st' = effects st → inactive e st → inactive e st'.
Proof. unfold inactive. intros ->. auto. Qed.

Lemma inactive_cleanup (e e' : nat) (st : State) : inactive e st → inactive e (cleanup e' st).
Proof.
  unfold cleanup. destruct (effects st !! e') as [er|]; [|auto].
  destruct (deps er); [auto|].
  apply (inactive_alter e e' (set_deps [])); [reflexivity|]. intros er'. left. reflexivity.
Qed.

Lemma inactive_subscribe (e e' dep : nat) (st : State) :
  inactive e st → inactive e (subscribe dep e' st).
Proof.
  apply (inactive_alter e e' (λ er, set_deps (deps er ++ [dep]) er)); [reflexivity|].
  intros er. left. reflexivity.
Qed.

Lemma inactive_trackChildRun (e child : nat) (st : State) :
  inactive e st → inactive e (Computed.trackChildRun child st).
Proof.
  unfold Computed.trackChildRun.
  destruct (last (activeReactiveEffectStack st)) as [parent|]; [|auto].
  destruct (effects st !! child) as [cr|]; [|auto].
  generalize (deps cr). intros ds. revert st.
  induction ds as [|d ds IH]; intros st H; simpl; [exact H|].
  apply IH. destruct (dep_has d parent st); simpl; [exact H|apply inactive_subscribe, H].
Qed.

Lemma stop_invariant_mono (e : nat) (a : option nat) (st st' : State) :
  no_new_member e st st' → (inactive e st → inactive e st') →
  stop_invariant e a st → stop_invariant e a st'.
Proof.
  intros Hn Hi. destruct a as [n|]; simpl.
  - rewrite (calls_no_new_member e st st' Hn). intros [H|(H1 & H2 & H3)]; [left; exact H|].
    right. split; [exact H1|]. split; [revert H2; apply quiet_no_new_member, Hn|].
    destruct Hn as (_ & _ & Hl & _). lia.
  - intros [H1 H2]. split; [apply Hi, H1|]. revert H2. apply quiet_no_new_member, Hn.
Qed.

Lemma stop_invariant_frame (e : nat) (a : option nat) (st st' : State) :
  activeReactiveEffectStack st' = activeReactiveEffectStack st →
  fnCalls st' = fnCalls st → sets st' = sets st → effects st' = effects st →
  stop_invariant e a st → stop_invariant e a st'.
Proof.
  intros H1 H2 H3 H4. apply stop_invariant_mono.
  - apply no_new_member_frame; try assumption. rewrite H4. reflexivity.
  - apply inactive_frame, H4.
Qed.

Lemma calls_log (e e' : nat) (st : State) :
  calls e (set_fnCalls (fnCalls st ++ [e']) st) =
  calls e st + (if decide (e' = e) then 1 else 0).
Proof.
  unfold calls. simpl. rewrite filter_app, length_app. f_equal.
  rewrite filter_cons, filter_nil. destruct (decide (e' = e)); reflexivity.
Qed.

Lemma quiet_not_top (e e' : nat) (st : State) :
  quiet e st → last (activeReactiveEffectStack st) = Some e' → e' ≠ e.
Proof.
  intros [Hq _] Hlast ->. apply Hq. apply last_Some in Hlast as [l' ->].
  apply elem_of_app. right. apply list_elem_of_here.
Qed.

Lemma quiet_push (e e' : nat) (st : State) :
  e' ≠ e → quiet e st →
  quiet e (set_fnCalls (fnCalls (cleanup e' st) ++ [e'])
             (set_stack (activeReactiveEffectStack (cleanup e' st) ++ [e']) (cleanup e' st))).
Proof.
  intros Hne Hq.
  apply (quiet_no_new_member e st _ (no_new_member_cleanup e e' st)) in Hq.
  destruct Hq as [Hq1 Hq2]. split; [|exact Hq2].
  simpl. intros Hin. apply elem_of_app in Hin as [Hin|Hin]; [exact (Hq1 Hin)|].
  apply list_elem_of_singleton in Hin. congruence.
Qed.

Lemma quiet_pop (e : nat) (st : State) :
  quiet e st → quiet e (set_stack (removelast (activeReactiveEffectStack st)) st).
Proof.
  intros [Hq1 Hq2]. split; [|exact Hq2]. simpl. intros Hin. apply Hq1.
  destruct (activeReactiveEffectStack st) as [|y l _] using rev_ind; [exact Hin|].
  rewrite removelast_last in Hin. apply elem_of_app. auto.
Qed.

Lemma do_op_stop_invariant (e : nat) (ex : Exec) :
  (∀ a p, preserves (stop_invariant e a) (ex p)) →
  ∀ a op, preserves (stop_invariant e a) (do_op ex op).
Proof.
  intros Hex a op.
  apply (do_op_preserves (stop_invariant e) (λ _, True) ex Hex);
    [clear..|intros; exact Logic.I].
  - (* a stopped effect is called as a plain function *)
    intros [n|] e' er st H Her Hact; unfold stop_invariant in H |- *.
    + rewrite calls_log. destruct H as [H|[H1 H2]]; [left; lia|].
      destruct (decide (e' = e)); [left; lia|]. right. split; [lia|exact H2].
    + exact H.
  - intros a e' st. apply stop_invariant_mono;
      [apply no_new_member_cleanup|apply inactive_cleanup].
  - (* entering and leaving a run *)
    intros a e' er st H Her Hact Hnot. exists a. split.
    + set (pushed := set_stack (activeReactiveEffectStack (cleanup e' st) ++ [e'])
                       (cleanup e' st)).
      change (stop_invariant e a (set_fnCalls (fnCalls pushed ++ [e']) pushed)).
      destruct a as [n|]; unfold stop_invariant in H |- *.
      * rewrite calls_log.
        assert (Hcalls : calls e pushed = calls e st)
          by (apply (calls_no_new_member e st (cleanup e' st)), no_new_member_cleanup).
        rewrite Hcalls.
        destruct H as [H|(H1 & H2 & H3)]; [left; lia|].
        destruct (decide (e' = e)) as [->|Hne]; [left; lia|]. right. split; [lia|].
        split; [apply quiet_push; assumption|].
        simpl. rewrite effects_length_cleanup. exact H3.
      * destruct H as [Hi Hq]. split; [apply (inactive_cleanup e e' st Hi)|].
        apply quiet_push; [|exact Hq].
        intros ->. unfold inactive in Hi. rewrite Her in Hi. simpl in Hi. congruence.
    + intros st3 H3.
      destruct a as [n|]; unfold stop_invariant in H3 |- *.
      * destruct H3 as [H3|(H3 & H3' & H3'')]; [left; exact H3|]. right.
        split; [exact H3|]. split; [apply quiet_pop, H3'|exact H3''].
      * destruct H3 as [Hi H3']. split; [exact Hi|apply quiet_pop, H3'].
  - (* track subscribes the effect on top of the stack *)
    intros a target key e' er st H Hlast Her.
    assert (H1 : stop_invariant e a (getDep target key st).2).
    { revert H. apply stop_invariant_mono; [apply no_new_member_getDep|].
      apply inactive_frame, effects_getDep. }
    split; [exact H1|]. intros _.
    assert (Hlast1 : last (activeReactiveEffectStack (getDep target key st).2) = Some e')
      by (rewrite stack_getDep; exact Hlast).
    assert (Hq : quiet e (getDep target key st).2 →
                 stop_invariant e a (subscribe (getDep target key st).1 e'
                                       (getDep target key st).2)).
    { intros Hq. revert H1. apply stop_invariant_mono; [|apply inactive_subscribe].
      apply no_new_member_subscribe. eapply quiet_not_top; eassumption. }
    destruct a as [n|]; unfold stop_invariant in H1.
    + destruct H1 as [H1|(H1 & H2 & H3)]; [left; exact H1|]. apply Hq, H2.
    + apply Hq, H1.
  - intros a e' st. apply stop_invariant_mono.
    + apply no_new_member_frame; try reflexivity. simpl. rewrite length_alter. reflexivity.
    + apply (inactive_alter e e' (set_active false)); [reflexivity|]. intros er. right. reflexivity.
  - intros a fn options st. apply stop_invariant_mono.
    + apply no_new_member_frame; try reflexivity. simpl. rewrite length_app. lia.
    + unfold inactive. simpl. intros H.
      destruct (effects st !! e) as [er|] eqn:Her; [|discriminate H].
      rewrite (lookup_app_l_Some _ _ _ _ Her). exact H.
  - intros a c st. apply stop_invariant_frame; reflexivity.
  - intros a c v st _. apply stop_invariant_frame; reflexivity.
  - (* trackChildRun subscribes the effect on top of the stack *)
    intros a child st H.
    assert (Hmono : quiet e st → stop_invariant e a (Computed.trackChildRun child st)).
    { intros Hq. revert H. apply stop_invariant_mono.
      - apply no_new_member_trackChildRun, Hq.
      - apply inactive_trackChildRun. }
    destruct a as [n|]; unfold stop_invariant in H.
    + destruct H as [H|(H1 & H2 & H3)]; [|apply Hmono, H2]. left.
      destruct (trackChildRun_outside child st) as (_ & _ & _ & _ & _ & _ & _ & Hf & _).
      unfold calls. rewrite Hf. exact H.
    + apply Hmono, H.
  - intros a c r s st. apply stop_invariant_frame; reflexivity.
  - intros a v st. unfold reactive. destruct (wm_has _ _ _); [auto|].
    destruct (ws_has _ _); [unfold readonly|];
      apply stop_invariant_frame; apply createReactiveObject_graph.
  - intros a v st. unfold readonly.
    apply stop_invariant_frame; apply createReactiveObject_graph.
  - intros a v st H. destruct v; exact H.
  - intros a v st H. destruct v; exact H.
  - intros a o st. apply stop_invariant_frame; reflexivity.
  - intros a m st. apply stop_invariant_frame; reflexivity.
  - intros a b st. apply stop_invariant_frame; reflexivity.
Qed.

Lemma exec_stop_invariant (e : nat) (fuel : nat) (a : option nat) (p : prog) :
  preserves (stop_invariant e a) (exec fuel p).
Proof. apply exec_preserves. apply do_op_stop_invariant. Qed.

Lemma affected_member (st : State) (depsMap : list (option PropKey * nat))
    (target : nat) (type : OperationTypes) (key : option PropKey) (e : nat) :
  affected st depsMap target type key e → ∃ d, member st e d.
Proof.
  assert (Hget : ∀ k s, dep_get st depsMap k = Some s → e ∈ s → ∃ d, member st e d).
  { intros k s Hk He. unfold dep_get in Hk.
    destruct (map_get k depsMap) as [d|]; [|discriminate Hk]. exists d, s. auto. }
  unfold affected. destruct (decide (type = CLEAR)).
  - intros (k & d & s & _ & Hs & He). exists d, s. auto.
  - intros [(k & s & _ & Hs & He)|(_ & s & Hs & He)]; eapply Hget; eassumption.
Qed.

Lemma cleanup_detaches (e : nat) (st : State) :
  deps_agree st → ∀ d, ¬ member (cleanup e st) e d.
Proof.
  intros Hagree d Hm. unfold cleanup in Hm.
  destruct (effects st !! e) as [er|] eqn:Her.
  - destruct (deps er) as [|d0 ds] eqn:Hds.
    + apply Hagree in Hm as (er' & Her' & Hd). rewrite Her in Her'. injection Her' as <-.
      rewrite Hds in Hd. apply elem_of_nil in Hd. exact Hd.
    + rewrite <- Hds in Hm. unfold member in Hm. simpl in Hm.
      apply cleanup_sets_member in Hm as (s & Hs & He & Hne).
      destruct (proj1 (Hagree e d)) as (er' & Her' & Hd); [exists s; auto|].
      rewrite Her in Her'. injection Her' as <-. apply (Hne Hd). reflexivity.
  - apply Hagree in Hm as (er' & Her' & _). rewrite Her in Her'. discriminate Her'.
Qed.

(** X19: [stop] outside of a run takes the effect out of the graph for
    good. When [stop] is called on an active effect
    that is not on the stack and returns without the effect's computation
    having been called meanwhile (by its on-stop callback), the effect is
    inactive and a member of no Set; this stays so whatever runs
    afterwards, so no later [trigger], on any target, kind or key,
    collects it; and a second [stop] does nothing. *)
Theorem stopped_effect_is_not_triggered (fuel : nat) (e : nat) (er : ReactiveEffect)
    (st st1 : State) :
  consistent st →
  effects st !! e = Some er →
  active er = true →
  e ∉ activeReactiveEffectStack st →
  stop (exec fuel) e st = (Normal VUndefined, st1) →
  calls e st1 = calls e st →
  detached e st1 ∧
  (∀ fuel' p, detached e (exec fuel' p st1).2) ∧
  (∀ fuel' p depsMap target type key,
     ¬ resolved (collectRunners (exec fuel' p st1).2 depsMap target type key) e) ∧
  (∀ ex : Exec, stop ex e st1 = (Normal VUndefined, st1)).
Proof.
  intros [Hagree _] Her Hact Hnot Hstop Hcalls.
  assert (Hdet : detached e st1).
  { unfold stop in Hstop. rewrite Her, Hact in Hstop.
    assert (Ha : stop_invariant e (Some (calls e st)) (cleanup e st)).
    { right. split; [apply calls_no_new_member, no_new_member_cleanup|]. split.
      - split; [rewrite stack_cleanup; exact Hnot|apply cleanup_detaches, Hagree].
      - rewrite effects_length_cleanup. apply lookup_lt_Some in Her. exact Her. }
    assert (∃ stb, stop_invariant e (Some (calls e st)) stb ∧
                   st1 = update_effect e (set_active false) stb) as (stb & Hb & ->).
    { unfold bind, discard, ret, modify in Hstop. destruct (onStop er) as [h|].
      - pose proof (exec_stop_invariant e fuel (Some (calls e st)) h _ Ha) as Hb.
        unfold bind in Hstop.
        destruct (exec fuel h (cleanup e st)) as [[v| |] stb]; try discriminate Hstop.
        injection Hstop as <-. eauto.
      - injection Hstop as <-. eauto. }
    destruct Hb as [Hb|(_ & Hq & Hv)].
    - change (calls e (update_effect e (set_active false) stb)) with (calls e stb) in Hcalls.
      lia.
    - split.
      + unfold inactive, update_effect. simpl. rewrite list_lookup_alter_eq.
        apply lookup_lt_is_Some in Hv as [er' ->]. reflexivity.
      + exact Hq. }
  assert (Hlater : ∀ fuel' p, detached e (exec fuel' p st1).2).
  { intros fuel' p. apply (exec_stop_invariant e fuel' None p st1 Hdet). }
  split; [exact Hdet|]. split; [exact Hlater|]. split.
  - intros fuel' p depsMap target type key Hres.
    apply collectRunners_affected, affected_member in Hres as [d Hd].
    destruct (Hlater fuel' p) as [_ [_ Hq]]. exact (Hq d Hd).
  - intros ex. destruct Hdet as [Hi _]. unfold inactive in Hi. unfold stop.
    destruct (effects st1 !! e) as [er1|]; [|discriminate Hi].
    simpl in Hi. injection Hi as ->. reflexivity.
Qed.

Lemma stopped_effect_is_not_triggered_witness :
  let st1 := (stop (exec 3) 0 subscribed_state).2 in
  member subscribed_state 0 0 ∧
  detached 0 st1 ∧
  ∀ fuel' p depsMap target type key,
    ¬ resolved (collectRunners (exec fuel' p st1).2 depsMap target type key) 0.
Proof.
  assert (Hc : consistent subscribed_state).
  { apply (do_op_consistent (exec 9) (exec_consistent 9)
             (OpEffect (FnPlain reading_fn) plain_options)), consistent_initial. }
  assert (Hnot : 0 ∉ activeReactiveEffectStack subscribed_state) by apply not_elem_of_nil.
  destruct (stopped_effect_is_not_triggered 3 0 _ subscribed_state
              (stop (exec 3) 0 subscribed_state).2 Hc eq_refl eq_refl Hnot eq_refl eq_refl)
    as (Hdet & _ & Hres & _).
  split; [|split; assumption].
  exists [0]. split; [reflexivity|apply list_elem_of_here].
Defined.

(** ** The order of invocations in trigger *)

Lemma addRunners_partition (st : State) (o : option (list nat)) (acc : list nat * list nat) :
  (∀ e, e ∈ acc.2 → is_computed st e = true) →
  (∀ e, e ∈ acc.1 → is_computed st e = false) →
  (∀ e, e ∈ (addRunners st acc o).2 → is_computed st e = true) ∧
  (∀ e, e ∈ (addRunners st acc o).1 → is_computed st e = false).
Proof.
  destruct o as [s|]; [|auto]. simpl. revert acc.
  induction s as [|x s IH]; intros [effs comp] H2 H1; simpl; [auto|].
  apply IH; destruct (is_computed st x) eqn:Hx; simpl in *; intros e He;
    try apply elem_of_set_add in He as [->|He]; auto.
Qed.

Lemma collectRunners_partition (st : State) (depsMap : list (option PropKey * nat))
    (target : nat) (type : OperationTypes) (key : option PropKey) :
  (∀ e, e ∈ (collectRunners st depsMap target type key).2 → is_computed st e = true) ∧
  (∀ e, e ∈ (collectRunners st depsMap target type key).1 → is_computed st e = false).
Proof.
  assert (Hnil : (∀ e, e ∈ ([] : list nat) → is_computed st e = true) ∧
                 (∀ e, e ∈ ([] : list nat) → is_computed st e = false)).
  { split; intros e He; apply elem_of_nil in He; destruct He. }
  unfold collectRunners. destruct (decide (type = CLEAR)).
  - assert (∀ (m : list (option PropKey * nat)) (acc : list nat * list nat),
              (∀ e, e ∈ acc.2 → is_computed st e = true) →
              (∀ e, e ∈ acc.1 → is_computed st e = false) →
              (∀ e, e ∈ (foldl (λ a kd, addRunners st a (sets st !! kd.2)) acc m).2 →
                    is_computed st e = true) ∧
              (∀ e, e ∈ (foldl (λ a kd, addRunners st a (sets st !! kd.2)) acc m).1 →
                    is_computed st e = false)) as Hfold.
    { induction m as [|kd m IH]; intros acc H2 H1; simpl; [auto|].
      apply IH; apply addRunners_partition; assumption. }
    apply Hfold; apply Hnil.
  - set (acc1 := match key with
                 | Some k => addRunners st ([], []) (dep_get st depsMap (Some k))
                 | None => ([], [])
                 end).
    assert (Hacc1 : (∀ e, e ∈ acc1.2 → is_computed st e = true) ∧
                    (∀ e, e ∈ acc1.1 → is_computed st e = false)).
    { subst acc1. destruct key; [apply addRunners_partition|]; apply Hnil. }
    destruct (bool_decide (type = ADD) || bool_decide (type = DELETE)); [|exact Hacc1].
    apply addRunners_partition; apply Hacc1.
Qed.

Lemma invalidated_refl (st : State) : invalidated st st.
Proof. repeat split. intros c cs H. exists cs. auto. Qed.

Lemma invalidated_trans (st1 st2 st3 : State) :
  invalidated st1 st2 → invalidated st2 st3 → invalidated st1 st3.
Proof.
  intros (A1 & A2 & A3 & A4 & A5 & A6 & A7 & A8) (B1 & B2 & B3 & B4 & B5 & B6 & B7 & B8).
  repeat split; try congruence.
  intros c cs Hcs. destruct (A8 c cs Hcs) as (cs' & Hcs' & Hv & Hr & Hd).
  destruct (B8 c cs' Hcs') as (cs'' & Hcs'' & Hv' & Hr' & Hd').
  exists cs''. repeat split; try congruence. auto.
Qed.

Lemma invalidated_mark_dirty (c : nat) (st : State) : invalidated st (mark_dirty c st).
Proof.
  repeat split. intros c' cs Hcs. unfold mark_dirty. simpl.
  destruct (decide (c = c')) as [->|Hne].
  - rewrite lookup_alter_eq, Hcs. simpl. eexists. repeat split.
  - rewrite lookup_alter_ne by exact Hne. exists cs. auto.
Qed.

Lemma scheduleRun_derived (ex : Exec) (e target : nat) (type : OperationTypes)
    (key : option PropKey) (extraInfo : option value) (st : State)
    (er : ReactiveEffect) (c : nat) :
  effects st !! e = Some er → scheduler er = Some (SchedDirty c) →
  __DEV__ st = false ∨ onTrigger er = None →
  scheduleRun ex e target type key extraInfo st = (Normal VUndefined, mark_dirty c st).
Proof.
  intros Her Hs Hhook. unfold scheduleRun. rewrite Her, Hs.
  destruct Hhook as [-> | ->]; [reflexivity|]. destruct (__DEV__ st); reflexivity.
Qed.

(** The computed phase of [trigger] when every computed subscriber is the
    runner of a derived value: no user code runs, flags are set. *)
Lemma forEach_derived (ex : Exec) (target : nat) (type : OperationTypes)
    (key : option PropKey) (extraInfo : option value) (l : list nat) (st : State) :
  (∀ e, e ∈ l → derived_runner st e) →
  ∃ st1,
    forEach (λ e, scheduleRun ex e target type key extraInfo) l st = (Normal VUndefined, st1) ∧
    invalidated st st1 ∧
    ∀ e er c, e ∈ l → effects st !! e = Some er → scheduler er = Some (SchedDirty c) →
              is_Some (computeds st !! c) → is_dirty c st1.
Proof.
  revert st. induction l as [|x l IH]; intros st Hl; simpl.
  - exists st. split; [reflexivity|]. split; [apply invalidated_refl|].
    intros e er c He. apply elem_of_nil in He. destruct He.
  - destruct (Hl x (list_elem_of_here _ _)) as (er & c & Her & Hs & Hhook).
    unfold bind. rewrite (scheduleRun_derived ex x target type key extraInfo st er c Her Hs Hhook).
    destruct (IH (mark_dirty c st)) as (st1 & Hrun & Hinv & Hdirty).
    { intros e He. destruct (Hl e (list_elem_of_further _ _ _ He)) as (er' & c' & H1 & H2 & H3).
      exists er', c'. auto. }
    exists st1. split; [exact Hrun|].
    split; [eapply invalidated_trans; [apply invalidated_mark_dirty|exact Hinv]|].
    intros e er' c' He Her' Hs' [cs Hcs]. apply elem_of_cons in He as [->|He].
    + rewrite Her in Her'. injection Her' as <-. rewrite Hs in Hs'. injection Hs' as <-.
      destruct Hinv as (_ & _ & _ & _ & _ & _ & _ & Hc).
      destruct (Hc c {| dirty := true; cvalue := cvalue cs; runner := runner cs;
                        setter := setter cs |}) as (cs' & Hcs' & _ & _ & Hd).
      { unfold mark_dirty. simpl. rewrite lookup_alter_eq, Hcs. reflexivity. }
      exists cs'. split; [exact Hcs'|]. apply Hd. reflexivity.
    + apply (Hdirty e er' c' He Her' Hs').
      destruct (invalidated_mark_dirty c st) as (_ & _ & _ & _ & _ & _ & _ & Hc).
      destruct (Hc c' cs Hcs) as (cs' & Hcs' & _). eauto.
Qed.

(** Reading a dirty computed value calls its runner and returns what the
    runner returns now, not the cached value. *)
Lemma get_value_dirty (fuel : nat) (c : nat) (cs : ComputedState) (st st' : State) (v : value) :
  computeds st !! c = Some cs → dirty cs = true →
  call_effect (exec fuel) (runner cs) [] st = (Normal v, st') →
  (Computed.get_value (exec fuel) c st).1 = Normal v.
Proof.
  intros Hcs Hd Hcall. unfold Computed.get_value. rewrite Hcs, Hd.
  unfold bind, modify. rewrite Hcall. simpl.
  destruct (call_effect_keeps_computed c fuel (runner cs) [] st) as (cs' & Hcs' & _);
    [exists cs; auto|].
  rewrite Hcall in Hcs'. simpl in Hcs'.
  destruct (trackChildRun_outside (runner cs) (Computed.store_value c v st'))
    as (_ & -> & _).
  simpl. rewrite lookup_alter_eq, Hcs'. reflexivity.
Qed.



(** * Further properties of the code *)

(** ** The proxy tables of reactive.ts *)

Lemma insert_inverse (m1 m2 : gmap nat nat) (t obs : nat) :
  (∀ r p, m1 !! r = Some p ↔ m2 !! p = Some r) →
  m1 !! t = None → m2 !! obs = None →
  ∀ r p, <[t := obs]> m1 !! r = Some p ↔ <[obs := t]> m2 !! p = Some r.
Proof.
  intros Hinv Ht Hobs r p. rewrite !lookup_insert.
  destruct (decide (t = r)) as [->|Hr]; destruct (decide (obs = p)) as [->|Hp].
  - tauto.
  - split; [congruence|]. intros H. apply Hinv in H. congruence.
  - split; [|congruence]. intros H. apply Hinv in H. congruence.
  - apply Hinv.
Qed.

Lemma proxies_wf_initial (dev : bool) : proxies_wf (initial_state dev).
Proof.
  repeat split; simpl; try (intros H; rewrite lookup_empty in H; discriminate H);
    try (intros [? H]; rewrite lookup_empty in H; discriminate H).
  - destruct w; simpl in H; rewrite lookup_empty in H; discriminate H.
  - destruct w; simpl in H; rewrite lookup_empty in H; discriminate H.
Qed.

Lemma proxies_wf_frame (st st' : State) :
  objects st' = objects st → tables st' = tables st → proxies_wf st → proxies_wf st'.
Proof. unfold proxies_wf. intros -> ->. auto. Qed.

Lemma proxies_wf_outside (st st' : State) :
  same_outside_graph st st' → proxies_wf st → proxies_wf st'.
Proof. intros (Ho & _ & Ht & _). apply proxies_wf_frame; assumption. Qed.

Lemma proxies_wf_alloc (l : list JsObject) (st st' : State) :
  objects st' = objects st ++ l → tables st' = tables st → proxies_wf st → proxies_wf st'.
Proof.
  unfold proxies_wf. intros -> -> (Hb & H1 & H2 & H3 & H4).
  split; [|auto]. intros w k v H. rewrite length_app. destruct (Hb w k v H). lia.
Qed.

Lemma proxies_wf_fresh (st : State) (w : WeakMapName) :
  proxies_wf st → wm_get w (tables st) !! length (objects st) = None.
Proof.
  intros (Hb & _). destruct (wm_get w (tables st) !! length (objects st)) eqn:H; [|reflexivity].
  apply Hb in H. lia.
Qed.

Lemma proxies_wf_no_value_fresh (st : State) (w : WeakMapName) (k : nat) :
  proxies_wf st → wm_get w (tables st) !! k ≠ Some (length (objects st)).
Proof. intros (Hb & _) H. apply Hb in H. lia. Qed.

Lemma proxies_wf_create_reactive (r : nat) (h1 h2 : Handlers) (st : State) :
  proxies_wf st → readonlyToRaw (tables st) !! r = None →
  proxies_wf (createReactiveObject (VObj r) RawToReactive ReactiveToRaw h1 h2 st).2.
Proof.
  intros Hwf Hro.
  destruct (createReactiveObject_cases r RawToReactive ReactiveToRaw h1 h2 st)
    as [(obs & Hp & E)|[(Hp & E)|(o & st' & Hp & Hr & Ho & E & Hobj & Htab)]];
    rewrite E; simpl; try exact Hwf.
  pose proof (proxies_wf_fresh st) as Hfresh.
  pose proof (λ w, Hfresh w Hwf) as Hf. clear Hfresh.
  destruct Hwf as (Hb & H1 & H2 & H3 & H4).
  apply lookup_lt_Some in Ho. simpl in Hp, Hr.
  unfold proxies_wf. rewrite Hobj, Htab, length_app. simpl.
  split; [|split; [|split; [|split]]].
  - intros w k v. destruct w; simpl; rewrite ?lookup_insert; try (case_decide as Hd);
      intros Hl; try (injection Hl as <-; subst; lia);
      first [apply (Hb RawToReactive) in Hl|apply (Hb ReactiveToRaw) in Hl|
             apply (Hb RawToReadonly) in Hl|apply (Hb ReadonlyToRaw) in Hl]; lia.
  - apply insert_inverse; [exact H1|exact Hp|apply (Hf ReactiveToRaw)].
  - exact H2.
  - intros p. rewrite lookup_insert. case_decide as Hpo.
    + subst p. intros _. rewrite lookup_insert_ne by lia.
      split; [apply (Hf RawToReactive)|]. split; [apply (Hf RawToReadonly)|apply (Hf ReadonlyToRaw)].
    + intros Hp'. destruct (H3 p Hp') as (A1 & A2 & A3).
      rewrite lookup_insert_ne; [auto|]. intros <-. rewrite Hr in Hp'. destruct Hp' as [? [=]].
  - intros p Hp'. destruct (H4 p Hp') as (A1 & A2).
    rewrite lookup_insert_ne; [auto|]. intros <-. rewrite Hro in Hp'. destruct Hp' as [? [=]].
Qed.

Lemma proxies_wf_create_readonly (t : nat) (h1 h2 : Handlers) (st : State) :
  proxies_wf st → reactiveToRaw (tables st) !! t = None →
  proxies_wf (createReactiveObject (VObj t) RawToReadonly ReadonlyToRaw h1 h2 st).2.
Proof.
  intros Hwf Hre.
  destruct (createReactiveObject_cases t RawToReadonly ReadonlyToRaw h1 h2 st)
    as [(obs & Hp & E)|[(Hp & E)|(o & st' & Hp & Hr & Ho & E & Hobj & Htab)]];
    rewrite E; simpl; try exact Hwf.
  pose proof (proxies_wf_fresh st) as Hfresh.
  pose proof (λ w, Hfresh w Hwf) as Hf. clear Hfresh.
  destruct Hwf as (Hb & H1 & H2 & H3 & H4).
  apply lookup_lt_Some in Ho. simpl in Hp, Hr.
  unfold proxies_wf. rewrite Hobj, Htab, length_app. simpl.
  split; [|split; [|split; [|split]]].
  - intros w k v. destruct w; simpl; rewrite ?lookup_insert; try (case_decide as Hd);
      intros Hl; try (injection Hl as <-; subst; lia);
      first [apply (Hb RawToReactive) in Hl|apply (Hb ReactiveToRaw) in Hl|
             apply (Hb RawToReadonly) in Hl|apply (Hb ReadonlyToRaw) in Hl]; lia.
  - exact H1.
  - apply insert_inverse; [exact H2|exact Hp|apply (Hf ReadonlyToRaw)].
  - intros p Hp'. destruct (H3 p Hp') as (A1 & A2 & A3).
    split; [exact A1|]. split.
    + rewrite lookup_insert_ne; [exact A2|]. intros <-. rewrite Hre in Hp'. destruct Hp' as [? [=]].
    + rewrite lookup_insert_ne; [exact A3|]. intros Heq. subst p.
      pose proof (Hf ReactiveToRaw) as F. simpl in F. rewrite F in Hp'.
      destruct Hp' as [? [=]].
  - intros p. rewrite lookup_insert. case_decide as Hpo.
    + subst p. intros _. split; [apply (Hf RawToReactive)|].
      rewrite lookup_insert_ne by lia. apply (Hf RawToReadonly).
    + intros Hp'. destruct (H4 p Hp') as (A1 & A2). split; [exact A1|].
      rewrite lookup_insert_ne; [exact A2|]. intros <-. rewrite Hr in Hp'. destruct Hp' as [? [=]].
Qed.

Lemma proxies_wf_non_object (v : value) (toProxy toRaw : WeakMapName)
    (h1 h2 : Handlers) (st : State) :
  isObject v = false → proxies_wf st →
  proxies_wf (createReactiveObject v toProxy toRaw h1 h2 st).2.
Proof.
  intros Hv Hwf.
  assert (E : createReactiveObject v toProxy toRaw h1 h2 st =
              (v, if __DEV__ st then set_console (console st ++ [CannotBeMadeReactive v]) st
                  else st))
    by (destruct v; try discriminate Hv; reflexivity).
  rewrite E. simpl. destruct (__DEV__ st); [|exact Hwf].
  revert Hwf. apply proxies_wf_frame; reflexivity.
Qed.

(** The raw object of a mutable proxy is not itself a mutable proxy. *)
Lemma raw_is_not_reactive (st : State) (p t : nat) :
  proxies_wf st → reactiveToRaw (tables st) !! p = Some t →
  reactiveToRaw (tables st) !! t = None.
Proof.
  intros (_ & H1 & _ & H3 & _) Hp.
  destruct (reactiveToRaw (tables st) !! t) as [x|] eqn:Ht; [|reflexivity].
  destruct (H3 t) as (A1 & _); [eauto|]. apply H1 in Hp. congruence.
Qed.

Lemma proxies_wf_readonly (v : value) (st : State) :
  proxies_wf st → proxies_wf (readonly v st).2.
Proof.
  intros Hwf. unfold readonly. destruct v as [| | |r| |];
    try (apply proxies_wf_non_object; [reflexivity|exact Hwf]).
  destruct (reactiveToRaw (tables st) !! r) as [t|] eqn:Hr.
  - apply proxies_wf_create_readonly; [exact Hwf|]. eapply raw_is_not_reactive; eassumption.
  - apply proxies_wf_create_readonly; assumption.
Qed.

Lemma proxies_wf_reactive (v : value) (st : State) :
  proxies_wf st → proxies_wf (reactive v st).2.
Proof.
  intros Hwf. unfold reactive.
  destruct (wm_has ReadonlyToRaw v (tables st)) eqn:Hro; [exact Hwf|].
  destruct (ws_has _ _); [apply proxies_wf_readonly, Hwf|].
  destruct v as [| | |r| |]; try (apply proxies_wf_non_object; [reflexivity|exact Hwf]).
  apply proxies_wf_create_reactive; [exact Hwf|].
  simpl in Hro. apply bool_decide_eq_false in Hro.
  destruct (readonlyToRaw (tables st) !! r) eqn:H; [|reflexivity]. destruct Hro. eauto.
Qed.

Lemma exec_proxies_wf (fuel : nat) (p : prog) : preserves proxies_wf (exec fuel p).
Proof.
  apply (exec_preserves (λ (_ : unit) s, proxies_wf s) (A := unit)); [|exact tt].
  clear. intros ex Hex a op.
  apply (do_op_preserves (λ (_ : unit) s, proxies_wf s) (λ _, True) ex Hex);
    [clear..|exact a|intros; exact Logic.I].
  - intros _ e er st H _ _. exact H.
  - intros _ e st. apply proxies_wf_outside, cleanup_outside.
  - intros a e er st H _ _ _. exists a. split.
    + apply (proxies_wf_frame (cleanup e st)); [reflexivity|reflexivity|].
      revert H. apply proxies_wf_outside, cleanup_outside.
    + intros st3. apply proxies_wf_frame; reflexivity.
  - intros _ target key e er st H _ _.
    assert (H1 : proxies_wf (getDep target key st).2)
      by (revert H; apply proxies_wf_outside, getDep_outside).
    split; [exact H1|]. intros _. revert H1. apply proxies_wf_frame; reflexivity.
  - intros _ e st H. exact H.
  - intros _ fn options st H. exact H.
  - intros _ c st H. exact H.
  - intros _ c v st _ H. exact H.
  - intros _ child st. apply proxies_wf_outside, trackChildRun_outside.
  - intros _ c r s st. apply (proxies_wf_alloc [Computed.plain_object]); reflexivity.
  - intros _ v st. apply proxies_wf_reactive.
  - intros _ v st. apply proxies_wf_readonly.
  - intros _ v st H. destruct v; exact H.
  - intros _ v st H. destruct v; exact H.
  - intros _ o st. apply (proxies_wf_alloc [o]); reflexivity.
  - intros _ m st H. exact H.
  - intros _ b st H. exact H.
Qed.

Lemma readonly_key_not_reactive (st : State) (q : nat) :
  proxies_wf st → is_Some (readonlyToRaw (tables st) !! q) →
  reactiveToRaw (tables st) !! q = None.
Proof.
  intros (_ & _ & _ & H3 & _) [x Hq].
  destruct (reactiveToRaw (tables st) !! q) eqn:Hr; [|reflexivity].
  destruct (H3 q) as (_ & _ & A3); [eauto|]. congruence.
Qed.

Lemma toRaw_create_readonly (t : nat) (h1 h2 : Handlers) (st : State) :
  proxies_wf st →
  reactiveToRaw (tables st) !! t = None → readonlyToRaw (tables st) !! t = None →
  toRaw (createReactiveObject (VObj t) RawToReadonly ReadonlyToRaw h1 h2 st).1
        (createReactiveObject (VObj t) RawToReadonly ReadonlyToRaw h1 h2 st).2 = VObj t.
Proof.
  intros Hwf Hre Hro.
  destruct (createReactiveObject_cases t RawToReadonly ReadonlyToRaw h1 h2 st)
    as [(obs & Hp & E)|[(Hp & E)|(o & st' & Hp & Hr & Ho & E & Hobj & Htab)]];
    rewrite E; simpl.
  - simpl in Hp. assert (Hq : readonlyToRaw (tables st) !! obs = Some t).
    { destruct Hwf as (_ & _ & H2 & _). apply H2, Hp. }
    rewrite (readonly_key_not_reactive st obs Hwf) by eauto. rewrite Hq. reflexivity.
  - rewrite Hre, Hro. reflexivity.
  - rewrite Htab. simpl.
    pose proof (proxies_wf_fresh st ReactiveToRaw Hwf) as F. simpl in F. rewrite F.
    rewrite lookup_insert_eq. reflexivity.
Qed.

Lemma toRaw_create_reactive (t : nat) (h1 h2 : Handlers) (st : State) :
  proxies_wf st →
  reactiveToRaw (tables st) !! t = None → readonlyToRaw (tables st) !! t = None →
  toRaw (createReactiveObject (VObj t) RawToReactive ReactiveToRaw h1 h2 st).1
        (createReactiveObject (VObj t) RawToReactive ReactiveToRaw h1 h2 st).2 = VObj t.
Proof.
  intros Hwf Hre Hro.
  destruct (createReactiveObject_cases t RawToReactive ReactiveToRaw h1 h2 st)
    as [(obs & Hp & E)|[(Hp & E)|(o & st' & Hp & Hr & Ho & E & Hobj & Htab)]];
    rewrite E; simpl.
  - simpl in Hp. assert (Hq : reactiveToRaw (tables st) !! obs = Some t).
    { destruct Hwf as (_ & H1 & _). apply H1, Hp. }
    rewrite Hq. reflexivity.
  - rewrite Hre, Hro. reflexivity.
  - rewrite Htab. simpl. rewrite lookup_insert_eq. reflexivity.
Qed.

Lemma not_reactive_lookups (r : nat) (st : State) :
  isReactive (VObj r) st = false →
  reactiveToRaw (tables st) !! r = None ∧ readonlyToRaw (tables st) !! r = None.
Proof.
  unfold isReactive. simpl. intros H. apply orb_false_iff in H as [H1 H2].
  apply bool_decide_eq_false in H1, H2. split.
  - destruct (reactiveToRaw (tables st) !! r) eqn:E; [destruct H1; eauto|reflexivity].
  - destruct (readonlyToRaw (tables st) !! r) eqn:E; [destruct H2; eauto|reflexivity].
Qed.

Lemma toRaw_non_object (v : value) (st : State) : isObject v = false → toRaw v st = v.
Proof. destruct v; try discriminate; reflexivity. Qed.

Lemma createReactiveObject_non_object (v : value) (toProxy toRaw : WeakMapName)
    (h1 h2 : Handlers) (st : State) :
  isObject v = false →
  createReactiveObject v toProxy toRaw h1 h2 st =
  (v, if __DEV__ st then set_console (console st ++ [CannotBeMadeReactive v]) st else st).
Proof. destruct v; try discriminate; reflexivity. Qed.

(** X1: [toRaw] undoes [reactive] and [readonly]: for a value that is not
    already a proxy, the raw value of what either returns (a new proxy, a
    cached one, or the value itself) is the value. *)
Theorem toRaw_inverts_reactive (target : value) (st : State) :
  proxies_wf st →
  isReactive target st = false →
  toRaw (reactive target st).1 (reactive target st).2 = target ∧
  toRaw (readonly target st).1 (readonly target st).2 = target.
Proof.
  intros Hwf Hnot.
  destruct (isObject target) eqn:Hobj.
  - destruct target as [| | |r| |]; try discriminate Hobj.
    destruct (not_reactive_lookups r st Hnot) as [Hre Hro].
    assert (Hreadonly : toRaw (readonly (VObj r) st).1 (readonly (VObj r) st).2 = VObj r).
    { unfold readonly. rewrite Hre. apply toRaw_create_readonly; assumption. }
    split; [|exact Hreadonly].
    unfold reactive. simpl. rewrite Hro. rewrite bool_decide_false by (intros [? [=]]).
    destruct (bool_decide (r ∈ readonlyValues (tables st))); [exact Hreadonly|].
    apply toRaw_create_reactive; assumption.
  - unfold reactive, readonly.
    assert (Hw : wm_has ReadonlyToRaw target (tables st) = false)
      by (destruct target; try discriminate Hobj; reflexivity).
    assert (Hs : ws_has (readonlyValues (tables st)) target = false)
      by (destruct target; try discriminate Hobj; reflexivity).
    assert (Ht : match target with
                 | VObj t => match reactiveToRaw (tables st) !! t with
                             | Some rawTarget => VObj rawTarget
                             | None => target
                             end
                 | _ => target
                 end = target)
      by (destruct target; try discriminate Hobj; reflexivity).
    rewrite Hw, Hs, Ht, !createReactiveObject_non_object by exact Hobj.
    simpl. split; apply toRaw_non_object, Hobj.
Qed.

Lemma one_object_state_wf : proxies_wf one_object_state.
Proof.
  apply (proxies_wf_alloc [Computed.plain_object] (initial_state true)); try reflexivity.
  apply proxies_wf_initial.
Qed.

Lemma toRaw_inverts_reactive_witness :
  (reactive (VObj 0) one_object_state).1 = VObj 1 ∧
  toRaw (reactive (VObj 0) one_object_state).1 (reactive (VObj 0) one_object_state).2 = VObj 0 ∧
  toRaw (readonly (VObj 0) one_object_state).1 (readonly (VObj 0) one_object_state).2 = VObj 0.
Proof.
  split; [reflexivity|].
  apply (toRaw_inverts_reactive (VObj 0) one_object_state one_object_state_wf).
  reflexivity.
Defined.

(** X2: the read-only view of a mutable proxy is the read-only view of
    its raw object: [readonly(p)] and [readonly(toRaw(p))] return the same
    result (the read-only proxy, or the raw object itself when that
    cannot be observed) and leave the same state, and [toRaw] of the
    result is the raw object. *)
Theorem readonly_of_reactive_proxy (p t : nat) (st : State) :
  proxies_wf st →
  reactiveToRaw (tables st) !! p = Some t →
  toRaw (VObj p) st = VObj t ∧
  readonly (VObj p) st = readonly (VObj t) st ∧
  toRaw (readonly (VObj p) st).1 (readonly (VObj p) st).2 = VObj t.
Proof.
  intros Hwf Hp.
  assert (Hre : reactiveToRaw (tables st) !! t = None)
    by (eapply raw_is_not_reactive; eassumption).
  assert (Hro : readonlyToRaw (tables st) !! t = None).
  { destruct Hwf as (_ & H1 & _ & _ & H4).
    destruct (readonlyToRaw (tables st) !! t) eqn:E; [|reflexivity].
    destruct (H4 t) as (A1 & _); [eauto|]. apply H1 in Hp. congruence. }
  split; [unfold toRaw; rewrite Hp; reflexivity|].
  assert (Heq : readonly (VObj p) st = readonly (VObj t) st)
    by (unfold readonly; rewrite Hp, Hre; reflexivity).
  split; [exact Heq|]. rewrite Heq. unfold readonly. rewrite Hre.
  apply toRaw_create_readonly; assumption.
Qed.

Lemma readonly_of_reactive_proxy_witness :
  readonly (VObj 1) proxy_state = readonly (VObj 0) proxy_state ∧
  (readonly (VObj 1) proxy_state).1 = VObj 2.
Proof.
  assert (Hwf : proxies_wf proxy_state) by apply proxies_wf_reactive, one_object_state_wf.
  destruct (readonly_of_reactive_proxy 1 0 proxy_state Hwf eq_refl) as (_ & H & _).
  split; [exact H|reflexivity].
Defined.

Lemma canObserve_markNonReactive (r : nat) (st : State) :
  canObserve (markNonReactive (VObj r) st).2 r = false.
Proof.
  unfold canObserve. simpl. destruct (objects st !! r); [|reflexivity].
  rewrite bool_decide_true by set_solver. simpl. apply andb_false_r.
Qed.

Lemma createReactiveObject_not_observable (r : nat) (toProxy toRaw : WeakMapName)
    (h1 h2 : Handlers) (st : State) :
  canObserve st r = false → wm_get toProxy (tables st) !! r = None →
  createReactiveObject (VObj r) toProxy toRaw h1 h2 st = (VObj r, st).
Proof.
  intros Hobs Hp. unfold createReactiveObject. rewrite Hp, Hobs. simpl.
  destruct (bool_decide _); reflexivity.
Qed.



(** X4: [reactive] and [readonly] of a value that is no object (a
    primitive, or a function such as an effect) return the value, create
    no proxy and touch no table; in a development build they print one
    warning, otherwise the state is unchanged. *)
Theorem non_object_is_returned_with_warning (v : value) (st : State) :
  isObject v = false →
  reactive v st = (v, warned v st) ∧ readonly v st = (v, warned v st) ∧
  tables (warned v st) = tables st ∧ objects (warned v st) = objects st ∧
  targetMap (warned v st) = targetMap st ∧
  (__DEV__ st = false → warned v st = st).
Proof.
  intros Hobj. unfold reactive, readonly, warned.
  assert (Hw : wm_has ReadonlyToRaw v (tables st) = false)
    by (destruct v; try discriminate Hobj; reflexivity).
  assert (Hs : ws_has (readonlyValues (tables st)) v = false)
    by (destruct v; try discriminate Hobj; reflexivity).
  assert (Ht : match v with
               | VObj t => match reactiveToRaw (tables st) !! t with
                           | Some rawTarget => VObj rawTarget
                           | None => v
                           end
               | _ => v
               end = v)
    by (destruct v; try discriminate Hobj; reflexivity).
  rewrite Hw, Hs, Ht, !createReactiveObject_non_object by exact Hobj.
  repeat split; try (destruct (__DEV__ st); reflexivity).
  intros ->. reflexivity.
Qed.

Lemma non_object_is_returned_with_warning_witness :
  reactive (VNum 3) (initial_state true) =
    (VNum 3, set_console [CannotBeMadeReactive (VNum 3)] (initial_state true)) ∧
  reactive (VNum 3) (initial_state false) = (VNum 3, initial_state false).
Proof.
  split.
  - destruct (non_object_is_returned_with_warning (VNum 3) (initial_state true) eq_refl)
      as (H & _). exact H.
  - destruct (non_object_is_returned_with_warning (VNum 3) (initial_state false) eq_refl)
      as (H & _). exact H.
Defined.

(** ** track *)

Lemma map_get_map_set (k : option PropKey) (d : nat) (m : list (option PropKey * nat)) :
  map_get k (map_set k d m) = Some d.
Proof.
  induction m as [|[k' d'] m IH]; simpl.
  - rewrite decide_True by reflexivity. reflexivity.
  - destruct (decide (k' = k)) as [->|Hne]; simpl.
    + rewrite decide_True by reflexivity. reflexivity.
    + rewrite decide_False by exact Hne. exact IH.
Qed.

Lemma getDep_lookup (target : nat) (key : option PropKey) (st : State) :
  ∃ m, targetMap (getDep target key st).2 !! target = Some m ∧
       map_get key m = Some (getDep target key st).1.
Proof.
  unfold getDep, getDepsMap. destruct (targetMap st !! target) as [m|] eqn:Hm.
  - destruct (map_get key m) as [dep|] eqn:Hk; simpl.
    + eauto.
    + rewrite lookup_insert_eq. eexists. split; [reflexivity|apply map_get_map_set].
  - simpl. rewrite lookup_insert_eq. eexists. split; [reflexivity|].
    apply (map_get_map_set key (length (sets st)) []).
Qed.

(** Looking up a registered key changes nothing. *)
Lemma getDep_registered (target : nat) (key : option PropKey) (st : State)
    (m : list (option PropKey * nat)) (dep : nat) :
  targetMap st !! target = Some m → map_get key m = Some dep →
  getDep target key st = (dep, st).
Proof. intros Hm Hk. unfold getDep, getDepsMap. rewrite Hm, Hk. reflexivity. Qed.

(** What [track] does when it does subscribe and calls no hook. *)
Lemma track_unfold (ex : Exec) (target : nat) (type : OperationTypes)
    (key : option PropKey) (e : nat) (er : ReactiveEffect) (st : State) :
  shouldTrack st = true →
  last (activeReactiveEffectStack st) = Some e →
  effects st !! e = Some er →
  __DEV__ st = false ∨ onTrack er = None →
  track ex target type key st =
  (Normal VUndefined,
   let '(dep, st1) := getDep target (tracked_key type key) st in
   if dep_has dep e st1 then st1 else subscribe dep e st1).
Proof.
  intros Hst Hlast Her Hhook. unfold track, tracked_key. rewrite Hst, Hlast, Her. simpl.
  destruct (getDep target _ st) as [dep st1] eqn:Hg.
  destruct (dep_has dep e st1); simpl; [reflexivity|].
  assert (Hdev : __DEV__ st1 = __DEV__ st).
  { pose proof (getDep_outside target (if decide (type = ITERATE) then Some ITERATE_KEY else key) st)
      as Ho. rewrite Hg in Ho. apply Ho. }
  rewrite Hdev. destruct Hhook as [-> | ->]; [reflexivity|].
  destruct (__DEV__ st); reflexivity.
Qed.

Lemma member_subscribe_self (dep e : nat) (st : State) :
  dep < length (sets st) → member (subscribe dep e st) e dep.
Proof.
  intros Hlt. apply lookup_lt_is_Some in Hlt as [s Hs].
  exists (set_add e s). split.
  - simpl. rewrite list_lookup_alter_eq, Hs. reflexivity.
  - apply elem_of_set_add. auto.
Qed.

Lemma dep_has_member (dep e : nat) (st : State) :
  dep_has dep e st = true ↔ member st e dep.
Proof.
  unfold dep_has, member, set_has. destruct (sets st !! dep) as [s|].
  - rewrite bool_decide_eq_true. split; [eauto|]. intros (s' & [= <-] & H). exact H.
  - split; [discriminate|]. intros (s' & [=] & _).
Qed.

(** The state after a [track] that calls no hook. *)
Lemma track_post (ex : Exec) (target : nat) (type : OperationTypes)
    (key : option PropKey) (e : nat) (er : ReactiveEffect) (st : State) :
  consistent st →
  shouldTrack st = true →
  last (activeReactiveEffectStack st) = Some e →
  effects st !! e = Some er →
  __DEV__ st = false ∨ onTrack er = None →
  let st' := (track ex target type key st).2 in
  (track ex target type key st).1 = Normal VUndefined ∧
  consistent st' ∧
  same_outside_graph st st' ∧
  (∃ er', effects st' !! e = Some er' ∧ onTrack er' = onTrack er) ∧
  ∃ depsMap dep,
    targetMap st' !! target = Some depsMap ∧
    map_get (tracked_key type key) depsMap = Some dep ∧
    member st' e dep.
Proof.
  intros Hc Hst Hlast Her Hhook.
  rewrite (track_unfold ex target type key e er st Hst Hlast Her Hhook). simpl.
  destruct (getDep_consistent target (tracked_key type key) st Hc) as (Hc1 & Hdep & Heff & _).
  destruct (getDep_lookup target (tracked_key type key) st) as (m & Hm & Hk).
  pose proof (getDep_outside target (tracked_key type key) st) as Hout.
  destruct (getDep target (tracked_key type key) st) as [dep st1]. simpl in *.
  split; [reflexivity|].
  destruct (dep_has dep e st1) eqn:Hhas.
  - split; [exact Hc1|]. split; [exact Hout|]. split.
    + exists er. rewrite Heff. auto.
    + exists m, dep. split; [exact Hm|]. split; [exact Hk|]. apply dep_has_member, Hhas.
  - split.
    { apply consistent_subscribe; [exact Hc1|exact Hdep|].
      rewrite Heff. apply lookup_lt_Some in Her. exact Her. }
    split; [eapply same_outside_graph_trans; [exact Hout|apply subscribe_outside]|].
    split.
    + eexists. simpl. rewrite list_lookup_alter_eq, Heff, Her. simpl.
      split; reflexivity.
    + exists m, dep. split; [exact Hm|]. split; [exact Hk|].
      apply member_subscribe_self, Hdep.
Qed.

Lemma member_resolved_by_key (st : State) (depsMap : list (option PropKey * nat))
    (target : nat) (type : OperationTypes) (k : PropKey) (dep e : nat) :
  map_get (Some k) depsMap = Some dep → member st e dep →
  resolved (collectRunners st depsMap target type (Some k)) e.
Proof.
  intros Hk (s & Hs & He). apply collectRunners_affected. unfold affected.
  destruct (decide (type = CLEAR)).
  - exists (Some k), dep, s. split; [apply map_get_elem_of, Hk|auto].
  - left. exists k, s. split; [reflexivity|]. split; [|exact He].
    unfold dep_get. rewrite Hk. exact Hs.
Qed.

(** X5: a read is answered by a write. After [track] of a key with an
    effect on top of the stack (and no on-track hook to run), the effect
    is a member of the Set registered under that key, so a [trigger] on
    the same target collects it: with any kind of change for that key,
    with kind CLEAR whatever the key, and, for an ITERATE read, with kind
    ADD or DELETE of any key when the target is not an array. *)
Theorem track_then_trigger_collects (ex : Exec) (target : nat) (type : OperationTypes)
    (key : option PropKey) (e : nat) (er : ReactiveEffect) (st : State) :
  consistent st →
  shouldTrack st = true →
  last (activeReactiveEffectStack st) = Some e →
  effects st !! e = Some er →
  __DEV__ st = false ∨ onTrack er = None →
  let st' := (track ex target type key st).2 in
  ∃ depsMap,
    targetMap st' !! target = Some depsMap ∧
    (∀ k type', tracked_key type key = Some k →
       resolved (collectRunners st' depsMap target type' (Some k)) e) ∧
    (∀ key', resolved (collectRunners st' depsMap target CLEAR key') e) ∧
    (type = ITERATE → is_array st' target = false →
     ∀ key', resolved (collectRunners st' depsMap target ADD key') e ∧
             resolved (collectRunners st' depsMap target DELETE key') e).
Proof.
  intros Hc Hst Hlast Her Hhook st'.
  destruct (track_post ex target type key e er st Hc Hst Hlast Her Hhook)
    as (_ & _ & _ & _ & depsMap & dep & Hm & Hk & Hmem).
  fold st' in Hm, Hmem. exists depsMap. split; [exact Hm|]. split; [|split].
  - intros k type' Hkey. rewrite Hkey in Hk.
    eapply member_resolved_by_key; eassumption.
  - intros key'. destruct Hmem as (s & Hs & He).
    apply collectRunners_affected. unfold affected. simpl.
    exists (tracked_key type key), dep, s. split; [apply map_get_elem_of, Hk|auto].
  - intros -> Harr key'. unfold tracked_key in Hk. simpl in Hk.
    destruct Hmem as (s & Hs & He).
    split; apply collectRunners_affected; unfold affected; simpl; right;
      (split; [auto|]); rewrite Harr; exists s; (split; [|exact He]);
      unfold dep_get; rewrite Hk; exact Hs.
Qed.

Lemma reading_state_consistent : consistent reading_state.
Proof.
  pose proof (consistent_createReactiveEffect reading_fn lazy_options (initial_state false)
                (consistent_initial false)) as [Hagree [Hmap _]].
  split; [exact Hagree|]. split; [exact Hmap|].
  intros e He. apply list_elem_of_singleton in He as ->. simpl. lia.
Qed.

Lemma track_then_trigger_collects_witness :
  let st' := (track (exec 0) 0 GET (Some (KString "count")) reading_state).2 in
  ∃ depsMap,
    targetMap st' !! 0 = Some depsMap ∧
    resolved (collectRunners st' depsMap 0 SET (Some (KString "count"))) 0.
Proof.
  destruct (track_then_trigger_collects (exec 0) 0 GET (Some (KString "count")) 0 _
              reading_state reading_state_consistent eq_refl eq_refl eq_refl
              (or_introl eq_refl))
    as (depsMap & Hm & Hkey & _).
  exists depsMap. split; [exact Hm|]. apply Hkey. reflexivity.
Defined.

(** X6: tracking the same read twice is tracking it once: with no
    on-track hook to run (a production build, or an effect without the
    hook), a second [track] of the same target, kind and key by the same
    effect returns normally and changes nothing, so no Set is listed
    twice in [deps] for one key. *)
Theorem track_twice_is_track_once (ex : Exec) (target : nat) (type : OperationTypes)
    (key : option PropKey) (e : nat) (er : ReactiveEffect) (st : State) :
  consistent st →
  shouldTrack st = true →
  last (activeReactiveEffectStack st) = Some e →
  effects st !! e = Some er →
  __DEV__ st = false ∨ onTrack er = None →
  let st' := (track ex target type key st).2 in
  track ex target type key st' = (Normal VUndefined, st').
Proof.
  intros Hc Hst Hlast Her Hhook st'.
  destruct (track_post ex target type key e er st Hc Hst Hlast Her Hhook)
    as (_ & _ & Hout & (er' & Her' & Hhook') & depsMap & dep & Hm & Hk & Hmem).
  fold st' in Hout, Her', Hm, Hmem.
  destruct Hout as (_ & _ & _ & Hstack & Hshould & Hdev & _).
  rewrite (track_unfold ex target type key e er' st').
  - rewrite (getDep_registered target (tracked_key type key) st' depsMap dep Hm Hk).
    rewrite (proj2 (dep_has_member dep e st') Hmem). reflexivity.
  - rewrite Hshould. exact Hst.
  - rewrite Hstack. exact Hlast.
  - exact Her'.
  - rewrite Hdev, Hhook'. exact Hhook.
Qed.

Lemma track_twice_is_track_once_witness :
  let st' := (track (exec 0) 0 GET (Some (KString "count")) reading_state).2 in
  (deps <$> effects st' !! 0) = Some [0] ∧
  track (exec 0) 0 GET (Some (KString "count")) st' = (Normal VUndefined, st').
Proof.
  split; [reflexivity|].
  apply (track_twice_is_track_once (exec 0) 0 GET (Some (KString "count")) 0 _
           reading_state reading_state_consistent eq_refl eq_refl eq_refl (or_introl eq_refl)).
Defined.

Lemma member_getDep (e target : nat) (key : option PropKey) (st : State) (d : nat) :
  member (getDep target key st).2 e d ↔ member st e d.
Proof.
  split; [apply no_new_member_getDep|].
  intros (s & Hs & He). unfold getDep, getDepsMap, member.
  destruct (targetMap st !! target) as [m|]; [destruct (map_get key m)|]; simpl;
    eauto using lookup_app_l_Some.
Qed.

Lemma member_subscribe_other (e e' dep : nat) (st : State) (d : nat) :
  e' ≠ e → member (subscribe dep e' st) e d ↔ member st e d.
Proof.
  intros Hne. split; [apply no_new_member_subscribe, Hne|].
  intros (s & Hs & He). unfold member. simpl.
  destruct (decide (dep = d)) as [->|Hd].
  - rewrite list_lookup_alter_eq, Hs. simpl. eexists. split; [reflexivity|].
    apply elem_of_set_add. auto.
  - rewrite list_lookup_alter_ne by exact Hd. eauto.
Qed.

(** X7: reads are attributed to the effect on top of the stack and to no
    other: with an empty stack [track] changes nothing at all; with
    effect [e] on top and no on-track hook to run (a production build, or
    an effect without the hook), no other effect (on the stack or not)
    gains or loses a membership or a [deps] entry. *)
Theorem track_subscribes_only_the_top (ex : Exec) (target : nat) (type : OperationTypes)
    (key : option PropKey) (st : State) :
  (activeReactiveEffectStack st = [] →
   track ex target type key st = (Normal VUndefined, st)) ∧
  (∀ e er, shouldTrack st = true →
     last (activeReactiveEffectStack st) = Some e →
     effects st !! e = Some er →
     __DEV__ st = false ∨ onTrack er = None →
     ∀ e', e' ≠ e →
       (∀ d, member (track ex target type key st).2 e' d ↔ member st e' d) ∧
       effects (track ex target type key st).2 !! e' = effects st !! e').
Proof.
  split.
  - intros Hempty. unfold track. rewrite Hempty. destruct (shouldTrack st); reflexivity.
  - intros e er Hst Hlast Her Hhook e' Hne.
    rewrite (track_unfold ex target type key e er st Hst Hlast Her Hhook). simpl.
    pose proof (λ d, member_getDep e' target (tracked_key type key) st d) as Hmem.
    pose proof (effects_getDep target (tracked_key type key) st) as Heff.
    destruct (getDep target (tracked_key type key) st) as [dep st1]. simpl in *.
    destruct (dep_has dep e st1).
    + split; [exact Hmem|]. rewrite Heff. reflexivity.
    + split.
      * intros d. rewrite member_subscribe_other by congruence. apply Hmem.
      * simpl. rewrite list_lookup_alter_ne by congruence. rewrite Heff. reflexivity.
Qed.

Lemma track_subscribes_only_the_top_witness :
  track (exec 0) 0 GET (Some (KString "count")) idle_state = (Normal VUndefined, idle_state) ∧
  (deps <$> effects (track (exec 0) 0 GET (Some (KString "count")) nested_state).2 !! 1)
    = Some [0] ∧
  effects (track (exec 0) 0 GET (Some (KString "count")) nested_state).2 !! 0 =
    effects nested_state !! 0.
Proof.
  split; [|split; [reflexivity|]].
  - apply (track_subscribes_only_the_top (exec 0) 0 GET (Some (KString "count")) idle_state).
    reflexivity.
  - destruct (track_subscribes_only_the_top (exec 0) 0 GET (Some (KString "count"))
                nested_state) as [_ H].
    destruct (H 1 _ eq_refl eq_refl eq_refl (or_introl eq_refl) 0) as [_ Heff]; [lia|].
    exact Heff.
Defined.

(** X8: in a production build [track] runs no user code: its result does
    not depend on how callbacks would be run, the on-track hook of the
    effect is not called, and with an allocated effect on top of the
    stack it returns normally. *)
Theorem track_in_production_calls_no_hook (ex1 ex2 : Exec) (target : nat)
    (type : OperationTypes) (key : option PropKey) (st : State) :
  __DEV__ st = false →
  track ex1 target type key st = track ex2 target type key st ∧
  fnCalls (track ex1 target type key st).2 = fnCalls st ∧
  (∀ e, last (activeReactiveEffectStack st) = Some e → is_Some (effects st !! e) →
        (track ex1 target type key st).1 = Normal VUndefined).
Proof.
  intros Hdev.
  assert (Hshape : ∀ ex : Exec,
            track ex target type key st =
            if negb (shouldTrack st) then (Normal VUndefined, st)
            else match last (activeReactiveEffectStack st) with
                 | None => (Normal VUndefined, st)
                 | Some e =>
                     match effects st !! e with
                     | None => (Thrown VTypeError, st)
                     | Some er =>
                         (Normal VUndefined,
                          let '(dep, st1) := getDep target (tracked_key type key) st in
                          if dep_has dep e st1 then st1 else subscribe dep e st1)
                     end
                 end).
  { intros ex. destruct (shouldTrack st) eqn:Hst; [|unfold track; rewrite Hst; reflexivity].
    destruct (last (activeReactiveEffectStack st)) as [e|] eqn:Hlast;
      [|unfold track; rewrite Hst, Hlast; reflexivity].
    destruct (effects st !! e) as [er|] eqn:Her;
      [|unfold track; rewrite Hst, Hlast, Her; reflexivity].
    simpl. apply (track_unfold ex target type key e er st); auto. }
  split; [rewrite (Hshape ex1), (Hshape ex2); reflexivity|]. rewrite (Hshape ex1). split.
  - destruct (shouldTrack st); simpl; [|reflexivity].
    destruct (last (activeReactiveEffectStack st)) as [e|]; [|reflexivity].
    destruct (effects st !! e); [|reflexivity]. simpl.
    pose proof (getDep_outside target (tracked_key type key) st) as Hout.
    destruct (getDep target (tracked_key type key) st) as [dep st1]. simpl in *.
    destruct (dep_has dep e st1); simpl; apply Hout.
  - intros e Hlast [er Her]. rewrite Hlast, Her. destruct (shouldTrack st); reflexivity.
Qed.

Lemma track_in_production_calls_no_hook_witness :
  track (exec 0) 0 GET (Some (KString "count")) reading_state =
  track (exec 5) 0 GET (Some (KString "count")) reading_state.
Proof.
  apply (track_in_production_calls_no_hook (exec 0) (exec 5) 0 GET
           (Some (KString "count")) reading_state).
  reflexivity.
Defined.

(** ** cleanup and the start of a run *)

Lemma cleanup_record (e : nat) (er : ReactiveEffect) (st : State) :
  effects st !! e = Some er → effects (cleanup e st) !! e = Some (set_deps [] er).
Proof.
  intros Her. unfold cleanup. rewrite Her.
  destruct (deps er) eqn:Hd.
  - rewrite Her. destruct er. simpl in Hd. subst. reflexivity.
  - simpl. rewrite list_lookup_alter_eq, Her. reflexivity.
Qed.

(** X9: [cleanup] detaches the effect and nothing else: afterwards the
    effect is a member of no Set and its [deps] is empty, every other
    effect has the memberships and the record it had, and [targetMap]
    still holds every Set. *)
Theorem cleanup_detaches_only_the_effect (e : nat) (st : State) :
  consistent st →
  (∀ d, ¬ member (cleanup e st) e d) ∧
  (∀ er, effects st !! e = Some er → effects (cleanup e st) !! e = Some (set_deps [] er)) ∧
  (∀ e' d, e' ≠ e → (member (cleanup e st) e' d ↔ member st e' d)) ∧
  (∀ e', e' ≠ e → effects (cleanup e st) !! e' = effects st !! e') ∧
  targetMap (cleanup e st) = targetMap st ∧
  consistent (cleanup e st).
Proof.
  intros Hc. split; [apply cleanup_detaches, Hc|].
  split; [|split; [|split; [|split; [|apply consistent_cleanup, Hc]]]].
  - intros er. apply cleanup_record.
  - intros e' d Hne. unfold cleanup.
    destruct (effects st !! e) as [er|]; [|reflexivity].
    destruct (deps er) eqn:Hd; [reflexivity|]. rewrite <- Hd.
    unfold member at 1. simpl. rewrite cleanup_sets_member. unfold member. split.
    + intros (s & H1 & H2 & _). eauto.
    + intros (s & H1 & H2). exists s. auto.
  - intros e' Hne. unfold cleanup.
    destruct (effects st !! e) as [er|]; [|reflexivity].
    destruct (deps er); [reflexivity|]. simpl.
    apply list_lookup_alter_ne. congruence.
  - unfold cleanup. destruct (effects st !! e) as [er|]; [|reflexivity].
    destruct (deps er); reflexivity.
Qed.

Lemma cleanup_detaches_only_the_effect_witness :
  member subscribed_state 0 0 ∧ ¬ member (cleanup 0 subscribed_state) 0 0.
Proof.
  split; [exists [0]; split; [reflexivity|apply list_elem_of_here]|].
  assert (Hc : consistent subscribed_state).
  { apply (do_op_consistent (exec 9) (exec_consistent 9)
             (OpEffect (FnPlain reading_fn) plain_options)), consistent_initial. }
  destruct (cleanup_detaches_only_the_effect 0 subscribed_state Hc) as (H & _).
  apply H.
Defined.

(** X10: a run starts from nothing: when [run] is called on an active
    effect that is not on the stack, the computation starts with the
    effect on top of the stack, a member of no Set and with an empty
    [deps], so what it is subscribed to when the run ends is what was
    read during this run. *)
Theorem run_starts_unsubscribed (ex : Exec) (effect : nat) (er : ReactiveEffect)
    (fn : list value → prog) (args : list value) (st : State) :
  consistent st →
  effects st !! effect = Some er →
  active er = true →
  effect ∉ activeReactiveEffectStack st →
  let st1 := cleanup effect st in
  let st2 := set_stack (activeReactiveEffectStack st1 ++ [effect]) st1 in
  let entered := set_fnCalls (fnCalls st2 ++ [effect]) st2 in
  run ex effect fn args st =
    ((ex (fn args) entered).1,
     set_stack (removelast (activeReactiveEffectStack (ex (fn args) entered).2))
       (ex (fn args) entered).2) ∧
  last (activeReactiveEffectStack entered) = Some effect ∧
  (∀ d, ¬ member entered effect d) ∧
  effects entered !! effect = Some (set_deps [] er) ∧
  consistent entered.
Proof.
  intros Hc Her Hact Hnot st1 st2 entered.
  pose proof (cleanup_detaches effect st (proj1 Hc)) as Hdet.
  pose proof (consistent_cleanup effect st Hc) as Hc1.
  split; [|split; [|split; [|split]]].
  - unfold run. rewrite Her, Hact. cbn [negb]. rewrite bool_decide_true by exact Hnot.
    change (ex (fn args) _) with (ex (fn args) entered).
    destruct (ex (fn args) entered) as [r st3]. reflexivity.
  - subst entered st2. simpl. apply last_snoc.
  - exact Hdet.
  - apply cleanup_record, Her.
  - destruct Hc1 as [Hagree [Hmap Hstack]]. split; [exact Hagree|]. split; [exact Hmap|].
    intros x Hx. subst entered st2. simpl in Hx |- *.
    apply elem_of_app in Hx as [Hx|Hx]; [apply Hstack, Hx|].
    apply list_elem_of_singleton in Hx as ->.
    subst st1. rewrite effects_length_cleanup. apply lookup_lt_Some in Her. exact Her.
Qed.

Lemma run_starts_unsubscribed_witness :
  let st1 := cleanup 0 subscribed_state in
  let st2 := set_stack (activeReactiveEffectStack st1 ++ [0]) st1 in
  let entered := set_fnCalls (fnCalls st2 ++ [0]) st2 in
  member subscribed_state 0 0 ∧
  last (activeReactiveEffectStack entered) = Some 0 ∧
  ∀ d, ¬ member entered 0 d.
Proof.
  split; [exists [0]; split; [reflexivity|apply list_elem_of_here]|].
  assert (Hc : consistent subscribed_state).
  { apply (do_op_consistent (exec 9) (exec_consistent 9)
             (OpEffect (FnPlain reading_fn) plain_options)), consistent_initial. }
  assert (Hnot : 0 ∉ activeReactiveEffectStack subscribed_state) by apply not_elem_of_nil.
  destruct (run_starts_unsubscribed (exec 0) 0 _ reading_fn [] subscribed_state
              Hc eq_refl eq_refl Hnot) as (_ & Hlast & Hdet & _).
  split; [exact Hlast|exact Hdet].
Defined.

(** ** trigger *)

Lemma nil_of_no_element (l : list nat) : (∀ e, e ∉ l) → l = [].
Proof.
  destruct l as [|x l]; [reflexivity|]. intros H. destruct (H x). apply list_elem_of_here.
Qed.

(** X11: a [trigger] that affects no effect does nothing: when no effect
    is a member of the Sets the change concerns (the key was never read,
    its Set has been emptied by cleanups, or no key is given), [trigger]
    returns normally, calls no user code and leaves the state as it was. *)
Theorem trigger_without_subscriber_is_noop (ex : Exec) (target : nat)
    (type : OperationTypes) (key : option PropKey) (extraInfo : option value)
    (st : State) (depsMap : list (option PropKey * nat)) :
  targetMap st !! target = Some depsMap →
  (∀ e, ¬ affected st depsMap target type key e) →
  trigger ex target type key extraInfo st = (Normal VUndefined, st).
Proof.
  intros Hm Hnone.
  assert (Hres : ∀ e, ¬ resolved (collectRunners st depsMap target type key) e).
  { intros e H. apply collectRunners_affected in H. exact (Hnone e H). }
  rewrite (trigger_unfold ex target type key extraInfo st depsMap Hm).
  assert (H1 : (collectRunners st depsMap target type key).1 = []).
  { apply nil_of_no_element. intros e He. apply (Hres e). left. exact He. }
  assert (H2 : (collectRunners st depsMap target type key).2 = []).
  { apply nil_of_no_element. intros e He. apply (Hres e). right. exact He. }
  rewrite H1, H2. reflexivity.
Qed.

Lemma trigger_without_subscriber_is_noop_witness :
  trigger (exec 9) 0 SET (Some (KString "other")) None subscribed_state =
    (Normal VUndefined, subscribed_state) ∧
  trigger (exec 9) 0 SET None None subscribed_state = (Normal VUndefined, subscribed_state).
Proof.
  split.
  - apply (trigger_without_subscriber_is_noop (exec 9) 0 SET (Some (KString "other")) None
             subscribed_state [(Some (KString "count"), 0)] eq_refl).
    intros e [(k & s & [= <-] & Hs & _)|([H|H] & _)]; discriminate.
  - apply (trigger_without_subscriber_is_noop (exec 9) 0 SET None None
             subscribed_state [(Some (KString "count"), 0)] eq_refl).
    intros e [(k & s & [=] & _)|([H|H] & _)]; discriminate.
Defined.

Lemma NoDup_set_add (e : nat) (s : list nat) : NoDup s → NoDup (set_add e s).
Proof.
  intros H. unfold set_add, set_has. case_bool_decide as He; [exact H|].
  apply NoDup_app. split; [exact H|]. split.
  - intros x Hx Hx'. apply list_elem_of_singleton in Hx'. subst. exact (He Hx).
  - apply NoDup_singleton.
Qed.

Lemma addRunners_NoDup (st : State) (o : option (list nat)) (acc : list nat * list nat) :
  NoDup acc.1 → NoDup acc.2 →
  NoDup (addRunners st acc o).1 ∧ NoDup (addRunners st acc o).2.
Proof.
  destruct o as [s|]; [|auto]. simpl. revert acc.
  induction s as [|x s IH]; intros [effs comp] H1 H2; simpl; [auto|].
  apply IH; destruct (is_computed st x); simpl in *; auto using NoDup_set_add.
Qed.

Lemma collectRunners_NoDup (st : State) (depsMap : list (option PropKey * nat))
    (target : nat) (type : OperationTypes) (key : option PropKey) :
  NoDup (collectRunners st depsMap target type key).1 ∧
  NoDup (collectRunners st depsMap target type key).2.
Proof.
  assert (Hnil : NoDup ([] : list nat)) by apply NoDup_nil_2.
  unfold collectRunners. destruct (decide (type = CLEAR)).
  - assert (∀ (m : list (option PropKey * nat)) (acc : list nat * list nat),
              NoDup acc.1 → NoDup acc.2 →
              NoDup (foldl (λ a kd, addRunners st a (sets st !! kd.2)) acc m).1 ∧
              NoDup (foldl (λ a kd, addRunners st a (sets st !! kd.2)) acc m).2) as Hfold.
    { induction m as [|kd m IH]; intros acc H1 H2; simpl; [auto|].
      apply IH; apply addRunners_NoDup; assumption. }
    apply Hfold; exact Hnil.
  - set (acc1 := match key with
                 | Some k => addRunners st ([], []) (dep_get st depsMap (Some k))
                 | None => ([], [])
                 end).
    assert (Hacc1 : NoDup acc1.1 ∧ NoDup acc1.2).
    { subst acc1. destruct key; [apply addRunners_NoDup|split]; exact Hnil. }
    destruct (bool_decide (type = ADD) || bool_decide (type = DELETE)); [|exact Hacc1].
    apply addRunners_NoDup; apply Hacc1.
Qed.

(** X12: one [trigger] schedules an effect at most once: the list of
    effects it goes through, computed ones first, has no duplicates, also
    when an effect is a member of several of the Sets concerned (the key
    and the iteration key, or several keys on CLEAR). *)
Theorem trigger_schedules_each_effect_once (ex : Exec) (target : nat)
    (type : OperationTypes) (key : option PropKey) (extraInfo : option value)
    (st : State) (depsMap : list (option PropKey * nat)) :
  targetMap st !! target = Some depsMap →
  ∃ l, NoDup l ∧
       (∀ e, e ∈ l ↔ affected st depsMap target type key e) ∧
       trigger ex target type key extraInfo st =
       forEach (λ e, scheduleRun ex e target type key extraInfo) l st.
Proof.
  intros Hm.
  exists ((collectRunners st depsMap target type key).2 ++
          (collectRunners st depsMap target type key).1).
  destruct (collectRunners_NoDup st depsMap target type key) as [H1 H2].
  destruct (collectRunners_partition st depsMap target type key) as [P2 P1].
  split; [|split].
  - apply NoDup_app. split; [exact H2|]. split; [|exact H1].
    intros e He2 He1. specialize (P1 e He1). rewrite (P2 e He2) in P1. discriminate P1.
  - intros e. rewrite <- collectRunners_affected. unfold resolved.
    rewrite elem_of_app. tauto.
  - apply trigger_unfold, Hm.
Qed.

Lemma trigger_schedules_each_effect_once_witness :
  (deps <$> effects iterating_state !! 0) = Some [0; 1] ∧
  ∃ l, NoDup l ∧ 0 ∈ l ∧
       trigger (exec 9) 0 ADD (Some (KString "count")) None iterating_state =
       forEach (λ e, scheduleRun (exec 9) e 0 ADD (Some (KString "count")) None) l
         iterating_state.
Proof.
  split; [reflexivity|].
  destruct (trigger_schedules_each_effect_once (exec 9) 0 ADD (Some (KString "count")) None
              iterating_state [(Some (KString "count"), 0); (Some ITERATE_KEY, 1)] eq_refl)
    as (l & Hnodup & Hmem & Htrig).
  exists l. split; [exact Hnodup|]. split; [|exact Htrig].
  apply Hmem. left. exists (KString "count"), [0].
  split; [reflexivity|]. split; [reflexivity|apply list_elem_of_here].
Defined.

(** ** effect and computed *)

(** The log of calls only grows. *)
Lemma exec_calls_prefix (fuel : nat) (p : prog) (st : State) :
  fnCalls st `prefix_of` fnCalls (exec fuel p st).2.
Proof.
  apply (exec_preserves (λ l s, l `prefix_of` fnCalls s)); [|reflexivity].
  clear. intros ex Hex l op.
  apply (do_op_preserves (λ l s, l `prefix_of` fnCalls s) (λ _, True) ex Hex);
    [clear..|intros; exact Logic.I].
  - intros l e er st H _ _. simpl. apply prefix_app_r, H.
  - intros l e st H. destruct (cleanup_outside e st) as (_ & _ & _ & _ & _ & _ & _ & -> & _).
    exact H.
  - intros l e er st H _ _ _. exists l. split.
    + simpl. apply prefix_app_r.
      destruct (cleanup_outside e st) as (_ & _ & _ & _ & _ & _ & _ & -> & _). exact H.
    + intros st3 H3. exact H3.
  - intros l target key e er st H _ _.
    destruct (getDep_outside target key st) as (_ & _ & _ & _ & _ & _ & _ & Hf & _).
    split; [rewrite Hf; exact H|]. intros _. simpl. rewrite Hf. exact H.
  - intros l e st H. exact H.
  - intros l fn options st H. exact H.
  - intros l c st H. exact H.
  - intros l c v st _ H. exact H.
  - intros l child st H.
    destruct (trackChildRun_outside child st) as (_ & _ & _ & _ & _ & _ & _ & -> & _). exact H.
  - intros l c r s st H. exact H.
  - intros l v st H. unfold reactive. destruct (wm_has _ _ _); [exact H|].
    destruct (ws_has _ _); [unfold readonly|];
      match goal with |- context [createReactiveObject ?a ?b ?c ?d ?e st] =>
        destruct (createReactiveObject_graph a b c d e st) as (_ & _ & _ & _ & -> & _)
      end; exact H.
  - intros l v st H. unfold readonly.
    match goal with |- context [createReactiveObject ?a ?b ?c ?d ?e st] =>
      destruct (createReactiveObject_graph a b c d e st) as (_ & _ & _ & _ & -> & _)
    end. exact H.
  - intros l v st H. destruct v; exact H.
  - intros l v st H. destruct v; exact H.
  - intros l o st H. exact H.
  - intros l m st H. exact H.
  - intros l b st H. exact H.
Qed.

(** X13: [effect] creates a new effect around [fn] (around [fn.raw] when
    [fn] is itself an effect) and, unless [lazy] is set, runs it before
    returning. With [lazy] nothing runs and only the effect table grows;
    without it the first call of the new computation is the next entry
    of the call log, the stack is back to what it was, and if the
    computation returns, [effect] returns the new effect. *)
Theorem effect_runs_unless_lazy (fuel : nat) (fn : FnArg prog)
    (options : ReactiveEffectOptions prog) (f : list value → prog) (st : State) :
  consistent st →
  fn_of fn st = Some f →
  let e := length (effects st) in
  let created := (createReactiveEffect f options st).2 in
  let r := effect (exec fuel) fn options st in
  (∃ er, effects created !! e = Some er ∧ raw er = f ∧ active er = true ∧ deps er = []) ∧
  (∀ e', e' < e → effects created !! e' = effects st !! e') ∧
  activeReactiveEffectStack r.2 = activeReactiveEffectStack st ∧
  (lazy options = true → r = (Normal (VEffect e), created)) ∧
  (lazy options = false →
     (fnCalls st ++ [e]) `prefix_of` fnCalls r.2 ∧
     (∀ v, r.1 = Normal v → v = VEffect e)).
Proof.
  intros Hc Hfn e created r.
  assert (Hnew : effects created !! e =
                 Some {| active := true; raw := f; deps := [];
                         computed := opt_computed options; scheduler := opt_scheduler options;
                         onTrack := opt_onTrack options; onTrigger := opt_onTrigger options;
                         onStop := opt_onStop options |}).
  { subst created e. simpl. rewrite lookup_app_r by lia.
    rewrite Nat.sub_diag. reflexivity. }
  assert (Hr : r = if lazy options then (Normal (VEffect e), created)
                   else (call_effect (exec fuel) e [] ;; ret (VEffect e)) created).
  { subst r. unfold effect. unfold fn_of in Hfn. rewrite Hfn. reflexivity. }
  assert (Hnot : e ∉ activeReactiveEffectStack created).
  { intros Hin. destruct Hc as [_ [_ Hstack]]. apply Hstack in Hin. subst e. lia. }
  assert (Hrun : call_effect (exec fuel) e [] created =
                 let entered := set_fnCalls (fnCalls st ++ [e])
                                  (set_stack (activeReactiveEffectStack st ++ [e]) created) in
                 ((exec fuel (f []) entered).1,
                  set_stack (removelast (activeReactiveEffectStack (exec fuel (f []) entered).2))
                    (exec fuel (f []) entered).2)).
  { unfold call_effect, run. rewrite Hnew. simpl.
    rewrite bool_decide_true by exact Hnot.
    unfold cleanup. rewrite Hnew. simpl.
    destruct (exec fuel (f []) _) as [r0 st3]. reflexivity. }
  split; [eexists; split; [exact Hnew|repeat split]|].
  split; [intros e' He'; subst created; simpl; apply lookup_app_l; exact He'|].
  rewrite Hr. unfold bind. rewrite Hrun. cbv zeta.
  set (entered := set_fnCalls (fnCalls st ++ [e])
                    (set_stack (activeReactiveEffectStack st ++ [e]) created)).
  pose proof (exec_stack fuel (f []) entered) as Hstack.
  pose proof (exec_calls_prefix fuel (f []) entered) as Hcalls.
  destruct (exec fuel (f []) entered) as [r0 st3]. simpl in Hstack, Hcalls |- *.
  assert (Hpop : removelast (activeReactiveEffectStack st3) = activeReactiveEffectStack st)
    by (rewrite Hstack; apply removelast_last).
  split; [|split].
  - destruct (lazy options); [reflexivity|]. destruct r0; simpl; exact Hpop.
  - intros ->. reflexivity.
  - intros ->. split.
    + destruct r0; simpl; exact Hcalls.
    + intros v. destruct r0; simpl; intros [= <-]. reflexivity.
Qed.

Lemma effect_runs_unless_lazy_witness :
  fnCalls (effect (exec 9) (FnPlain reading_fn) plain_options (initial_state false)).2 = [0] ∧
  ([] ++ [0]) `prefix_of`
    fnCalls (effect (exec 9) (FnPlain reading_fn) plain_options (initial_state false)).2 ∧
  effect (exec 9) (FnOfEffect 0) lazy_options idle_state =
    (Normal (VEffect 1), (createReactiveEffect throwing_fn lazy_options idle_state).2).
Proof.
  split; [reflexivity|]. split.
  - destruct (effect_runs_unless_lazy 9 (FnPlain reading_fn) plain_options reading_fn
                (initial_state false) (consistent_initial false) eq_refl)
      as (_ & _ & _ & _ & H). apply H. reflexivity.
  - assert (Hc : consistent idle_state)
      by apply consistent_createReactiveEffect, consistent_initial.
    destruct (effect_runs_unless_lazy 9 (FnOfEffect 0) lazy_options throwing_fn
                idle_state Hc eq_refl) as (_ & _ & _ & H & _). apply H. reflexivity.
Defined.

(** X14: [computed] is lazy: creating a computed value runs no user code
    (the result is the same however callbacks would be run, and the call
    log, the Sets and [targetMap] are untouched); the new object starts
    dirty, with no cached value, and its runner is a new active effect
    with the computed marker, no dependencies and a scheduler that only
    marks the object dirty. *)
Theorem computed_is_lazy (ex : Exec) (arg : ComputedArg prog) (st st' : State) (c : nat) :
  Computed.computed ex arg st = (Normal (VObj c), st') →
  c = length (objects st) ∧
  (∀ ex2 : Exec, Computed.computed ex2 arg st = (Normal (VObj c), st')) ∧
  fnCalls st' = fnCalls st ∧ sets st' = sets st ∧ targetMap st' = targetMap st ∧
  activeReactiveEffectStack st' = activeReactiveEffectStack st ∧
  ∃ cs er,
    computeds st' !! c = Some cs ∧ dirty cs = true ∧ cvalue cs = VUndefined ∧
    runner cs = length (effects st) ∧
    setter cs = match arg with
                | GetterOnly _ => ReadonlySetter
                | GetSet _ s => UserSetter s
                end ∧
    effects st' !! runner cs = Some er ∧
    active er = true ∧ deps er = [] ∧ computed er = true ∧
    scheduler er = Some (SchedDirty c) ∧ onTrigger er = None.
Proof.
  intros H.
  set (getter := match arg with GetterOnly g => g | GetSet g _ => g end).
  assert (Hshape : ∀ ex0 : Exec,
            Computed.computed ex0 arg st =
            match fn_of getter st with
            | None => (Thrown VTypeError, st)
            | Some f =>
                let options := {| lazy := true; opt_computed := true;
                                  opt_scheduler := Some (SchedDirty (length (objects st)));
                                  opt_onTrack := None; opt_onTrigger := None;
                                  opt_onStop := None |} in
                let st1 := (createReactiveEffect f options st).2 in
                (Normal (VObj (length (objects st))),
                 set_computeds
                   (<[length (objects st) :=
                        {| dirty := true; cvalue := VUndefined;
                           runner := length (effects st);
                           setter := match arg with
                                     | GetterOnly _ => ReadonlySetter
                                     | GetSet _ s => UserSetter s
                                     end |}]> (computeds st1))
                   (set_objects (objects st1 ++ [Computed.plain_object]) st1))
            end).
  { intros ex0. unfold Computed.computed, effect, fn_of. fold getter.
    destruct (match getter with
              | FnPlain f => Some f
              | FnOfEffect e0 => raw <$> effects st !! e0
              end); reflexivity. }
  rewrite Hshape in H. destruct (fn_of getter st) as [f|] eqn:Hf; [|discriminate H].
  cbv zeta in H. injection H as <- <-.
  split; [reflexivity|]. split; [intros ex2; rewrite Hshape; reflexivity|].
  repeat (split; [reflexivity|]).
  eexists _, _. simpl. rewrite lookup_insert_eq.
  split; [reflexivity|]. simpl.
  repeat (split; [reflexivity|]).
  rewrite lookup_app_r by lia. rewrite Nat.sub_diag. simpl.
  repeat split.
Qed.

Lemma computed_is_lazy_witness :
  fnCalls computed_state = [] ∧ is_dirty 0 computed_state ∧
  ∀ ex2 : Exec,
    Computed.computed ex2 (GetterOnly (FnPlain answer_fn)) (initial_state true) =
    (Normal (VObj 0), computed_state).
Proof.
  destruct (computed_is_lazy (exec 0) (GetterOnly (FnPlain answer_fn)) (initial_state true)
              computed_state 0 eq_refl)
    as (_ & Hany & Hcalls & _ & _ & _ & cs & er & Hcs & Hd & _).
  split; [exact Hcalls|]. split; [exists cs; auto|exact Hany].
Defined.

Lemma member_subscribe_mono (e e' dep : nat) (st : State) (d : nat) :
  member st e d → member (subscribe dep e' st) e d.
Proof.
  intros (s & Hs & He). unfold member. simpl.
  destruct (decide (dep = d)) as [->|Hd].
  - rewrite list_lookup_alter_eq, Hs. simpl. eexists. split; [reflexivity|].
    apply elem_of_set_add. auto.
  - rewrite list_lookup_alter_ne by exact Hd. eauto.
Qed.

Lemma forward_members (parent : nat) (ds : list nat) (st : State) :
  (∀ d, d ∈ ds → d < length (sets st)) →
  let st' := foldl (λ s dep, if negb (dep_has dep parent s)
                             then subscribe dep parent s else s) st ds in
  (∀ d, d ∈ ds → member st' parent d) ∧
  (∀ e d, member st e d → member st' e d) ∧
  (∀ e d, e ≠ parent → member st' e d → member st e d).
Proof.
  revert st. induction ds as [|d0 ds IH]; intros st Hds; simpl.
  - split; [|auto]. intros d Hd. apply elem_of_nil in Hd. destruct Hd.
  - set (st1 := if negb (dep_has d0 parent st) then subscribe d0 parent st else st).
    assert (Hlen : length (sets st1) = length (sets st)).
    { subst st1. destruct (dep_has d0 parent st); simpl; [reflexivity|apply length_alter]. }
    assert (Hself : member st1 parent d0).
    { subst st1. destruct (dep_has d0 parent st) eqn:Hhas; simpl.
      - apply dep_has_member, Hhas.
      - apply member_subscribe_self, Hds, list_elem_of_here. }
    assert (Hmono : ∀ e d, member st e d → member st1 e d).
    { intros e d H. subst st1. destruct (dep_has d0 parent st); simpl;
        [exact H|apply member_subscribe_mono, H]. }
    assert (Hother : ∀ e d, e ≠ parent → member st1 e d → member st e d).
    { intros e d Hne H. subst st1. destruct (dep_has d0 parent st); simpl in H;
        [exact H|]. apply (member_subscribe_other e parent d0 st d) in H; [exact H|congruence]. }
    destruct (IH st1) as (I1 & I2 & I3).
    { intros d Hd. rewrite Hlen. apply Hds, list_elem_of_further, Hd. }
    split; [|split].
    + intros d Hd. apply elem_of_cons in Hd as [->|Hd]; [apply I2, Hself|apply I1, Hd].
    + intros e d H. apply I2, Hmono, H.
    + intros e d Hne H. apply Hother; [exact Hne|]. apply I3; assumption.
Qed.

Lemma dep_get_member (st : State) (depsMap : list (option PropKey * nat))
    (k : option PropKey) (s : list nat) (e : nat) :
  dep_get st depsMap k = Some s → e ∈ s →
  ∃ d, map_get k depsMap = Some d ∧ member st e d.
Proof.
  unfold dep_get. destruct (map_get k depsMap) as [d|]; [|discriminate].
  intros Hs He. exists d. split; [reflexivity|]. exists s. auto.
Qed.

Lemma member_dep_get (st : State) (depsMap : list (option PropKey * nat))
    (k : option PropKey) (d e : nat) :
  map_get k depsMap = Some d → member st e d →
  ∃ s, dep_get st depsMap k = Some s ∧ e ∈ s.
Proof. intros Hk (s & Hs & He). exists s. unfold dep_get. rewrite Hk. auto. Qed.

(** What a change affects is decided Set by Set. *)
Lemma affected_transfer (st st' : State) (depsMap : list (option PropKey * nat))
    (target : nat) (type : OperationTypes) (key : option PropKey) (e e' : nat) :
  (∀ d, member st e d → member st' e' d) →
  is_array st' target = is_array st target →
  affected st depsMap target type key e → affected st' depsMap target type key e'.
Proof.
  intros Hmem Harr. unfold affected. rewrite Harr. destruct (decide (type = CLEAR)).
  - intros (k & d & s & Hin & Hs & He).
    destruct (Hmem d) as (s' & Hs' & He'); [exists s; auto|]. eauto 6.
  - intros [(k & s & Hk & Hs & He)|(Hty & s & Hs & He)].
    + left. destruct (dep_get_member st depsMap _ s e Hs He) as (d & Hd & Hm).
      destruct (member_dep_get st' depsMap _ d e' Hd (Hmem d Hm)) as (s' & Hs' & He').
      eauto.
    + right. split; [exact Hty|].
      destruct (dep_get_member st depsMap _ s e Hs He) as (d & Hd & Hm).
      destruct (member_dep_get st' depsMap _ d e' Hd (Hmem d Hm)) as (s' & Hs' & He').
      eauto.
Qed.

(** X15: a derived value forwards its dependencies. After [trackChildRun]
    with effect [parent] on top of the stack, the parent is a member of
    every Set the child (the runner of the derived value) is a member
    of; no membership is lost and no other effect gains one. So whatever
    change makes a [trigger] collect the runner makes it collect the
    parent as well. *)
Theorem trackChildRun_forwards_dependencies (child parent : nat) (cr : ReactiveEffect)
    (st : State) :
  consistent st →
  last (activeReactiveEffectStack st) = Some parent →
  effects st !! child = Some cr →
  let st' := Computed.trackChildRun child st in
  (∀ d, member st child d → member st' parent d) ∧
  (∀ e d, member st e d → member st' e d) ∧
  (∀ e d, e ≠ parent → member st' e d → member st e d) ∧
  (∀ depsMap target type key,
     resolved (collectRunners st depsMap target type key) child →
     resolved (collectRunners st' depsMap target type key) parent) ∧
  consistent st'.
Proof.
  intros Hc Hlast Hcr st'.
  assert (Hvalid : ∀ d, d ∈ deps cr → d < length (sets st)).
  { intros d Hd. destruct Hc as [Hagree _].
    destruct (proj2 (Hagree child d)) as (s & Hs & _); [exists cr; auto|].
    apply lookup_lt_Some in Hs. exact Hs. }
  destruct (forward_members parent (deps cr) st Hvalid) as (F1 & F2 & F3).
  assert (Hst' : st' = foldl (λ s dep, if negb (dep_has dep parent s)
                                       then subscribe dep parent s else s) st (deps cr)).
  { subst st'. unfold Computed.trackChildRun. rewrite Hlast, Hcr. reflexivity. }
  rewrite <- Hst' in F1, F2, F3.
  assert (Hfw : ∀ d, member st child d → member st' parent d).
  { intros d Hd. apply F1. destruct Hc as [Hagree _].
    apply Hagree in Hd as (cr' & Hcr' & Hin). rewrite Hcr in Hcr'. injection Hcr' as <-.
    exact Hin. }
  split; [exact Hfw|]. split; [exact F2|]. split; [exact F3|].
  split; [|apply consistent_trackChildRun, Hc].
  intros depsMap target type key Hres.
  apply collectRunners_affected. apply collectRunners_affected in Hres.
  revert Hres. apply affected_transfer; [exact Hfw|].
  destruct (trackChildRun_outside child st) as (Ho & _).
  unfold is_array. subst st'. rewrite Ho. reflexivity.
Qed.

Lemma trackChildRun_forwards_dependencies_witness :
  member forwarding_state 0 0 ∧ ¬ member forwarding_state 1 0 ∧
  member (Computed.trackChildRun 0 forwarding_state) 1 0.
Proof.
  assert (Hc0 : consistent subscribed_state).
  { apply (do_op_consistent (exec 9) (exec_consistent 9)
             (OpEffect (FnPlain reading_fn) plain_options)), consistent_initial. }
  assert (Hc : consistent forwarding_state).
  { pose proof (consistent_createReactiveEffect answer_fn lazy_options subscribed_state Hc0)
      as [Hagree [Hmap _]].
    split; [exact Hagree|]. split; [exact Hmap|].
    intros e He. apply list_elem_of_singleton in He as ->. vm_compute. lia. }
  assert (Hm : member forwarding_state 0 0)
    by (exists [0]; split; [reflexivity|apply list_elem_of_here]).
  split; [exact Hm|]. split.
  - intros (s & Hs & He). vm_compute in Hs. injection Hs as <-.
    apply list_elem_of_singleton in He. discriminate He.
  - destruct (trackChildRun_forwards_dependencies 0 1 _ forwarding_state Hc eq_refl eq_refl)
      as (H & _). apply H, Hm.
Defined.

(** ** reactive and the Dependency Store *)

Lemma createReactiveObject_store (v : value) (toProxy toRaw : WeakMapName)
    (h1 h2 : Handlers) (st : State) :
  let st' := (createReactiveObject v toProxy toRaw h1 h2 st).2 in
  (∀ t m, targetMap st !! t = Some m → targetMap st' !! t = Some m) ∧
  (∀ t m, targetMap st' !! t = Some m → targetMap st !! t = Some m ∨ m = []).
Proof.
  unfold createReactiveObject.
  destruct v; simpl; try solve [destruct (__DEV__ st); simpl; split; auto].
  destruct (wm_get toProxy (tables st) !! r); [simpl; split; auto|].
  destruct (bool_decide (is_Some (wm_get toRaw (tables st) !! r))); [simpl; split; auto|].
  destruct (canObserve st r); [|simpl; split; auto]. simpl.
  destruct (objects st !! r); [|simpl; split; auto]. simpl.
  case_bool_decide as Hhas; simpl; [split; auto|].
  split.
  - intros t m Ht. rewrite lookup_insert_ne; [exact Ht|].
    intros <-. apply Hhas. eauto.
  - intros t m. rewrite lookup_insert. case_decide; [|auto].
    intros [= <-]. auto.
Qed.

(** X16: making an object reactive or read-only never disturbs the
    dependency graph: no effect record, Set or stack entry changes, a
    key-to-Set map that exists is kept as it is (also when the raw object
    was tracked before its first proxy was made), and the only map that
    may appear is an empty one. *)
Theorem reactive_keeps_subscriptions (v : value) (st : State) :
  (effects (reactive v st).2 = effects st ∧ sets (reactive v st).2 = sets st ∧
   activeReactiveEffectStack (reactive v st).2 = activeReactiveEffectStack st ∧
   fnCalls (reactive v st).2 = fnCalls st ∧
   (∀ t m, targetMap st !! t = Some m → targetMap (reactive v st).2 !! t = Some m) ∧
   (∀ t m, targetMap (reactive v st).2 !! t = Some m →
           targetMap st !! t = Some m ∨ m = [])) ∧
  (effects (readonly v st).2 = effects st ∧ sets (readonly v st).2 = sets st ∧
   activeReactiveEffectStack (readonly v st).2 = activeReactiveEffectStack st ∧
   fnCalls (readonly v st).2 = fnCalls st ∧
   (∀ t m, targetMap st !! t = Some m → targetMap (readonly v st).2 !! t = Some m) ∧
   (∀ t m, targetMap (readonly v st).2 !! t = Some m →
           targetMap st !! t = Some m ∨ m = [])).
Proof.
  assert (Hcreate : ∀ v' toProxy toRaw h1 h2,
            let st' := (createReactiveObject v' toProxy toRaw h1 h2 st).2 in
            effects st' = effects st ∧ sets st' = sets st ∧
            activeReactiveEffectStack st' = activeReactiveEffectStack st ∧
            fnCalls st' = fnCalls st ∧
            (∀ t m, targetMap st !! t = Some m → targetMap st' !! t = Some m) ∧
            (∀ t m, targetMap st' !! t = Some m → targetMap st !! t = Some m ∨ m = [])).
  { intros v' toProxy toRaw h1 h2 st'.
    destruct (createReactiveObject_graph v' toProxy toRaw h1 h2 st)
      as (H1 & H2 & H3 & _ & H5 & _).
    destruct (createReactiveObject_store v' toProxy toRaw h1 h2 st) as (H6 & H7).
    repeat split; assumption. }
  assert (Hreadonly : ∀ v', let st' := (readonly v' st).2 in
            effects st' = effects st ∧ sets st' = sets st ∧
            activeReactiveEffectStack st' = activeReactiveEffectStack st ∧
            fnCalls st' = fnCalls st ∧
            (∀ t m, targetMap st !! t = Some m → targetMap st' !! t = Some m) ∧
            (∀ t m, targetMap st' !! t = Some m → targetMap st !! t = Some m ∨ m = []))
    by (intros v'; unfold readonly; apply Hcreate).
  split; [|apply Hreadonly].
  unfold reactive. destruct (wm_has _ _ _); [repeat split; auto|].
  destruct (ws_has _ _); [apply Hreadonly|apply Hcreate].
Qed.

Lemma reactive_keeps_subscriptions_witness :
  (reactive (VObj 0) tracked_raw_state).1 = VObj 1 ∧
  targetMap (reactive (VObj 0) tracked_raw_state).2 !! 0 =
    Some [(Some (KString "count"), 0)].
Proof.
  split; [vm_compute; reflexivity|].
  destruct (reactive_keeps_subscriptions (VObj 0) tracked_raw_state)
    as ((_ & _ & _ & _ & H & _) & _).
  apply H. vm_compute. reflexivity.
Defined.

(** ** The kind of a proxy *)

Lemma wm_get_wm_set (w : WeakMapName) (k v : nat) (t : ProxyTables) :
  wm_get w (wm_set w k v t) !! k = Some v.
Proof. destruct w; simpl; apply lookup_insert_eq. Qed.

Lemma createReactiveObject_observable (t : nat) (toProxy toRaw : WeakMapName)
    (h1 h2 : Handlers) (st : State) :
  (∀ p, wm_get toProxy (tables st) !! t = Some p → wm_get toRaw (tables st) !! p = Some t) →
  wm_get toRaw (tables st) !! t = None →
  canObserve st t = true →
  ∃ p, (createReactiveObject (VObj t) toProxy toRaw h1 h2 st).1 = VObj p ∧
       wm_get toRaw (tables (createReactiveObject (VObj t) toProxy toRaw h1 h2 st).2) !! p
       = Some t.
Proof.
  intros Hinv Hr Hobs. unfold createReactiveObject.
  destruct (wm_get toProxy (tables st) !! t) as [p|] eqn:Hp.
  - exists p. simpl. auto.
  - simpl. rewrite bool_decide_false by (rewrite Hr; intros [? [=]]).
    rewrite Hobs. simpl. unfold canObserve in Hobs.
    destruct (objects st !! t) as [o|]; [|discriminate Hobs].
    exists (length (objects st)). simpl.
    split; [reflexivity|].
    destruct (bool_decide (is_Some (targetMap st !! t))); simpl; apply wm_get_wm_set.
Qed.

Lemma readonly_kind (r : nat) (st : State) :
  proxies_wf st → isReactive (VObj r) st = false → canObserve st r = true →
  isReadonly (readonly (VObj r) st).1 (readonly (VObj r) st).2 = true.
Proof.
  intros Hwf Hnot Hobs. destruct (not_reactive_lookups r st Hnot) as [Hre Hro].
  unfold readonly. rewrite Hre.
  destruct (createReactiveObject_observable r RawToReadonly ReadonlyToRaw
              readonlyHandlers readonlyCollectionHandlers st) as (p & E1 & E2);
    [|exact Hro|exact Hobs|].
  - intros p Hp. destruct Hwf as (_ & _ & H2 & _). apply H2, Hp.
  - rewrite E1. unfold isReadonly. simpl in E2 |- *. rewrite E2.
    apply bool_decide_eq_true. eauto.
Qed.

(** X17: the kind of a proxy follows the call that made it. For an
    observable object that is not itself a proxy, what [readonly] returns
    is read-only (and reactive), what [reactive] returns is reactive and
    not read-only, unless the object was marked read-only, in which case
    [reactive] is [readonly]. *)
Theorem proxy_kind_follows_the_call (r : nat) (st : State) :
  proxies_wf st →
  isReactive (VObj r) st = false →
  canObserve st r = true →
  (isReadonly (readonly (VObj r) st).1 (readonly (VObj r) st).2 = true ∧
   isReactive (readonly (VObj r) st).1 (readonly (VObj r) st).2 = true) ∧
  (r ∉ readonlyValues (tables st) →
   isReactive (reactive (VObj r) st).1 (reactive (VObj r) st).2 = true ∧
   isReadonly (reactive (VObj r) st).1 (reactive (VObj r) st).2 = false) ∧
  (r ∈ readonlyValues (tables st) →
   reactive (VObj r) st = readonly (VObj r) st).
Proof.
  intros Hwf Hnot Hobs. destruct (not_reactive_lookups r st Hnot) as [Hre Hro].
  pose proof (readonly_kind r st Hwf Hnot Hobs) as Hkind.
  split; [|split].
  - split; [exact Hkind|]. unfold isReactive. unfold isReadonly in Hkind.
    rewrite Hkind. apply orb_true_r.
  - intros Hmark.
    assert (Hreq : reactive (VObj r) st =
                   createReactiveObject (VObj r) RawToReactive ReactiveToRaw
                     mutableHandlers mutableCollectionHandlers st).
    { unfold reactive, wm_has, ws_has. cbn [wm_get]. rewrite Hro.
      rewrite bool_decide_false by (intros [? [=]]).
      rewrite bool_decide_false by exact Hmark. reflexivity. }
    rewrite Hreq.
    destruct (createReactiveObject_cases r RawToReactive ReactiveToRaw
                mutableHandlers mutableCollectionHandlers st)
      as [(obs & Hp & E)|[(Hp & E)|(o & st' & Hp & Hr & Ho & E & Hobj & Htab)]];
      rewrite E; simpl.
    + simpl in Hp. destruct Hwf as (_ & H1 & _ & H3 & _).
      apply H1 in Hp. unfold isReactive, isReadonly. simpl. rewrite Hp.
      destruct (H3 obs) as (_ & _ & ->); [eauto|].
      split; [apply orb_true_iff; left; apply bool_decide_eq_true; eauto|].
      apply bool_decide_eq_false. intros [? [=]].
    + destruct (createReactiveObject_observable r RawToReactive ReactiveToRaw
                  mutableHandlers mutableCollectionHandlers st) as (p & E1 & E2);
        [|exact Hre|exact Hobs|].
      * intros p Hq. destruct Hwf as (_ & H1 & _). apply H1, Hq.
      * rewrite E in E1, E2. simpl in E1, E2. injection E1 as <-. congruence.
    + unfold isReactive, isReadonly. simpl. rewrite Htab. simpl.
      rewrite lookup_insert_eq.
      pose proof (proxies_wf_fresh st ReadonlyToRaw Hwf) as F. simpl in F. rewrite F.
      split; [apply orb_true_iff; left; apply bool_decide_eq_true; eauto|].
      apply bool_decide_eq_false. intros [? [=]].
  - intros Hmark. unfold reactive. simpl. rewrite Hro.
    rewrite bool_decide_false by (intros [? [=]]).
    rewrite bool_decide_true by exact Hmark. reflexivity.
Qed.

Lemma proxy_kind_follows_the_call_witness :
  isReadonly (readonly (VObj 0) one_object_state).1 (readonly (VObj 0) one_object_state).2
  = true ∧
  isReadonly (reactive (VObj 0) one_object_state).1 (reactive (VObj 0) one_object_state).2
  = false.
Proof.
  destruct (proxy_kind_follows_the_call 0 one_object_state one_object_state_wf
              eq_refl eq_refl) as ((H1 & _) & H2 & _).
  split; [exact H1|]. apply H2. simpl. apply not_elem_of_empty.
Defined.

(** X18: an object marked read-only only gets read-only proxies. After
    [markReadonly] of an observable object that is not a proxy, [reactive]
    of the object is [readonly] of it: the result is a read-only proxy
    whose raw value is the object. *)
Theorem markReadonly_makes_reactive_readonly (r : nat) (st : State) :
  proxies_wf st →
  isReactive (VObj r) st = false →
  canObserve st r = true →
  let st1 := (markReadonly (VObj r) st).2 in
  markReadonly (VObj r) st = (Normal (VObj r), st1) ∧
  reactive (VObj r) st1 = readonly (VObj r) st1 ∧
  isReadonly (reactive (VObj r) st1).1 (reactive (VObj r) st1).2 = true ∧
  toRaw (reactive (VObj r) st1).1 (reactive (VObj r) st1).2 = VObj r.
Proof.
  intros Hwf Hnot Hobs st1.
  destruct (not_reactive_lookups r st Hnot) as [Hre Hro].
  assert (Hwf1 : proxies_wf st1) by exact Hwf.
  assert (Hnot1 : isReactive (VObj r) st1 = false) by exact Hnot.
  assert (Hobs1 : canObserve st1 r = true) by exact Hobs.
  assert (Heq : reactive (VObj r) st1 = readonly (VObj r) st1).
  { unfold reactive. simpl. rewrite Hro.
    rewrite bool_decide_false by (intros [? [=]]).
    rewrite bool_decide_true by set_solver. reflexivity. }
  split; [reflexivity|]. split; [exact Heq|]. rewrite Heq. split.
  - apply readonly_kind; assumption.
  - unfold readonly. change (reactiveToRaw (tables st1)) with (reactiveToRaw (tables st)).
    rewrite Hre. apply toRaw_create_readonly; assumption.
Qed.

Lemma markReadonly_makes_reactive_readonly_witness :
  let st1 := (markReadonly (VObj 0) one_object_state).2 in
  isReadonly (reactive (VObj 0) one_object_state).1 (reactive (VObj 0) one_object_state).2
  = false ∧
  isReadonly (reactive (VObj 0) st1).1 (reactive (VObj 0) st1).2 = true.
Proof.
  split; [vm_compute; reflexivity|].
  destruct (markReadonly_makes_reactive_readonly 0 one_object_state one_object_state_wf
              eq_refl eq_refl) as (_ & _ & H & _).
  exact H.
Defined.
